(** * rag-chat-app: the RAG pipeline of [services/ragService.ts] and
    [services/geminiService.ts], and the chat turn of [App.tsx].

    JavaScript strings are modelled as Stdlib [string]s (one [ascii] per code
    unit), integral numbers (offsets, sizes, page numbers) as [Z], and the
    numbers of embedding vectors and scores as the kernel's binary64 floats,
    which is what a JavaScript number is. *)

From Stdlib Require Import ZArith List String Ascii Bool Lia.
From Stdlib Require Import DecimalString DecimalZ Floats Sorted Permutation.
Import ListNotations.

Local Open Scope string_scope.
Local Open Scope Z_scope.

(* ------------------------------------------------------------------ *)
(** ** Strings *)

(** [s.length]. *)
Definition js_length (s : string) : Z := Z.of_nat (String.length s).

(** [String.prototype.slice(start, end)]: negative indices count from the
    end, both are clamped to the string. *)
Definition slice (s : string) (start end_ : Z) : string :=
  let len := js_length s in
  let from := if start <? 0 then Z.max (len + start) 0 else Z.min start len in
  let to := if end_ <? 0 then Z.max (len + end_) 0 else Z.min end_ len in
  let span := Z.max (to - from) 0 in
  substring (Z.to_nat from) (Z.to_nat span) s.

(** Number-to-string conversion of a template literal, for integral values. *)
Definition Z_to_string (z : Z) : string := NilZero.string_of_int (Z.to_int z).

(** [arr.join(sep)]. *)
Fixpoint join (sep : string) (l : list string) : string :=
  match l with
  | [] => ""
  | [x] => x
  | x :: rest => x ++ sep ++ join sep rest
  end.

Fixpoint repeat_char (c : ascii) (n : nat) : string :=
  match n with
  | O => EmptyString
  | S n' => String c (repeat_char c n')
  end.

(* ------------------------------------------------------------------ *)
(** ** Data model *)

(** The extractor's [{ text: string; page: number }]. *)
Module Page.
Record t := mk { text : string; page : Z }.
End Page.

Record DocChunk := mkDocChunk {
  id : string;
  text : string;
  embedding : option (list float);
  pageNumber : Z
}.

Record ProcessedDocument := mkProcessedDocument {
  chunks : list DocChunk;
  fullText : string
}.

(* ------------------------------------------------------------------ *)
(** ** chunkText *)

Section Chunker.
Variables chunkSize overlap : Z.

(** The chunk pushed by one iteration of the [while] loop. *)
Definition window (txt : string) (page start : Z) : DocChunk :=
  let end_ := Z.min (start + chunkSize) (js_length txt) in
  {| id := Z_to_string page ++ "-" ++ Z_to_string start;
     text := slice txt start end_;
     embedding := None;
     pageNumber := page |}.

(** The [while (start < text.length)] loop of one page. [fuel] bounds the
    number of iterations; [None] means the bound was reached with the loop
    still running. The loop has no other exit than its two tests on [start]. *)
Fixpoint chunkLoop (fuel : nat) (txt : string) (page start : Z)
    (acc : list DocChunk) : option (list DocChunk) :=
  match fuel with
  | O => None
  | S fuel' =>
      if start <? js_length txt then
        let acc' := (acc ++ [window txt page start])%list in
        let start' := start + (chunkSize - overlap) in
        if start' >=? js_length txt then Some acc'
        else chunkLoop fuel' txt page start' acc'
      else Some acc
  end.

(** [pages.forEach(({ text, page }) => { let start = 0; while ... })]. *)
Fixpoint forEachPage (fuel : nat) (pages : list Page.t)
    (acc : list DocChunk) : option (list DocChunk) :=
  match pages with
  | [] => Some acc
  | p :: rest =>
      match chunkLoop fuel (Page.text p) (Page.page p) 0 acc with
      | Some acc' => forEachPage fuel rest acc'
      | None => None
      end
  end.

Definition chunkText (fuel : nat) (pages : list Page.t) : option (list DocChunk) :=
  forEachPage fuel pages [].

(** Start offsets [start, start + step, ...] of [n] consecutive windows. *)
Fixpoint offsets (n : nat) (start : Z) : list Z :=
  match n with
  | O => []
  | S n' => start :: offsets n' (start + (chunkSize - overlap))
  end.

(** Number of windows of a page of [len] characters when the step is positive:
    the ceiling of [len / step]. *)
Definition windowCount (len : Z) : nat :=
  Z.to_nat ((len + (chunkSize - overlap) - 1) / (chunkSize - overlap)).

Definition pageChunks (p : Page.t) : list DocChunk :=
  map (window (Page.text p) (Page.page p))
      (offsets (windowCount (js_length (Page.text p))) 0).

End Chunker.

(** Iterations that are enough for every page when the step is positive. *)
Definition chunkFuel (pages : list Page.t) : nat :=
  S (fold_right (fun p m => Nat.max (String.length (Page.text p)) m) O pages).

(** The call [chunkText(pages)] of [processPdf]: the default parameters. *)
Definition DEFAULT_CHUNK_SIZE : Z := 4000.
Definition DEFAULT_OVERLAP : Z := 500.

Definition page_of_length (n : nat) (pg : Z) : Page.t :=
  Page.mk (repeat_char "a" n) pg.

(** What the examples below observe of a chunk: its id and its length. *)
Definition shape (c : DocChunk) : string * Z := (id c, js_length (text c)).

(* ------------------------------------------------------------------ *)
(** ** Effects

    The asynchronous code is run in one monad: a trace of observable events
    (console output, progress callbacks, requests to the two model
    capabilities, fragments yielded by a generator), a counter of the
    embedding requests issued so far, and a completion. *)

Inductive event : Type :=
| ConsoleLog (msg : string)
| ConsoleWarn (msg : string)
| ConsoleError (msg : string)
| Progress (status : string)
| EmbedRequest (contents : string)
| GenerateRequest (contents : string)
| Yield (fragment : string).

Inductive exn : Type :=
| Error (message : string)   (* thrown by this code *)
| TypeError                  (* reading an index of [undefined] *)
| Rejection.                 (* an external call failed *)

Inductive completion (A : Type) : Type :=
| Return (a : A)
| Throw (e : exn)
| OutOfFuel.
Arguments Return {A} a.
Arguments Throw {A} e.
Arguments OutOfFuel {A}.

Definition M (A : Type) : Type := nat -> list event * nat * completion A.

Definition ret {A} (a : A) : M A := fun n => ([], n, Return a).

Definition bind {A B} (m : M A) (k : A -> M B) : M B :=
  fun n =>
    let '(t1, n1, c) := m n in
    match c with
    | Return a => let '(t2, n2, c2) := k a n1 in ((t1 ++ t2)%list, n2, c2)
    | Throw e => (t1, n1, Throw e)
    | OutOfFuel => (t1, n1, OutOfFuel)
    end.

Definition emit (ev : event) : M unit := fun n => ([ev], n, Return tt).
Definition throw {A} (e : exn) : M A := fun n => ([], n, Throw e).

(** [try { m } catch (e) { h e }]. *)
Definition try_catch {A} (m : M A) (h : exn -> M A) : M A :=
  fun n =>
    let '(t1, n1, c) := m n in
    match c with
    | Throw e => let '(t2, n2, c2) := h e n1 in ((t1 ++ t2)%list, n2, c2)
    | _ => (t1, n1, c)
    end.

Declare Scope js_scope.
Delimit Scope js_scope with js.
Notation "x <- m ;; k" := (bind m (fun x => k))
  (at level 61, m at next level, right associativity) : js_scope.
Notation "m ;; k" := (bind m (fun _ => k))
  (at level 61, right associativity) : js_scope.
Local Open Scope js_scope.

Fixpoint mapM {A B} (f : A -> M B) (l : list A) : M (list B) :=
  match l with
  | [] => ret []
  | x :: rest => y <- f x ;; ys <- mapM f rest ;; ret (y :: ys)
  end.

(** The fragments a run has yielded, in order. *)
Fixpoint yields (t : list event) : list string :=
  match t with
  | [] => []
  | Yield v :: rest => v :: yields rest
  | _ :: rest => yields rest
  end.

Definition is_embed_request (ev : event) : bool :=
  match ev with EmbedRequest _ => true | _ => false end.

(** [for await (const v of g) body(v)]: the body runs once per yielded
    fragment, the generator's other events stay in the trace, and its
    completion is the loop's unless the body throws first. *)
Fixpoint replay (t : list event) (body : string -> M unit) : M unit :=
  match t with
  | [] => ret tt
  | Yield v :: rest => body v ;; replay rest body
  | ev :: rest => emit ev ;; replay rest body
  end.

Definition for_await (g : M unit) (body : string -> M unit) : M unit :=
  fun n =>
    let '(t, n1, c) := g n in
    let '(t', n2, c') := replay t body n1 in
    match c' with
    | Return _ => (t', n2, c)
    | _ => (t', n2, c')
    end.

(* ------------------------------------------------------------------ *)
(** ** The model capabilities ([ai.models]) *)

Definition nl : string := String "010"%char EmptyString.
Definition dquote : string := String "034"%char EmptyString.

(** What [embedContent] answers: it rejects, or responds with
    [embeddings] absent or a list of embeddings, each with its [values] or
    without them (the field is optional). *)
Inductive embed_outcome : Type :=
| EmbedRejected
| EmbedResponse (embeddings : option (list (option (list float)))).

(** What [generateContentStream] answers: the request itself rejects, or a
    stream delivers chunks (whose [text] may be absent) and then ends or
    fails. *)
Inductive stream_end : Type := StreamDone | StreamFailed.
Inductive stream_outcome : Type :=
| StreamRejected
| StreamOpened (texts : list (option string)) (ending : stream_end).

(** The client: the answer to the [k]-th embedding request depends on its
    contents and on [k]; a generation request is answered by its prompt. *)
Record GoogleGenAI := mkGoogleGenAI {
  embedContent : nat -> string -> embed_outcome;
  generateContentStream : string -> stream_outcome
}.

Section Services.
Variable ai : GoogleGenAI.

(** [text.replace(/\n/g, " ")]. *)
Fixpoint cleanText (s : string) : string :=
  match s with
  | EmptyString => EmptyString
  | String c rest =>
      String (if Ascii.eqb c "010"%char then " "%char else c) (cleanText rest)
  end.

Definition requestEmbedding (contents : string) : M embed_outcome :=
  fun n => ([EmbedRequest contents], S n, Return (embedContent ai n contents)).

(** The result is [response.embeddings[0].values]: the vector, or [None]
    for [undefined] when the first embedding carries no values. *)
Definition getEmbedding (txt : string) : M (option (list float)) :=
  try_catch
    (response <- requestEmbedding (cleanText txt) ;;
     match response with
     | EmbedRejected => throw Rejection
     | EmbedResponse None | EmbedResponse (Some []) =>
         throw (Error "No embedding returned")
     | EmbedResponse (Some (first :: _)) => ret first
     end)
    (fun error => emit (ConsoleError "Embedding error:") ;; throw error).

Definition ERROR_FRAGMENT : string :=
  "Error generating response. Check browser console for details.".

(** [for await (const chunk of response) if (chunk.text) yield chunk.text]. *)
Fixpoint streamChunks (texts : list (option string)) : M unit :=
  match texts with
  | [] => ret tt
  | Some (String c rest) :: more => emit (Yield (String c rest)) ;; streamChunks more
  | _ :: more => streamChunks more
  end.

Definition getCompletionStream (prompt : string) : M unit :=
  try_catch
    (emit (GenerateRequest prompt) ;;
     match generateContentStream ai prompt with
     | StreamRejected => throw Rejection
     | StreamOpened texts ending =>
         streamChunks texts ;;
         match ending with
         | StreamDone => ret tt
         | StreamFailed => throw Rejection
         end
     end)
    (fun _ =>
       emit (ConsoleError "Stream generation error details:") ;;
       emit (Yield ERROR_FRAGMENT)).

End Services.

(* ------------------------------------------------------------------ *)
(** ** processPdf *)

(** The uploaded file as PDF.js reads it: unreadable, or one list of text
    items per page. *)
Inductive PdfFile : Type :=
| Unreadable
| Pdf (pageItems : list (list string)).

Definition onProgress (status : string) : M unit := emit (Progress status).

(** The body of [for (let i = 1; i <= pdf.numPages; i++)], page after page. *)
Fixpoint parsePages (i numPages : Z) (pageItems : list (list string)) : list Page.t :=
  match pageItems with
  | [] => []
  | items :: rest => Page.mk (join " " items) i :: parsePages (i + 1) numPages rest
  end.

Fixpoint parseProgress (i numPages : Z) (pageItems : list (list string)) : M unit :=
  match pageItems with
  | [] => ret tt
  | _ :: rest =>
      onProgress ("Parsing page " ++ Z_to_string i ++ " of " ++ Z_to_string numPages ++ "...") ;;
      parseProgress (i + 1) numPages rest
  end.

Definition extractTextFromPdf (file : PdfFile) : M (list Page.t) :=
  onProgress "Loading PDF..." ;;
  match file with
  | Unreadable => throw Rejection
  | Pdf pageItems =>
      let numPages := Z.of_nat (List.length pageItems) in
      parseProgress 1 numPages pageItems ;;
      ret (parsePages 1 numPages pageItems)
  end.

Definition batchSize : nat := 5.

(** [arr.slice(i, j)] for indices within the array. *)
Definition list_slice {A} (l : list A) (i j : nat) : list A :=
  firstn (j - i) (skipn i l).

Definition with_embedding (c : DocChunk) (values : list float) : DocChunk :=
  {| id := id c; text := text c; embedding := Some values; pageNumber := pageNumber c |}.

(** [chunk.embedding = values], where [values] may be [undefined]. *)
Definition assign_embedding (c : DocChunk) (values : option (list float)) : DocChunk :=
  {| id := id c; text := text c; embedding := values; pageNumber := pageNumber c |}.

Definition has_embedding (c : DocChunk) : bool :=
  match embedding c with Some _ => true | None => false end.

Section Processing.
Variable ai : GoogleGenAI.

(** The callback given to [batch.map]: [try { chunk.embedding = await
    getEmbedding(chunk.text) } catch (e) { console.warn(...) }]. It returns
    the chunk as the assignment leaves it. *)
Definition embedChunk (c : DocChunk) : M DocChunk :=
  try_catch
    (values <- getEmbedding ai (text c) ;; ret (assign_embedding c values))
    (fun _ => emit (ConsoleWarn ("Failed to embed chunk " ++ id c)) ;; ret c).

(** The [for (let i = 0; i < chunks.length; i += batchSize)] loop. The
    requests of a batch are issued in the order of its chunks; the chunk
    objects are updated in place, so the array afterwards holds the batch's
    chunks as [embedChunk] left them. [trips] bounds the iterations. *)
Fixpoint embedLoop (trips : nat) (i : nat) (chunks : list DocChunk) : M (list DocChunk) :=
  if (i <? List.length chunks)%nat then
    match trips with
    | O => fun n => ([], n, OutOfFuel)
    | S trips' =>
        let batch := list_slice chunks i (i + batchSize) in
        onProgress ("Embedding chunks " ++ Z_to_string (Z.of_nat i + 1) ++ " to "
                    ++ Z_to_string (Z.min (Z.of_nat (i + batchSize))
                                          (Z.of_nat (List.length chunks)))
                    ++ " of " ++ Z_to_string (Z.of_nat (List.length chunks)) ++ "...") ;;
        batch' <- mapM embedChunk batch ;;
        embedLoop trips' (i + batchSize)
          (firstn i chunks ++ batch' ++ skipn (i + batchSize) chunks)%list
    end
  else ret chunks.

Definition processPdf (fuel : nat) (file : PdfFile) : M ProcessedDocument :=
  pages <- extractTextFromPdf file ;;
  let fullText := join (nl ++ nl) (map Page.text pages) in
  onProgress "Splitting text into chunks..." ;;
  chunks <- match chunkText DEFAULT_CHUNK_SIZE DEFAULT_OVERLAP fuel pages with
            | Some chunks => ret chunks
            | None => fun n => ([], n, OutOfFuel)
            end ;;
  onProgress ("Generating embeddings for "
              ++ Z_to_string (Z.of_nat (List.length chunks)) ++ " chunks...") ;;
  chunks <- embedLoop (List.length chunks) 0 chunks ;;
  let validChunks := filter has_embedding chunks in
  ret {| chunks := validChunks; fullText := fullText |}.

(** The embedding [getEmbedding] returns for [txt] as the [k]-th request, if
    it returns one. *)
Definition embedResult (k : nat) (txt : string) : option (list float) :=
  match embedContent ai k (cleanText txt) with
  | EmbedResponse (Some (Some values :: _)) => Some values
  | _ => None
  end.

(** [getEmbedding] throws on [txt] as the [k]-th request: the request is
    rejected, or the response holds no embedding. *)
Definition embedThrows (k : nat) (txt : string) : bool :=
  match embedContent ai k (cleanText txt) with
  | EmbedResponse (Some (_ :: _)) => false
  | _ => true
  end.

(** The chunks after the embedding phase, when the first of them is embedded
    by request [k]: each one carries the embedding its own request returned,
    or none. *)
Fixpoint embedded (k : nat) (l : list DocChunk) : list DocChunk :=
  match l with
  | [] => []
  | c :: rest =>
      match embedResult k (text c) with
      | Some values => with_embedding c values
      | None => c
      end :: embedded (S k) rest
  end.

(** How many of the chunks' requests fail, the first being request [k]. *)
Fixpoint failures (k : nat) (l : list DocChunk) : nat :=
  match l with
  | [] => O
  | c :: rest =>
      (match embedResult k (text c) with Some _ => 0 | None => 1 end
       + failures (S k) rest)%nat
  end.

End Processing.

(** The pages the extractor returns for a readable file. *)
Definition pagesOf (pageItems : list (list string)) : list Page.t :=
  parsePages 1 (Z.of_nat (List.length pageItems)) pageItems.

(* ------------------------------------------------------------------ *)
(** ** cosineSimilarity and the ranking *)

(** The [for] loop over [vecA]: [vecB[i]] past the end of [vecB] is
    [undefined], which the products turn into NaN. *)
Fixpoint cosineLoop (vecA vecB : list float) (dotProduct normA normB : float)
    : float * float * float :=
  match vecA with
  | [] => (dotProduct, normA, normB)
  | a :: restA =>
      let b := match vecB with [] => nan | b :: _ => b end in
      cosineLoop restA (tl vecB)
        (dotProduct + a * b)%float (normA + a * a)%float (normB + b * b)%float
  end.

Definition cosineSimilarity (vecA vecB : list float) : float :=
  let '(dotProduct, normA, normB) := cosineLoop vecA vecB 0%float 0%float 0%float in
  (dotProduct / (sqrt normA * sqrt normB))%float.

(** [Array.prototype.sort(comparefn)], by the one relation it reads off the
    comparator: [after x y] when [comparefn(x, y) > 0] (a NaN counts as 0).
    The language fixes the result only for a comparator that is consistent
    on the array: the stable ordering, which insertion from the right
    computes. For any other comparator the order is left to the engine and
    may differ from the one computed here; the properties below that depend
    on the order of the result are stated for consistent comparators (scores
    without NaN) only. *)
Section ArraySort.
Context {A : Type} (after : A -> A -> bool).

Fixpoint sort_insert (x : A) (l : list A) : list A :=
  match l with
  | [] => [x]
  | y :: rest => if after x y then y :: sort_insert x rest else x :: y :: rest
  end.

Fixpoint Array_sort (l : list A) : list A :=
  match l with
  | [] => []
  | x :: rest => sort_insert x (Array_sort rest)
  end.

(** Two elements tie when the comparator puts neither after the other. *)
Definition ties (x y : A) : bool := negb (after x y) && negb (after y x).

(** The comparator orders the elements of [l] consistently: of two elements
    at most one is after the other, and "not after" is transitive. *)
Definition consistent_on (l : list A) : Prop :=
  (forall x y, In x l -> In y l -> after x y = true -> after y x = false)
  /\ (forall x y z, In x l -> In y l -> In z l ->
        after x y = false -> after y z = false -> after x z = false).

(** [l1] is a prefix of [l2]. *)
Definition prefix_of (l1 l2 : list A) : Prop := exists rest, l2 = (l1 ++ rest)%list.

End ArraySort.

(** [{ ...chunk, score }]. *)
Record ScoredChunk := mkScoredChunk {
  chunkOf : DocChunk;
  score : float
}.

(** The comparator [(a, b) => b.score - a.score] is positive when [b]'s
    score exceeds [a]'s; a NaN difference is not positive. *)
Definition byScoreDescending (a b : ScoredChunk) : bool :=
  (0 <? score b - score a)%float.

(** [cosineSimilarity(questionEmbedding, chunk.embedding!)]: on an
    [undefined] question embedding reading [vecA.length] throws; on a chunk
    without an embedding the loop's first [vecB[i]] throws, and a loop that
    never runs divides zero by zero. *)
Definition scoreChunk (questionEmbedding : option (list float)) (c : DocChunk)
    : M ScoredChunk :=
  match questionEmbedding with
  | None => throw TypeError
  | Some vecA =>
      match embedding c, vecA with
      | Some values, _ => ret (mkScoredChunk c (cosineSimilarity vecA values))
      | None, [] => ret (mkScoredChunk c (cosineSimilarity [] []))
      | None, _ :: _ => throw TypeError
      end
  end.

Definition TOP_K : nat := 8.

(** [scoredChunks.sort(...).slice(0, 8)]. *)
Definition topChunks (scoredChunks : list ScoredChunk) : list ScoredChunk :=
  firstn TOP_K (Array_sort byScoreDescending scoredChunks).

(** The ranking as [generateAnswer] runs it on the question's embedding. *)
Definition rank (questionEmbedding : option (list float)) (l : list DocChunk)
    : M (list ScoredChunk) :=
  scoredChunks <- mapM (scoreChunk questionEmbedding) l ;;
  ret (topChunks scoredChunks).

(** The scores as a pure function, for chunks that all carry an embedding. *)
Definition scoreOf (questionEmbedding : list float) (c : DocChunk) : ScoredChunk :=
  mkScoredChunk c (cosineSimilarity questionEmbedding
                     match embedding c with Some values => values | None => [] end).

(** Non-increasing in the order of the numbers ([<=] is false on a NaN). *)
Fixpoint nonincreasing (l : list float) : bool :=
  match l with
  | [] => true
  | x :: rest =>
      match rest with
      | [] => true
      | y :: _ => (y <=? x)%float && nonincreasing rest
      end
  end.

(** [Array.from(new Set(arr))]: first occurrences, in insertion order. *)
Definition Set_add (s : list Z) (x : Z) : list Z :=
  if existsb (Z.eqb x) s then s else (s ++ [x])%list.

Definition Set_from (l : list Z) : list Z := fold_left Set_add l [].

(** The comparator [(a, b) => a - b] on page numbers. *)
Definition ascending (a b : Z) : bool := 0 <? a - b.

(* ------------------------------------------------------------------ *)
(** ** The summary test: [/summar|overview|tl;dr|digest|describe the document/i] *)

Inductive RegExp : Type :=
| REmpty
| RChar (c : ascii)
| RSeq (r1 r2 : RegExp)
| RAlt (r1 r2 : RegExp).

Definition is_lower (c : ascii) : bool :=
  (97 <=? nat_of_ascii c)%nat && (nat_of_ascii c <=? 122)%nat.
Definition is_upper (c : ascii) : bool :=
  (65 <=? nat_of_ascii c)%nat && (nat_of_ascii c <=? 90)%nat.

Definition toUpper (c : ascii) : ascii :=
  if is_lower c then ascii_of_nat (nat_of_ascii c - 32) else c.
Definition toLower (c : ascii) : ascii :=
  if is_upper c then ascii_of_nat (nat_of_ascii c + 32) else c.

(** The pattern's [Canonicalize]: with the [i] flag a character is compared
    by its upper-case form. (A code unit of 128 or more never canonicalizes
    to an ASCII one, so on the pattern's characters only the letters a-z
    matter.) *)
Definition Canonicalize (ignoreCase : bool) (c : ascii) : ascii :=
  if ignoreCase then toUpper c else c.

(** The pattern's matcher, in continuation style: [k] receives what is left
    of the input after a match of [r]. *)
Fixpoint matcher (ignoreCase : bool) (r : RegExp) (s : string) (k : string -> bool) : bool :=
  match r with
  | REmpty => k s
  | RChar c =>
      match s with
      | EmptyString => false
      | String ch rest =>
          if Ascii.eqb (Canonicalize ignoreCase ch) (Canonicalize ignoreCase c)
          then k rest else false
      end
  | RSeq r1 r2 => matcher ignoreCase r1 s (fun s' => matcher ignoreCase r2 s' k)
  | RAlt r1 r2 => matcher ignoreCase r1 s k || matcher ignoreCase r2 s k
  end.

(** [regexp.test(s)]: a match at some start index, tried from index 0 on. *)
Fixpoint regexp_test (ignoreCase : bool) (r : RegExp) (s : string) : bool :=
  matcher ignoreCase r s (fun _ => true)
  || match s with
     | EmptyString => false
     | String _ rest => regexp_test ignoreCase r rest
     end.

(** A run of pattern characters. *)
Fixpoint literal (s : string) : RegExp :=
  match s with
  | EmptyString => REmpty
  | String c rest => RSeq (RChar c) (literal rest)
  end.

Definition summaryPattern : RegExp :=
  RAlt (literal "summar")
    (RAlt (literal "overview")
       (RAlt (literal "tl;dr")
          (RAlt (literal "digest") (literal "describe the document")))).

Definition isSummaryRequest (question : string) : bool :=
  regexp_test true summaryPattern question.

(** The branch [generateAnswer] takes. *)
Inductive Strategy : Type := Summary | Retrieval.

Definition selectStrategy (question : string) : Strategy :=
  if isSummaryRequest question then Summary else Retrieval.

(** The spec's words for the selection: the lower-cased question contains
    one of the keywords as a substring. *)
Fixpoint toLowerCase (s : string) : string :=
  match s with
  | EmptyString => EmptyString
  | String c rest => String (toLower c) (toLowerCase rest)
  end.

Definition keywords : list string :=
  ["summar"; "overview"; "tl;dr"; "digest"; "describe the document"].

Definition contains (s sub : string) : Prop :=
  exists before after, s = before ++ sub ++ after.

Definition spec_isSummary (question : string) : Prop :=
  exists kw, In kw keywords /\ contains (toLowerCase question) kw.

Definition all_ascii : list ascii := map ascii_of_nat (seq 0 256).

(* ------------------------------------------------------------------ *)
(** ** generateAnswer *)

Definition summaryPrompt (textToSend question : string) : string :=
  "
      You are an expert document assistant.
      The user wants a summary or overview of the following document.
      Provide a comprehensive, detailed, and well-structured summary.
      Explain the key points in depth.
      
      Document Content:
      "
  ++ textToSend
  ++ "
      
      User Request: "
  ++ question
  ++ "
    ".

Definition ragPrompt (context question : string) : string :=
  "
    You are a helpful assistant answering questions about a document.
    Use the following context snippets from the document to answer the question.
    
    Instructions:
    1. Provide a  well-explained** answer. Do not be too brief.
    2. Explain the concepts thoroughly based on the text.
    3. If the answer is not in the context, say "
  ++ dquote
  ++ "I cannot find the answer in the document."
  ++ dquote
  ++ "
    
    Context:
    "
  ++ context
  ++ "
    
    Question:
    "
  ++ question
  ++ "
    
    Answer:
  ".

Definition MAX_CHARS : Z := 3000000.
Definition TRUNCATION_MARKER : string := "...[truncated]".

Definition textToSend (fullText : string) : string :=
  if js_length fullText >? MAX_CHARS
  then slice fullText 0 MAX_CHARS ++ TRUNCATION_MARKER
  else fullText.

Definition SUMMARY_SOURCE : string := nl ++ nl ++ "**Source:** Full Document Analysis".

(** [Array.from(new Set(topChunks.map(c => c.pageNumber))).sort((a, b) => a - b)]. *)
Definition uniquePages (top : list ScoredChunk) : list Z :=
  Array_sort ascending (Set_from (map (fun c => pageNumber (chunkOf c)) top)).

(** The citation fragment of the retrieval path. *)
Definition sourcesFragment (pages : list Z) : string :=
  nl ++ nl ++ "**Sources:** Page"
  ++ (if (1 <? List.length pages)%nat then "s" else "")
  ++ " " ++ join ", " (map Z_to_string pages).

Section Answering.
Variable ai : GoogleGenAI.

Definition yield (fragment : string) : M unit := emit (Yield fragment).

Definition generateAnswer (question : string) (docData : ProcessedDocument) : M unit :=
  if isSummaryRequest question then
    emit (ConsoleLog "Using Full Context Summarization strategy") ;;
    let prompt := summaryPrompt (textToSend (fullText docData)) question in
    for_await (getCompletionStream ai prompt) (fun chunk => yield chunk) ;;
    yield SUMMARY_SOURCE
  else
    emit (ConsoleLog "Using RAG strategy") ;;
    questionEmbedding <- getEmbedding ai question ;;
    top <- rank questionEmbedding (chunks docData) ;;
    let context := join (nl ++ nl ++ "---" ++ nl ++ nl) (map (fun c => text (chunkOf c)) top) in
    let prompt := ragPrompt context question in
    for_await (getCompletionStream ai prompt) (fun chunk => yield chunk) ;;
    let pages := uniquePages top in
    if (0 <? List.length pages)%nat then yield (sourcesFragment pages) else ret tt.

End Answering.

(* ------------------------------------------------------------------ *)
(** ** The chat turn ([handleSendMessage] of the App component)

    The component's state is a record; a handler reads the state of the
    render it was created in, and its updates are applied to the state as
    it is when they are made. Only the state the handler reads or writes is
    modelled. A turn waits for the events of [generateAnswer]; while it
    waits, the other handlers of the page may run and change the state. *)

Module App.

Inductive Role : Type := user | assistant.

Record Message := mkMessage { role : Role; content : string }.

Record ChatSession := mkChatSession {
  id : string;
  name : string;
  sessionDoc : ProcessedDocument;
  sessionMessages : list Message
}.

Record State := mkState {
  processedDoc : option ProcessedDocument;
  messages : list Message;
  isGenerating : bool;
  chats : list ChatSession;
  activeChatId : option string
}.

Definition setMessages (f : list Message -> list Message) (st : State) : State :=
  mkState (processedDoc st) (f (messages st)) (isGenerating st) (chats st) (activeChatId st).

Definition setIsGenerating (b : bool) (st : State) : State :=
  mkState (processedDoc st) (messages st) b (chats st) (activeChatId st).

Definition setChats (f : list ChatSession -> list ChatSession) (st : State) : State :=
  mkState (processedDoc st) (messages st) (isGenerating st) (f (chats st)) (activeChatId st).

(** [activeChat] is the [activeChatId] of the handler's render. *)
Definition updateCurrentChatMessages (activeChat : option string)
    (newMessages : list Message) (st : State) : State :=
  match activeChat with
  | None => st
  | Some cid =>
      setChats (map (fun chat =>
        if String.eqb (id chat) cid
        then mkChatSession (id chat) (name chat) (sessionDoc chat) newMessages
        else chat)) st
  end.

(** White space of [String.prototype.trim], among the code units modelled. *)
Definition is_white (c : ascii) : bool :=
  let n := nat_of_ascii c in
  ((9 <=? n) && (n <=? 13) || (n =? 32) || (n =? 160))%nat.

(** [!message.trim()]. *)
Fixpoint is_blank (s : string) : bool :=
  match s with
  | EmptyString => true
  | String c rest => is_white c && is_blank rest
  end.

(** The updater of the streaming loop: the last message, when it is the
    assistant's, gets the text accumulated so far. On an empty transcript
    [lastMsg] is [undefined] and reading its [role] throws: [None]. *)
Definition showResponse (fullResponse : string) (prev : list Message)
    : option (list Message) :=
  match rev prev with
  | [] => None
  | lastMsg :: before =>
      Some match role lastMsg with
           | assistant => (rev before ++ [mkMessage assistant fullResponse])%list
           | user => prev
           end
  end.

(** What is on the page: the component with its state, or nothing once an
    updater has thrown while React applied it (the tree is unmounted, and
    later updates have no effect). *)
Inductive Screen : Type :=
| Mounted (st : State)
| Unmounted.

(** What the other handlers of the page did to the state while the turn
    waited for its [k]-th event ([k] counts from 0; the last one is the end
    of the stream). *)
Definition Others : Type := nat -> State -> State.

(** No other handler runs during the turn. *)
Definition quiet : Others := fun _ st => st.

(** [createNewChat], on the state modelled here: the document, the
    transcript and the active chat are cleared. *)
Definition createNewChat (st : State) : State :=
  mkState None [] (isGenerating st) (chats st) None.

(** The [for await (const chunk of stream)] loop over the events of the
    stream's run, from the [k]-th on: a fragment is appended to
    [fullResponse] and shown by the updater, on the state as the other
    handlers left it. *)
Fixpoint consume (others : Others) (k : nat) (t : list event) (fullResponse : string)
    (st : State) : string * Screen :=
  match t with
  | [] => (fullResponse, Mounted (others k st))
  | ev :: rest =>
      let st := others k st in
      match ev with
      | Yield fragment =>
          let fullResponse' := fullResponse ++ fragment in
          match showResponse fullResponse' (messages st) with
          | Some updated =>
              consume others (S k) rest fullResponse' (setMessages (fun _ => updated) st)
          | None => (fold_left append (yields rest) fullResponse', Unmounted)
          end
      | _ => consume others (S k) rest fullResponse st
      end
  end.

Definition not_yield (ev : event) : bool :=
  match ev with Yield _ => false | _ => true end.

Definition CONNECT_ERROR : string :=
  "Error connecting to Gemini. Please check your network or API key.".

(** The updates a handler makes after the loop, on what is still mounted. *)
Definition update (f : State -> State) (screen : Screen) : Screen :=
  match screen with
  | Mounted st => Mounted (f st)
  | Unmounted => Unmounted
  end.

Section Handler.
Variable ai : GoogleGenAI.

Definition handleSendMessage (others : Others) (message : string) (st : State)
    : M Screen :=
  match processedDoc st with
  | None => ret (Mounted st)
  | Some doc =>
      if is_blank message || isGenerating st then ret (Mounted st)
      else
        let userMsg := mkMessage user message in
        let messagesWithUser := (messages st ++ [userMsg])%list in
        let activeChat := activeChatId st in
        let st := setMessages (fun _ => messagesWithUser) st in
        let st := updateCurrentChatMessages activeChat messagesWithUser st in
        let st := setIsGenerating true st in
        let st := setMessages (fun prev => prev ++ [mkMessage assistant ""])%list st in
        fun n =>
          let '(t, n1, c) := generateAnswer ai message doc n in
          let '(fullResponse, screen) := consume others 0 t "" st in
          let log := filter not_yield t in
          match c with
          | Return _ =>
              let finalMessages :=
                (messagesWithUser ++ [mkMessage assistant fullResponse])%list in
              let screen := update (updateCurrentChatMessages activeChat finalMessages)
                              screen in
              (log, n1, Return (update (setIsGenerating false) screen))
          | Throw _ =>
              let messagesWithError :=
                (messagesWithUser ++ [mkMessage assistant CONNECT_ERROR])%list in
              let screen := update (setMessages (fun _ => messagesWithError)) screen in
              let screen := update (updateCurrentChatMessages activeChat messagesWithError)
                              screen in
              ((log ++ [ConsoleError "error"])%list, n1,
               Return (update (setIsGenerating false) screen))
          | OutOfFuel => (log, n1, OutOfFuel)
          end
  end.

End Handler.

End App.

(* ------------------------------------------------------------------ *)
(** ** Reading a run *)

Definition trace_of {A} (r : list event * nat * completion A) : list event := fst (fst r).
Definition completion_of {A} (r : list event * nat * completion A) : completion A := snd r.

(** The fragments of a stream put together, as the consumer accumulates them. *)
Definition concat_all (l : list string) : string := fold_right append "" l.

(** The texts [getCompletionStream] yields from the stream's chunks: the
    non-empty ones. *)
Fixpoint fragmentsOf (texts : list (option string)) : list string :=
  match texts with
  | [] => []
  | Some (String c rest) :: more => String c rest :: fragmentsOf more
  | _ :: more => fragmentsOf more
  end.

Definition streamFailure : list event :=
  [ConsoleError "Stream generation error details:"; Yield ERROR_FRAGMENT].

(** The events of [getCompletionStream(prompt)]. *)
Definition streamTrace (ai : GoogleGenAI) (prompt : string) : list event :=
  GenerateRequest prompt ::
  match generateContentStream ai prompt with
  | StreamRejected => streamFailure
  | StreamOpened texts StreamDone => map Yield (fragmentsOf texts)
  | StreamOpened texts StreamFailed => (map Yield (fragmentsOf texts) ++ streamFailure)%list
  end.

(** The context and the citation [generateAnswer] builds from the top chunks. *)
Definition contextOf (top : list ScoredChunk) : string :=
  join (nl ++ nl ++ "---" ++ nl ++ nl) (map (fun c => text (chunkOf c)) top).

Definition citationOf (top : list ScoredChunk) : list event :=
  if (0 <? List.length (uniquePages top))%nat
  then [Yield (sourcesFragment (uniquePages top))] else [].

(** No upper-case letter occurs in [s]. *)
Definition lowercase (s : string) : Prop :=
  forall c, In c (list_ascii_of_string s) -> is_upper c = false.

(* ------------------------------------------------------------------ *)
(** ** The order of binary64 numbers

    The comparisons of the kernel's floats are specified on their
    [spec_float] form, where a number that is not NaN has a key: its sign
    class, then its exponent and mantissa, signed. *)

Definition floatKey (f : spec_float) : Z * Z * Z :=
  match f with
  | S754_zero _ => (0, 0, 0)
  | S754_nan => (0, 0, 0)
  | S754_infinity s => (if s then -2 else 2, 0, 0)
  | S754_finite s m e => if s then (-1, - e, Z.neg m) else (1, e, Z.pos m)
  end.

Definition keyLt (a b : Z * Z * Z) : Prop :=
  let '(a1, a2, a3) := a in
  let '(b1, b2, b3) := b in
  a1 < b1 \/ (a1 = b1 /\ (a2 < b2 \/ (a2 = b2 /\ a3 < b3))).

Definition is_nanSF (f : spec_float) : bool :=
  match f with S754_nan => true | _ => false end.

(* ------------------------------------------------------------------ *)
(** ** Sample data for the examples *)

Definition embeddedChunk (pg : Z) (values : list float) : DocChunk :=
  {| id := Z_to_string pg ++ "-0";
     text := "text of page " ++ Z_to_string pg;
     embedding := Some values;
     pageNumber := pg |}.

Definition sampleQuery : list float := [1%float; 0%float].

(** Four chunks: the first and the last score 1, the second 0, the third
    about 0.7. *)
Definition sampleChunks : list DocChunk :=
  [ embeddedChunk 1 [1%float; 0%float];
    embeddedChunk 2 [0%float; 1%float];
    embeddedChunk 3 [1%float; 1%float];
    embeddedChunk 4 [2%float; 0%float] ].

(** A chunk whose embedding is the zero vector scores NaN. *)
Definition nanChunks : list DocChunk :=
  [ embeddedChunk 1 [0%float; 0%float];
    embeddedChunk 2 [1%float; 0%float] ].

Definition answerStream : stream_outcome :=
  StreamOpened [Some "The clause "; None; Some ""; Some "is on page 3."] StreamDone.

Definition failingStream : stream_outcome :=
  StreamOpened [Some "Partial answer "] StreamFailed.

(** A client whose embedding requests numbered in [failing] are rejected,
    and whose generation stream is [stream] whatever the prompt. *)
Definition sampleAi (failing : list nat) (stream : stream_outcome) : GoogleGenAI :=
  {| embedContent := fun k _ =>
       if existsb (Nat.eqb k) failing then EmbedRejected
       else EmbedResponse (Some [Some sampleQuery]);
     generateContentStream := fun _ => stream |}.

(** A client whose every embedding request is rejected. *)
Definition deadEmbeddingAi : GoogleGenAI :=
  {| embedContent := fun _ _ => EmbedRejected;
     generateContentStream := fun _ => answerStream |}.

(** A readable file of seven short pages: seven chunks. *)
Definition sevenPages : list (list string) :=
  [ ["one"]; ["two"]; ["three"]; ["four"]; ["five"]; ["six"]; ["seven"; "last"] ].

Definition tldrQuestion : string := "Can you give a tl;dr?".
Definition clauseQuestion : string := "What is the termination clause?".

Definition shortDocument : ProcessedDocument :=
  {| chunks := []; fullText := "A short contract." |}.

(** Ten embedded chunks on pages 1,1,2,3,3,4,4,5,5,6; against [sampleQuery]
    the second chunk of page 1 and the chunk of page 2 score lowest. *)
Definition tenChunks : list DocChunk :=
  [ embeddedChunk 1 [1%float; 0%float];
    embeddedChunk 1 [0%float; 1%float];
    embeddedChunk 2 [0%float; 1%float];
    embeddedChunk 3 [1%float; 0%float];
    embeddedChunk 3 [1%float; 0%float];
    embeddedChunk 4 [1%float; 0%float];
    embeddedChunk 4 [1%float; 0%float];
    embeddedChunk 5 [1%float; 0%float];
    embeddedChunk 5 [1%float; 0%float];
    embeddedChunk 6 [1%float; 0%float] ].

Definition tenChunkDocument : ProcessedDocument :=
  {| chunks := tenChunks; fullText := "Ten chunks." |}.

(** A session ready for a question about [tenChunkDocument]. *)
Definition readyState : App.State :=
  {| App.processedDoc := Some tenChunkDocument;
     App.messages := [App.mkMessage App.assistant "What would you like to know?"];
     App.isGenerating := false;
     App.chats := [];
     App.activeChatId := None |}.

(** [text.slice(n)]. *)
Definition slice_from (s : string) (start : Z) : string := slice s start (js_length s).

(** The page text put together again from its chunks: the first chunk, then
    every later chunk without its first [overlap] characters. *)
Definition reassemble (overlap : Z) (l : list DocChunk) : string :=
  match l with
  | [] => ""
  | first :: rest =>
      text first ++ concat_all (map (fun c => slice_from (text c) overlap) rest)
  end.
(** The (page number, start offset) pairs of the windows of the pages. *)
Definition windowKeys (chunkSize overlap : Z) (pages : list Page.t) : list (Z * Z) :=
  flat_map (fun p =>
    map (fun start => (Page.page p, start))
        (offsets chunkSize overlap
           (windowCount chunkSize overlap (js_length (Page.text p))) 0)) pages.

(** [`${page}-${start}`]. *)
Definition idOf (key : Z * Z) : string :=
  Z_to_string (fst key) ++ "-" ++ Z_to_string (snd key).

Definition dash : ascii := "-"%char.

(** ** Reading the run of [processPdf] *)

(** The page numbers [1 .. n] of the extractor's loop. *)
Definition pageNumbers (n : nat) : list Z := map Z.of_nat (seq 1 n).

(** The status the extractor reports before it parses page [i]. *)
Definition parseStatus (numPages i : Z) : string :=
  "Parsing page " ++ Z_to_string i ++ " of " ++ Z_to_string numPages ++ "...".

Definition is_progress (ev : event) : bool :=
  match ev with Progress _ => true | _ => false end.

Definition is_warning (ev : event) : bool :=
  match ev with ConsoleWarn _ => true | _ => false end.

(** The events of embedding one chunk as request [k]: the request, and the
    two log lines when [getEmbedding] throws. *)
Definition chunkEvents (ai : GoogleGenAI) (k : nat) (c : DocChunk) : list event :=
  EmbedRequest (cleanText (text c)) ::
  if embedThrows ai k (text c)
  then [ConsoleError "Embedding error:"; ConsoleWarn ("Failed to embed chunk " ++ id c)]
  else [].

Fixpoint batchEvents (ai : GoogleGenAI) (k : nat) (l : list DocChunk) : list event :=
  match l with
  | [] => []
  | c :: rest => (chunkEvents ai k c ++ batchEvents ai (S k) rest)%list
  end.

(** The embedding requests for the chunks, in their order. *)
Definition embedRequests (l : list DocChunk) : list event :=
  map (fun c => EmbedRequest (cleanText (text c))) l.

(** The chunks the default chunker cuts from the pages of a readable file. *)
Definition documentChunks (pageItems : list (list string)) : list DocChunk :=
  flat_map (pageChunks DEFAULT_CHUNK_SIZE DEFAULT_OVERLAP) (pagesOf pageItems).

Definition is_generate_request (ev : event) : bool :=
  match ev with GenerateRequest _ => true | _ => false end.

(** The response to [txt] as the [k]-th request holds a first embedding
    without values: [getEmbedding] returns [undefined]. *)
Definition embedUndefined (ai : GoogleGenAI) (k : nat) (txt : string) : bool :=
  match embedContent ai k (cleanText txt) with
  | EmbedResponse (Some (None :: _)) => true
  | _ => false
  end.

(** A client that rejects request 1 and answers request 4 with an embedding
    that carries no values. *)
Definition patchyAi : GoogleGenAI :=
  {| embedContent := fun k _ =>
       if Nat.eqb k 1 then EmbedRejected
       else if Nat.eqb k 4 then EmbedResponse (Some [None])
       else EmbedResponse (Some [Some sampleQuery]);
     generateContentStream := fun _ => answerStream |}.

(* ------------------------------------------------------------------ *)
(** ** getCompletion *)

(** What [generateContent] answers: it rejects, or responds with a [text]
    that may be absent. *)
Inductive generate_outcome : Type :=
| GenerateRejected
| GenerateResponse (text : option string).

Definition FALLBACK_ANSWER : string := "Sorry, I couldn't generate a response.".
Definition GENERATION_ERROR : string := "Error generating response from Gemini.".

Section Completion.
Variable generateContent : string -> generate_outcome.

(** [response.text || "Sorry, ..."]: an absent or empty text is falsy. *)
Definition getCompletion (prompt : string) : M string :=
  try_catch
    (emit (GenerateRequest prompt) ;;
     match generateContent prompt with
     | GenerateRejected => throw Rejection
     | GenerateResponse (Some (String c rest)) => ret (String c rest)
     | GenerateResponse _ => ret FALLBACK_ANSWER
     end)
    (fun _ => emit (ConsoleError "Generation error:") ;; ret GENERATION_ERROR).

End Completion.

Definition line_feed : ascii := "010"%char.

(* ------------------------------------------------------------------ *)
(** ** Reading a chat turn *)

(** The chat as [updateCurrentChatMessages] leaves it when [cid] is the
    active chat. *)
Definition storeMessages (cid : string) (msgs : list App.Message)
    (chat : App.ChatSession) : App.ChatSession :=
  if String.eqb (App.id chat) cid
  then App.mkChatSession (App.id chat) (App.name chat) (App.sessionDoc chat) msgs
  else chat.

(** A session with two chats in the history, the first one active. *)
Definition activeState : App.State :=
  {| App.processedDoc := Some tenChunkDocument;
     App.messages := [App.mkMessage App.assistant "What would you like to know?"];
     App.isGenerating := false;
     App.chats :=
       [ App.mkChatSession "1700000000000" "contract.pdf" tenChunkDocument
           [App.mkMessage App.assistant "What would you like to know?"];
         App.mkChatSession "1600000000000" "notes.pdf" shortDocument [] ];
     App.activeChatId := Some "1700000000000" |}.

(* ------------------------------------------------------------------ *)
(** ** The other handlers of the App component

    [createNewChat], [loadChat], [handleFileSelect] and [handleDeleteChat]
    read and write the whole state of the component, the uploaded file and
    the processing status included. A handler runs to its end on the state
    it is given: the handlers are composed one after another. *)

Module Workspace.

(** The [File] the browser hands over: its name, and what PDF.js makes of
    its bytes. *)
Module File.
Record t := mk { name : string; pdf : PdfFile }.
End File.

Module ChatSession.
Record t := mk {
  id : string;
  name : string;
  date : Z;
  file : File.t;
  processedDoc : ProcessedDocument;
  messages : list App.Message
}.
End ChatSession.

Record State := mkState {
  file : option File.t;
  isProcessing : bool;
  processedDoc : option ProcessedDocument;
  messages : list App.Message;
  processingStatus : string;
  isGenerating : bool;
  chats : list ChatSession.t;
  activeChatId : option string
}.


Definition setFile (f : option File.t) (st : State) : State :=
  mkState f (isProcessing st) (processedDoc st) (messages st) (processingStatus st)
    (isGenerating st) (chats st) (activeChatId st).

Definition setIsProcessing (b : bool) (st : State) : State :=
  mkState (file st) b (processedDoc st) (messages st) (processingStatus st)
    (isGenerating st) (chats st) (activeChatId st).

Definition setProcessedDoc (d : option ProcessedDocument) (st : State) : State :=
  mkState (file st) (isProcessing st) d (messages st) (processingStatus st)
    (isGenerating st) (chats st) (activeChatId st).

Definition setMessages (m : list App.Message) (st : State) : State :=
  mkState (file st) (isProcessing st) (processedDoc st) m (processingStatus st)
    (isGenerating st) (chats st) (activeChatId st).

Definition setProcessingStatus (s : string) (st : State) : State :=
  mkState (file st) (isProcessing st) (processedDoc st) (messages st) s
    (isGenerating st) (chats st) (activeChatId st).

Definition setChats (f : list ChatSession.t -> list ChatSession.t) (st : State) : State :=
  mkState (file st) (isProcessing st) (processedDoc st) (messages st) (processingStatus st)
    (isGenerating st) (f (chats st)) (activeChatId st).

Definition setActiveChatId (a : option string) (st : State) : State :=
  mkState (file st) (isProcessing st) (processedDoc st) (messages st) (processingStatus st)
    (isGenerating st) (chats st) a.

Definition createNewChat (st : State) : State :=
  let st := setFile None st in
  let st := setProcessedDoc None st in
  let st := setMessages [] st in
  let st := setActiveChatId None st in
  setProcessingStatus "" st.

Definition loadChat (chat : ChatSession.t) (st : State) : State :=
  if isGenerating st then st
  else
    let st := setActiveChatId (Some (ChatSession.id chat)) st in
    let st := setFile (Some (ChatSession.file chat)) st in
    let st := setProcessedDoc (Some (ChatSession.processedDoc chat)) st in
    let st := setMessages (ChatSession.messages chat) st in
    setProcessingStatus "Ready" st.

(** [`I've analyzed **${selectedFile.name}**. What would you like to know?`]. *)
Definition greeting (selectedFile : File.t) : string :=
  "I've analyzed **" ++ File.name selectedFile ++ "**. What would you like to know?".

Definition UPLOAD_ERROR : string := "Unable to process the file. Please try again.".

(** [name.substring(0, 20) + (name.length > 20 ? '...' : '')]. *)
Definition chatName (fileName : string) : string :=
  substring 0 20 fileName ++ (if js_length fileName >? 20 then "..." else "").

(** [now] is what [Date.now()] returns and [today] what [new Date()] holds
    when the chat entry is created; the statuses [processPdf] reports are
    its [Progress] events, which the final status replaces. *)
Definition handleFileSelect (ai : GoogleGenAI) (fuel : nat) (now today : Z)
    (selectedFile : File.t) (st : State) : M State :=
  let st := setFile (Some selectedFile) st in
  let st := setIsProcessing true st in
  let st := setProcessingStatus "Reading PDF..." st in
  let st := setMessages [] st in
  fun n =>
    let '(t, n1, c) := processPdf ai fuel (File.pdf selectedFile) n in
    match c with
    | Return docData =>
        let st := setProcessedDoc (Some docData) st in
        let st := setProcessingStatus "Ready" st in
        let initialMessage := App.mkMessage App.assistant (greeting selectedFile) in
        let st := setMessages [initialMessage] st in
        let newChatId := Z_to_string now in
        let newChat :=
          ChatSession.mk newChatId (chatName (File.name selectedFile)) today
            selectedFile docData [initialMessage] in
        let st := setChats (fun prev => newChat :: prev) st in
        let st := setActiveChatId (Some newChatId) st in
        (t, n1, Return (setIsProcessing false st))
    | Throw _ =>
        let st := setProcessingStatus "Error" st in
        let st := setMessages [App.mkMessage App.assistant UPLOAD_ERROR] st in
        let st := setFile None st in
        ((t ++ [ConsoleError "error"])%list, n1, Return (setIsProcessing false st))
    | OutOfFuel => (t, n1, OutOfFuel)
    end.

(** [activeChatId === chatId] is read from the handler's render. *)
Definition handleDeleteChat (chatId : string) (st : State) : State :=
  let st' := setChats (filter (fun c => negb (String.eqb (ChatSession.id c) chatId))) st in
  match activeChatId st with
  | Some active => if String.eqb active chatId then createNewChat st' else st'
  | None => st'
  end.

(** What the user can do on the rendered page. *)
Inductive Action : Type :=
| NewChat
| LoadChat (chat : ChatSession.t)
| DeleteChat (chatId : string)
| FileSelect (now today : Z) (selectedFile : File.t).

Definition step (ai : GoogleGenAI) (fuel : nat) (a : Action) (st : State) : M State :=
  match a with
  | NewChat => ret (createNewChat st)
  | LoadChat chat => ret (loadChat chat st)
  | DeleteChat chatId => ret (handleDeleteChat chatId st)
  | FileSelect now today selectedFile => handleFileSelect ai fuel now today selectedFile st
  end.




End Workspace.



(* ------------------------------------------------------------------ *)
(** ** The ChatInterface component *)

Module ChatInterface.

(** [lastMessage?.role === 'assistant' && lastMessage?.content.length > 0],
    where [lastMessage] is [messages[messages.length - 1]]. *)
Definition isStreamingResponse (messages : list App.Message) : bool :=
  match rev messages with
  | [] => false
  | lastMessage :: _ =>
      match App.role lastMessage with
      | App.assistant => 0 <? js_length (App.content lastMessage)
      | App.user => false
      end
  end.

Definition showLoadingDots (messages : list App.Message) (isLoading : bool) : bool :=
  isLoading && negb (isStreamingResponse messages).

(** A message is rendered unless [!msg.content.trim()]. *)
Definition rendered (msg : App.Message) : bool := negb (App.is_blank (App.content msg)).

(** [handleSubmit]: the message handed to [onSendMessage], if any, and the
    content of the input field afterwards. *)
Definition handleSubmit (input : string) (isLoading : bool) : option string * string :=
  if App.is_blank input || isLoading then (None, input) else (Some input, "").

End ChatInterface.

(** [readyState] once a turn has appended the empty placeholder. *)
Definition waitingState : App.State :=
  App.setMessages (fun prev => prev ++ [App.mkMessage App.assistant ""])%list readyState.

(* ================================================================== *)
(** * Properties *)

(** ** Strings *)

Lemma substring_all (s : string) : substring 0 (String.length s) s = s.
Proof. induction s as [|c s IH]; simpl; [reflexivity | now rewrite IH]. Qed.

Lemma slice_whole (s : string) (e : Z) :
  js_length s <= e -> slice s 0 (Z.min e (js_length s)) = s.
Proof.
  intros He. unfold slice. cbv zeta.
  assert (Hlen : 0 <= js_length s) by (unfold js_length; lia).
  rewrite (Z.min_r e) by lia.
  change (0 <? 0) with false. cbv iota.
  destruct (js_length s <? 0) eqn:E; [apply Z.ltb_lt in E; lia|].
  rewrite Z.min_id, (Z.min_l 0) by lia.
  rewrite Z.sub_0_r, Z.max_l by lia.
  unfold js_length. rewrite Nat2Z.id. apply substring_all.
Qed.

(** ** The chunker *)

Section ChunkerFacts.
Variables chunkSize overlap : Z.
Local Abbreviation step := (chunkSize - overlap).

Lemma chunkLoop_windows (n : nat) :
  forall fuel txt page start acc,
    0 < step ->
    start < js_length txt ->
    js_length txt <= start + Z.of_nat (S n) * step ->
    start + Z.of_nat n * step < js_length txt ->
    (S n <= fuel)%nat ->
    chunkLoop chunkSize overlap fuel txt page start acc
    = Some (acc ++ map (window chunkSize txt page) (offsets chunkSize overlap (S n) start))%list.
Proof.
  induction n as [|n IH]; intros fuel txt page start acc Hstep Hlt Hup Hlow Hfuel;
    (destruct fuel as [|fuel]; [lia|]); cbn [chunkLoop offsets map].
  - apply Z.ltb_lt in Hlt. rewrite Hlt.
    assert (H : (start + step >=? js_length txt) = true) by (apply Z.geb_le; lia).
    now rewrite H.
  - pose proof Hlt as Hlt'. apply Z.ltb_lt in Hlt'. rewrite Hlt'.
    assert (H : (start + step >=? js_length txt) = false).
    { rewrite Z.geb_leb. apply Z.leb_gt. nia. }
    rewrite H. rewrite (IH fuel txt page (start + step)); try lia; try nia.
    cbn [offsets map]. now rewrite <- app_assoc.
Qed.

Lemma windowCount_spec (len : Z) :
  0 < step -> 0 < len ->
  exists n, windowCount chunkSize overlap len = S n
            /\ len <= Z.of_nat (S n) * step /\ Z.of_nat n * step < len.
Proof.
  intros Hs Hl. unfold windowCount.
  set (q := (len + step - 1) / step).
  assert (Hq : 1 <= q).
  { apply Z.div_le_lower_bound; lia. }
  assert (Hdiv : q * step <= len + step - 1 < (q + 1) * step).
  { pose proof (Z.div_mod (len + step - 1) step ltac:(lia)) as E.
    pose proof (Z.mod_pos_bound (len + step - 1) step Hs) as B.
    fold q in E. nia. }
  exists (Z.to_nat (q - 1)). split; [| split].
  - rewrite <- Z2Nat.inj_succ by lia. f_equal. lia.
  - rewrite Nat2Z.inj_succ, Z2Nat.id by lia. nia.
  - rewrite Z2Nat.id by lia. nia.
Qed.

Lemma chunkLoop_page (fuel : nat) (p : Page.t) (acc : list DocChunk) :
  0 < step ->
  (windowCount chunkSize overlap (js_length (Page.text p)) <= fuel)%nat ->
  (1 <= fuel)%nat ->
  chunkLoop chunkSize overlap fuel (Page.text p) (Page.page p) 0 acc
  = Some (acc ++ pageChunks chunkSize overlap p)%list.
Proof.
  intros Hs Hfuel H1. unfold pageChunks.
  destruct (Z.eq_dec (js_length (Page.text p)) 0) as [E|E].
  - rewrite E. destruct fuel as [|fuel]; [lia|]. cbn [chunkLoop]. rewrite E.
    simpl (0 <? 0). unfold windowCount.
    replace ((0 + step - 1) / step) with 0
      by (symmetry; apply Z.div_small; lia).
    simpl. now rewrite app_nil_r.
  - assert (Hl : 0 < js_length (Page.text p)) by (unfold js_length in *; lia).
    destruct (windowCount_spec _ Hs Hl) as (n & En & Hup & Hlow).
    rewrite En in *. apply chunkLoop_windows; lia.
Qed.

Lemma windowCount_le_length (txt : string) :
  0 < step -> (windowCount chunkSize overlap (js_length txt) <= String.length txt)%nat.
Proof.
  intros Hs. unfold windowCount, js_length.
  set (len := Z.of_nat (String.length txt)).
  assert (Hlen : 0 <= len) by (unfold len; lia).
  assert (Hq : (len + step - 1) / step <= len).
  { destruct (Z.eq_dec len 0) as [E|E].
    - rewrite E, Z.div_small; lia.
    - apply Z.div_le_upper_bound; [lia|].
      assert (0 <= (len - 1) * (step - 1)) by (apply Z.mul_nonneg_nonneg; lia).
      lia. }
  assert (Hq0 : 0 <= (len + step - 1) / step) by (apply Z.div_pos; lia).
  unfold len in *. lia.
Qed.

Lemma forEachPage_concat (fuel : nat) (pages : list Page.t) :
  0 < step ->
  (chunkFuel pages <= fuel)%nat ->
  forall acc,
    forEachPage chunkSize overlap fuel pages acc
    = Some (acc ++ flat_map (pageChunks chunkSize overlap) pages)%list.
Proof.
  intros Hs. induction pages as [|p rest IH]; intros Hfuel acc; cbn [forEachPage flat_map].
  - now rewrite app_nil_r.
  - unfold chunkFuel in *. cbn [fold_right] in Hfuel.
    rewrite chunkLoop_page; try lia.
    + rewrite IH by lia. now rewrite <- app_assoc.
    + pose proof (windowCount_le_length (Page.text p) Hs). lia.
Qed.

Lemma chunkLoop_spins (fuel : nat) :
  forall txt page start acc,
    step <= 0 -> start < js_length txt ->
    chunkLoop chunkSize overlap fuel txt page start acc = None.
Proof.
  induction fuel as [|fuel IH]; intros txt page start acc Hs Hlt; cbn [chunkLoop].
  - reflexivity.
  - pose proof Hlt as Hlt'. apply Z.ltb_lt in Hlt'. rewrite Hlt'.
    assert (H : (start + step >=? js_length txt) = false).
    { rewrite Z.geb_leb. apply Z.leb_gt. lia. }
    rewrite H. apply IH; lia.
Qed.

End ChunkerFacts.

Lemma offsets_closed_form (chunkSize overlap : Z) (n : nat) (start : Z) :
  offsets chunkSize overlap n start
  = map (fun k => start + Z.of_nat k * (chunkSize - overlap)) (seq 0 n).
Proof.
  revert start. induction n as [|n IH]; intros start; [reflexivity|].
  cbn [offsets seq map]. f_equal; [lia|].
  rewrite IH, <- seq_shift, map_map. apply map_ext. intros k. lia.
Qed.

Lemma windowCount_stop (chunkSize overlap len : Z) :
  0 < chunkSize - overlap -> 0 <= len ->
  len <= Z.of_nat (windowCount chunkSize overlap len) * (chunkSize - overlap)
  /\ forall k, (k < windowCount chunkSize overlap len)%nat ->
               Z.of_nat k * (chunkSize - overlap) < len.
Proof.
  intros Hs Hl. destruct (Z.eq_dec len 0) as [E|E].
  - subst len. unfold windowCount.
    rewrite Z.div_small by lia. simpl. split; [lia | intros k Hk; lia].
  - destruct (windowCount_spec chunkSize overlap len Hs ltac:(lia)) as (n & En & Hup & Hlow).
    rewrite En. split; [exact Hup|]. intros k Hk.
    assert (Z.of_nat k * (chunkSize - overlap) <= Z.of_nat n * (chunkSize - overlap))
      by (apply Z.mul_le_mono_nonneg_r; lia).
    lia.
Qed.

(** ** Claims about the chunker *)

(** C1, as stated, fails: with the default parameters a page of exactly
    [chunkSize] = 4000 characters yields two chunks. The window at offset 0
    already ends at the page length, and a second window at offset 3500 is
    emitted all the same. *)
Lemma C1_page_of_chunkSize_yields_two_chunks :
  option_map (map shape)
    (chunkText DEFAULT_CHUNK_SIZE DEFAULT_OVERLAP 4001 [page_of_length 4000 1])
  = Some [("1-0", 4000); ("1-3500", 500)].
Proof. vm_compute. reflexivity. Qed.

(** C1, amended: the loop of a page stops as soon as the next start offset
    (the previous one plus [chunkSize - overlap]) reaches the page text
    length. With a positive step the chunks are, page after page, the windows
    [k * step, min (k * step + chunkSize) len)] for every [k] with
    [k * step < len], and no others; so a page whose length is exactly
    [chunkSize] yields at least two chunks when [0 < overlap]. *)
Theorem C1_chunker_stops_on_next_start
    (chunkSize overlap : Z) (pages : list Page.t) (fuel : nat)
    (Hstep : 0 < chunkSize - overlap) (Hfuel : (chunkFuel pages <= fuel)%nat) :
  chunkText chunkSize overlap fuel pages
  = Some (flat_map (pageChunks chunkSize overlap) pages)
  /\ forall p, In p pages ->
       let len := js_length (Page.text p) in
       let n := windowCount chunkSize overlap len in
       pageChunks chunkSize overlap p
       = map (fun k => window chunkSize (Page.text p) (Page.page p)
                         (Z.of_nat k * (chunkSize - overlap))) (seq 0 n)
       /\ (forall k, (k < n)%nat -> Z.of_nat k * (chunkSize - overlap) < len)
       /\ len <= Z.of_nat n * (chunkSize - overlap)
       /\ (0 < overlap -> len = chunkSize -> (2 <= n)%nat).
Proof.
  split.
  - unfold chunkText. now rewrite forEachPage_concat.
  - intros p _ len n.
    assert (Hlen : 0 <= len) by (unfold len, js_length; lia).
    destruct (windowCount_stop chunkSize overlap len Hstep Hlen) as [Hup Hlow].
    fold n in Hup, Hlow. repeat split; auto.
    + unfold pageChunks. fold len n. rewrite offsets_closed_form, map_map.
      apply map_ext. intros k. f_equal.
    + intros Ho Hc. destruct n as [|[|n]]; [lia | lia | lia].
Qed.

Lemma C1_chunker_stops_on_next_start_witness :
  chunkText 4000 500 4501 [page_of_length 4500 1; page_of_length 100 2]
  = Some (flat_map (pageChunks 4000 500) [page_of_length 4500 1; page_of_length 100 2]).
Proof.
  refine (proj1 (C1_chunker_stops_on_next_start 4000 500
            [page_of_length 4500 1; page_of_length 100 2] 4501 _ _)).
  - lia.
  - vm_compute. lia.
Defined.

(** C2, as stated, fails in both directions: a page of 3600 characters
    (shorter than [chunkSize] = 4000) yields two chunks, and an empty page
    yields none. *)
Lemma C2_short_page_not_one_chunk :
  option_map (map shape)
    (chunkText DEFAULT_CHUNK_SIZE DEFAULT_OVERLAP 3601 [page_of_length 3600 1])
  = Some [("1-0", 3600); ("1-3500", 100)]
  /\ chunkText DEFAULT_CHUNK_SIZE DEFAULT_OVERLAP 1 [page_of_length 0 1] = Some [].
Proof. split; vm_compute; reflexivity. Qed.

(** C2, amended: a non-empty page whose text length is at most
    [chunkSize - overlap] (3500 with the defaults) yields exactly one chunk,
    and that chunk's text is the page's entire text. *)
Theorem C2_short_page_single_chunk
    (chunkSize overlap : Z) (p : Page.t) (fuel : nat)
    (Hov : 0 <= overlap)
    (Hpos : 0 < js_length (Page.text p))
    (Hlen : js_length (Page.text p) <= chunkSize - overlap)
    (Hfuel : (1 <= fuel)%nat) :
  exists c, chunkText chunkSize overlap fuel [p] = Some [c]
            /\ text c = Page.text p /\ pageNumber c = Page.page p.
Proof.
  exists (window chunkSize (Page.text p) (Page.page p) 0).
  destruct fuel as [|fuel]; [lia|].
  unfold chunkText. cbn [forEachPage chunkLoop].
  apply Z.ltb_lt in Hpos. rewrite Hpos.
  assert (H : (0 + (chunkSize - overlap) >=? js_length (Page.text p)) = true)
    by (apply Z.geb_le; lia).
  rewrite H. cbn [app]. repeat split.
  cbn [window text]. rewrite Z.add_0_l. apply slice_whole. lia.
Qed.

Lemma C2_short_page_single_chunk_witness :
  exists c, chunkText 4000 500 1 [page_of_length 100 2] = Some [c]
            /\ text c = Page.text (page_of_length 100 2)
            /\ pageNumber c = Page.page (page_of_length 100 2).
Proof.
  apply (C2_short_page_single_chunk 4000 500 (page_of_length 100 2) 1).
  - lia.
  - vm_compute. reflexivity.
  - vm_compute. discriminate.
  - lia.
Defined.

(** C3, as stated, fails: [chunkText] has no configuration check and no
    error exit. With [chunkSize - overlap <= 0] and a non-empty page the loop
    is still running after any number of iterations. *)
Lemma C3_nonpositive_step_never_returns :
  4000 - 4000 <= 0
  /\ forall fuel, chunkText 4000 4000 fuel [Page.mk "a" 1] = None.
Proof.
  split; [lia|]. intros fuel. unfold chunkText. cbn [forEachPage].
  rewrite chunkLoop_spins; [reflexivity | lia | vm_compute; reflexivity].
Qed.

(** C3, amended: for every configuration with [0 < chunkSize - overlap],
    which includes [0 < overlap < chunkSize], the chunker terminates on every
    input: one more iteration than the longest page has characters is enough
    for each page's loop. No configuration is rejected. *)
Theorem C3_chunker_terminates
    (chunkSize overlap : Z) (pages : list Page.t)
    (Hstep : 0 < chunkSize - overlap) :
  exists result, forall fuel, (chunkFuel pages <= fuel)%nat ->
    chunkText chunkSize overlap fuel pages = Some result.
Proof.
  exists (flat_map (pageChunks chunkSize overlap) pages). intros fuel Hfuel.
  unfold chunkText. now rewrite forEachPage_concat.
Qed.

Lemma C3_chunker_terminates_witness :
  exists result, forall fuel,
    (chunkFuel [page_of_length 4500 1; page_of_length 100 2] <= fuel)%nat ->
    chunkText 4000 500 fuel [page_of_length 4500 1; page_of_length 100 2] = Some result.
Proof.
  apply (C3_chunker_terminates 4000 500 [page_of_length 4500 1; page_of_length 100 2]).
  lia.
Defined.

(** ** The embedding phase *)

Section ProcessingFacts.
Variable ai : GoogleGenAI.

Lemma assign_undefined (c : DocChunk) :
  embedding c = None -> assign_embedding c None = c.
Proof. destruct c as [i t e p]. cbn. now intros ->. Qed.

Lemma Forall_firstn_skipn {A} (P : A -> Prop) (n : nat) (l : list A) :
  Forall P l -> Forall P (firstn n l) /\ Forall P (skipn n l).
Proof.
  intros H. rewrite <- (firstn_skipn n l) in H. now apply Forall_app in H.
Qed.

Lemma embedChunk_run (c : DocChunk) (k : nat) :
  embedding c = None ->
  exists evs,
    embedChunk ai c k
    = (evs, S k,
       Return match embedResult ai k (text c) with
              | Some values => with_embedding c values
              | None => c
              end).
Proof.
  intros Hc.
  unfold embedChunk, getEmbedding, embedResult, try_catch, bind, requestEmbedding.
  destruct (embedContent ai k (cleanText (text c))) as [|[[|[values|] more]|]];
    cbn; rewrite ?(assign_undefined c Hc); eexists; reflexivity.
Qed.

Lemma mapM_embedChunk_run (l : list DocChunk) :
  Forall (fun c => embedding c = None) l ->
  forall k, exists evs,
    mapM (embedChunk ai) l k = (evs, (k + List.length l)%nat, Return (embedded ai k l)).
Proof.
  induction 1 as [|c rest Hc _ IH]; intros k; cbn [mapM embedded List.length].
  - exists []. unfold ret. now rewrite Nat.add_0_r.
  - destruct (embedChunk_run c k Hc) as [e1 E1]. destruct (IH (S k)) as [e2 E2].
    unfold bind. rewrite E1, E2. cbn. eexists. repeat f_equal. lia.
Qed.

Lemma embedded_app (l1 l2 : list DocChunk) :
  forall k, embedded ai k (l1 ++ l2)
            = (embedded ai k l1 ++ embedded ai (k + List.length l1) l2)%list.
Proof.
  induction l1 as [|c rest IH]; intros k; cbn [embedded app List.length].
  - now rewrite Nat.add_0_r.
  - rewrite IH. now rewrite Nat.add_succ_r.
Qed.

Lemma embedded_length (l : list DocChunk) :
  forall k, List.length (embedded ai k l) = List.length l.
Proof. induction l as [|c rest IH]; intros k; cbn; [reflexivity | now rewrite IH]. Qed.

Lemma embedLoop_run (trips : nat) :
  forall i done todo k,
    (List.length done <= i)%nat ->
    todo = [] \/ List.length done = i ->
    (List.length todo <= batchSize * trips)%nat ->
    Forall (fun c => embedding c = None) todo ->
    exists evs,
      embedLoop ai trips i (done ++ todo) k
      = (evs, (k + List.length todo)%nat, Return (done ++ embedded ai k todo)%list).
Proof.
  induction trips as [|trips IH]; intros i done todo k Hle Hinv Hlen Hun.
  - assert (todo = []) by (destruct todo; [reflexivity | cbn in Hlen; lia]).
    subst todo. cbn [embedLoop]. rewrite app_nil_r.
    assert (E : (i <? List.length done)%nat = false) by (apply Nat.ltb_ge; lia).
    rewrite E. exists []. unfold ret. cbn. now rewrite Nat.add_0_r, app_nil_r.
  - destruct todo as [|c todo'].
    + cbn [embedLoop]. rewrite app_nil_r.
      assert (E : (i <? List.length done)%nat = false) by (apply Nat.ltb_ge; lia).
      rewrite E. exists []. unfold ret. cbn. now rewrite Nat.add_0_r, app_nil_r.
    + destruct Hinv as [Hinv|Hinv]; [discriminate|]. subst i.
      set (todo := c :: todo') in *.
      cbn [embedLoop].
      assert (E : (List.length done <? List.length (done ++ todo))%nat = true).
      { apply Nat.ltb_lt. rewrite length_app. unfold todo. cbn. lia. }
      rewrite E.
      assert (Hbatch : list_slice (done ++ todo) (List.length done)
                         (List.length done + batchSize) = firstn batchSize todo).
      { unfold list_slice. rewrite skipn_app, skipn_all, Nat.sub_diag. cbn [skipn app].
        f_equal. lia. }
      rewrite Hbatch.
      assert (Hfst : firstn (List.length done) (done ++ todo) = done).
      { rewrite firstn_app, firstn_all, Nat.sub_diag. cbn. apply app_nil_r. }
      assert (Hskp : skipn (List.length done + batchSize) (done ++ todo)
                     = skipn batchSize todo).
      { rewrite skipn_app, skipn_all2 by lia. cbn [app]. f_equal. lia. }
      rewrite Hfst, Hskp.
      destruct (Forall_firstn_skipn _ batchSize todo Hun) as [Hun1 Hun2].
      destruct (mapM_embedChunk_run (firstn batchSize todo) Hun1 k) as [e1 E1].
      set (batch' := embedded ai k (firstn batchSize todo)) in *.
      destruct (IH (List.length done + batchSize)%nat (done ++ batch')%list
                  (skipn batchSize todo) (k + List.length (firstn batchSize todo))%nat)
        as [e2 E2].
      * rewrite length_app. unfold batch'. rewrite embedded_length, length_firstn. lia.
      * destruct (Nat.le_gt_cases batchSize (List.length todo)) as [Hge|Hlt].
        -- right. rewrite length_app. unfold batch'.
           rewrite embedded_length, length_firstn. lia.
        -- left. apply skipn_all2. lia.
      * rewrite length_skipn. lia.
      * exact Hun2.
      * unfold bind, onProgress, emit. rewrite E1.
        rewrite app_assoc. rewrite E2. eexists. f_equal; [f_equal|].
        -- rewrite length_skipn, length_firstn. lia.
        -- f_equal. rewrite <- app_assoc. f_equal.
           rewrite <- (firstn_skipn batchSize todo) at 3.
           rewrite embedded_app. reflexivity.
Qed.

Lemma filter_embedded_length (l : list DocChunk) :
  Forall (fun c => embedding c = None) l ->
  forall k, (List.length (filter has_embedding (embedded ai k l)) + failures ai k l
             = List.length l)%nat.
Proof.
  induction 1 as [|c rest Hc _ IH]; intros k; cbn [embedded failures filter List.length].
  - reflexivity.
  - specialize (IH (S k)).
    destruct (embedResult ai k (text c)); unfold has_embedding at 1;
      cbn [with_embedding embedding]; [|rewrite Hc]; cbn [List.length]; lia.
Qed.

End ProcessingFacts.

Lemma pageChunks_unembedded (chunkSize overlap : Z) (pages : list Page.t) :
  Forall (fun c => embedding c = None) (flat_map (pageChunks chunkSize overlap) pages).
Proof.
  apply Forall_forall. intros c Hc. apply in_flat_map in Hc.
  destruct Hc as (p & _ & Hc). unfold pageChunks in Hc. apply in_map_iff in Hc.
  destruct Hc as (s & <- & _). reflexivity.
Qed.

(** ** Array.prototype.sort *)

Section ArraySortFacts.
Context {A : Type} (after : A -> A -> bool).

Local Abbreviation notAfter := (fun x y => after x y = false).

Lemma sort_insert_perm (x : A) (l : list A) :
  Permutation (sort_insert after x l) (x :: l).
Proof.
  induction l as [|y rest IH]; cbn [sort_insert]; [reflexivity|].
  destruct (after x y); [|reflexivity].
  rewrite IH. apply perm_swap.
Qed.

Lemma Array_sort_perm (l : list A) : Permutation (Array_sort after l) l.
Proof.
  induction l as [|x rest IH]; cbn [Array_sort]; [reflexivity|].
  rewrite sort_insert_perm. now constructor.
Qed.

Lemma Array_sort_length (l : list A) :
  List.length (Array_sort after l) = List.length l.
Proof. apply Permutation_length, Array_sort_perm. Qed.

Lemma consistent_on_perm (l l' : list A) :
  Permutation l l' -> consistent_on after l -> consistent_on after l'.
Proof.
  intros P [Hasym Htrans]. apply Permutation_sym in P.
  split; intros; eauto using Permutation_in.
Qed.

Lemma consistent_on_tail (x : A) (l : list A) :
  consistent_on after (x :: l) -> consistent_on after l.
Proof. intros [Hasym Htrans]. split; intros; eauto using in_cons. Qed.

Lemma sort_insert_sorted (x : A) (l : list A) :
  consistent_on after (x :: l) ->
  StronglySorted notAfter l -> StronglySorted notAfter (sort_insert after x l).
Proof.
  intros Hc Hs. induction Hs as [|y rest Hs IH Hy]; cbn [sort_insert].
  - repeat constructor.
  - destruct Hc as [Hasym Htrans]. destruct (after x y) eqn:E.
    + constructor.
      * apply IH. split; intros.
        -- apply Hasym; cbn in *; tauto.
        -- apply Htrans with y0; cbn in *; tauto.
      * apply Forall_forall. intros z Hz.
        apply (Permutation_in _ (sort_insert_perm x rest)) in Hz.
        destruct Hz as [<-|Hz].
        -- apply Hasym; cbn; auto.
        -- rewrite Forall_forall in Hy. now apply Hy.
    + constructor; [now constructor|].
      constructor; [exact E|]. apply Forall_forall. intros z Hz.
      rewrite Forall_forall in Hy.
      apply Htrans with y; cbn; auto.
Qed.

Lemma Array_sort_sorted (l : list A) :
  consistent_on after l -> StronglySorted notAfter (Array_sort after l).
Proof.
  induction l as [|x rest IH]; intros Hc; cbn [Array_sort]; [constructor|].
  apply sort_insert_sorted.
  - apply consistent_on_perm with (x :: rest); [|exact Hc].
    constructor. apply Permutation_sym, Array_sort_perm.
  - apply IH. now apply consistent_on_tail with x.
Qed.

Lemma sort_insert_stable (a x : A) (l : list A) :
  consistent_on after (a :: x :: l) ->
  filter (ties after a) (sort_insert after x l) = filter (ties after a) (x :: l).
Proof.
  intros Hc. induction l as [|y rest IH]; cbn [sort_insert]; [reflexivity|].
  destruct (after x y) eqn:E; [|reflexivity].
  cbn [filter]. rewrite IH.
  - cbn [filter]. destruct (ties after a x) eqn:Tx, (ties after a y) eqn:Ty; try reflexivity.
    exfalso. unfold ties in Tx, Ty.
    apply andb_prop in Tx, Ty. destruct Tx as [_ Tx], Ty as [Ty _].
    apply negb_true_iff in Tx, Ty.
    destruct Hc as [_ Htrans].
    rewrite (Htrans x a y) in E; cbn; auto 6. discriminate.
  - destruct Hc as [Hasym Htrans]. split; intros.
    + apply Hasym; cbn in *; tauto.
    + apply Htrans with y0; cbn in *; tauto.
Qed.

Lemma Array_sort_stable (a : A) (l : list A) :
  consistent_on after (a :: l) ->
  filter (ties after a) (Array_sort after l) = filter (ties after a) l.
Proof.
  induction l as [|x rest IH]; intros Hc; cbn [Array_sort]; [reflexivity|].
  rewrite sort_insert_stable.
  - cbn [filter]. rewrite IH; [reflexivity|].
    destruct Hc as [Hasym Htrans]. split; intros.
    + apply Hasym; cbn in *; tauto.
    + apply Htrans with y; cbn in *; tauto.
  - apply consistent_on_perm with (a :: x :: rest); [|exact Hc].
    do 2 constructor. apply Permutation_sym, Array_sort_perm.
Qed.

Lemma filter_firstn_prefix (p : A -> bool) (n : nat) (l : list A) :
  prefix_of (filter p (firstn n l)) (filter p l).
Proof.
  exists (filter p (skipn n l)).
  now rewrite <- filter_app, firstn_skipn.
Qed.

Lemma StronglySorted_firstn (R : A -> A -> Prop) (n : nat) (l : list A) :
  StronglySorted R l -> StronglySorted R (firstn n l).
Proof.
  intros Hs. revert n. induction Hs as [|x rest Hs IH Hx]; intros [|n]; cbn [firstn];
    try constructor; auto.
  rewrite Forall_forall in *. intros z Hz. apply Hx.
  rewrite <- (firstn_skipn n rest). apply in_or_app. now left.
Qed.

End ArraySortFacts.

(** ** The order of binary64 numbers *)

Lemma SFcompare_key (x y : spec_float) :
  is_nanSF x = false -> is_nanSF y = false ->
  exists c, SFcompare x y = Some c
            /\ (c = Lt <-> keyLt (floatKey x) (floatKey y))
            /\ (c = Gt <-> keyLt (floatKey y) (floatKey x))
            /\ (c = Eq <-> floatKey x = floatKey y).
Proof.
  intros Hx Hy.
  destruct x as [sx|sx| |sx mx ex], y as [sy|sy| |sy my ey]; try discriminate;
    cbn [SFcompare floatKey];
    try (destruct sx); try (destruct sy);
    try (eexists; split; [reflexivity|]; cbn;
         repeat split; intros; try discriminate; try lia; try congruence;
         match goal with H : (_, _, _) = (_, _, _) |- _ => inversion H; lia end; fail).
  all: change (Pos.compare_cont Eq mx my) with (Pos.compare mx my);
       eexists; (split; [reflexivity|]);
       destruct (Z.compare_spec ex ey) as [E|E|E];
       try (destruct (Pos.compare_spec mx my) as [F|F|F]); cbn;
       repeat split; intros; try discriminate; try lia; try congruence;
       try (match goal with H : (_, _, _) = (_, _, _) |- _ => inversion H; lia end).
Qed.

Lemma keyLt_cases (a b : Z * Z * Z) : keyLt a b \/ a = b \/ keyLt b a.
Proof.
  destruct a as [[a1 a2] a3], b as [[b1 b2] b3]. unfold keyLt.
  destruct (Z.lt_total a1 b1) as [|[]]; [lia| |lia].
  destruct (Z.lt_total a2 b2) as [|[]]; [lia| |lia].
  destruct (Z.lt_total a3 b3) as [|[]]; [lia| |lia].
  right; left. congruence.
Qed.

Lemma SFltb_key (x y : spec_float) :
  is_nanSF x = false -> is_nanSF y = false ->
  SFltb x y = true <-> keyLt (floatKey x) (floatKey y).
Proof.
  intros Hx Hy. destruct (SFcompare_key x y Hx Hy) as (c & E & HLt & _).
  unfold SFltb. rewrite E. rewrite <- HLt. destruct c; split; congruence.
Qed.

Lemma SFleb_key (x y : spec_float) :
  is_nanSF x = false -> is_nanSF y = false ->
  SFleb x y = true <-> ~ keyLt (floatKey y) (floatKey x).
Proof.
  intros Hx Hy. destruct (SFcompare_key x y Hx Hy) as (c & E & HLt & HGt & HEq).
  unfold SFleb. rewrite E. rewrite <- HGt. destruct c; split; congruence.
Qed.

Lemma SFeqb_key (x y : spec_float) :
  is_nanSF x = false -> is_nanSF y = false ->
  SFeqb x y = true <-> floatKey x = floatKey y.
Proof.
  intros Hx Hy. destruct (SFcompare_key x y Hx Hy) as (c & E & HLt & HGt & HEq).
  unfold SFeqb. rewrite E. rewrite <- HEq. destruct c; split; congruence.
Qed.

Lemma keyLt_trans (a b c : Z * Z * Z) : keyLt a b -> keyLt b c -> keyLt a c.
Proof.
  destruct a as [[a1 a2] a3], b as [[b1 b2] b3], c as [[c1 c2] c3]. unfold keyLt. lia.
Qed.

Lemma keyLt_irrefl (a : Z * Z * Z) : ~ keyLt a a.
Proof. destruct a as [[a1 a2] a3]. unfold keyLt. lia. Qed.

(** Mantissas and their number of digits. *)
Lemma digits2_bounds (m : positive) :
  2 ^ (Z.pos (digits2_pos m) - 1) <= Z.pos m < 2 ^ Z.pos (digits2_pos m).
Proof.
  induction m as [m IH|m IH|]; cbn [digits2_pos].
  - rewrite Pos2Z.inj_succ. replace (Z.succ (Z.pos (digits2_pos m)) - 1)
      with (Z.succ (Z.pos (digits2_pos m) - 1)) by lia.
    rewrite !Z.pow_succ_r by lia. lia.
  - rewrite Pos2Z.inj_succ. replace (Z.succ (Z.pos (digits2_pos m)) - 1)
      with (Z.succ (Z.pos (digits2_pos m) - 1)) by lia.
    rewrite !Z.pow_succ_r by lia. lia.
  - cbn. lia.
Qed.

Abbreviation emin64 := (SpecFloat.emin prec emax).

Lemma canonical_digits (m : positive) (e : Z) :
  canonical_mantissa prec emax m e = true ->
  emin64 <= e /\ Z.pos (digits2_pos m) <= prec
  /\ (emin64 < e -> Z.pos (digits2_pos m) = prec).
Proof.
  unfold canonical_mantissa, fexp. intros H. apply Z.eqb_eq in H.
  unfold prec, emax, SpecFloat.emin in *. lia.
Qed.

Lemma iter_xO (d m : positive) : Z.pos (Pos.iter xO m d) = Z.pos m * 2 ^ Z.pos d.
Proof.
  induction d as [|d IH] using Pos.peano_ind.
  - cbn. lia.
  - rewrite Pos.iter_succ, Pos2Z.inj_xO, IH, Pos2Z.inj_succ, Z.pow_succ_r by lia. lia.
Qed.

Lemma shl_align_value (m : positive) (e ez : Z) :
  ez <= e -> Z.pos (fst (shl_align m e ez)) = Z.pos m * 2 ^ (e - ez).
Proof.
  intros H. unfold shl_align. destruct (ez - e) as [|d|d] eqn:E.
  - replace (e - ez) with 0 by lia. cbn [fst]. lia.
  - lia.
  - cbn [fst]. rewrite iter_xO. f_equal. f_equal. lia.
Qed.

(** The canonical representation orders as the values do. *)
Lemma canonical_lt (mx my : positive) (ex ey : Z) :
  canonical_mantissa prec emax mx ex = true ->
  canonical_mantissa prec emax my ey = true ->
  ex < ey -> Z.pos mx < Z.pos my * 2 ^ (ey - ex).
Proof.
  intros Hx Hy Hlt.
  destruct (canonical_digits mx ex Hx) as (Hex & Hdx & _).
  destruct (canonical_digits my ey Hy) as (_ & _ & Hdy).
  specialize (Hdy ltac:(lia)).
  pose proof (digits2_bounds mx) as Bx. pose proof (digits2_bounds my) as By.
  rewrite Hdy in By.
  assert (2 ^ Z.pos (digits2_pos mx) <= 2 ^ prec) by (apply Z.pow_le_mono_r; lia).
  assert (2 ^ prec = 2 * 2 ^ (prec - 1)) by (unfold prec; reflexivity).
  assert (2 ^ 1 <= 2 ^ (ey - ex)) by (apply Z.pow_le_mono_r; lia).
  change (2 ^ 1) with 2 in *. nia.
Qed.

(** Rounding a positive mantissa. *)
Lemma shr_1_m (mrs : shr_record) :
  0 <= shr_m mrs -> shr_m (shr_1 mrs) = shr_m mrs / 2.
Proof.
  destruct mrs as [m r s]. cbn [shr_m shr_1]. intros H.
  destruct m as [|[p|p|]|p]; cbn [shr_m]; try lia; try reflexivity.
  - apply Z.div_unique with 1; lia.
  - apply Z.div_unique with 0; lia.
Qed.

Lemma iter_shr_1_m (p : positive) :
  forall mrs, 0 <= shr_m mrs ->
    shr_m (iter_pos shr_1 p mrs) = shr_m mrs / 2 ^ Z.pos p.
Proof.
  assert (Hpos : forall q mrs, 0 <= shr_m mrs ->
            shr_m (iter_pos shr_1 q mrs) = shr_m mrs / 2 ^ Z.pos q
            /\ 0 <= shr_m (iter_pos shr_1 q mrs)).
  { induction q as [q IH|q IH|]; intros mrs H; cbn [iter_pos].
    - assert (H1 : 0 <= shr_m (shr_1 mrs))
        by (rewrite shr_1_m by exact H; apply Z.div_pos; lia).
      destruct (IH (shr_1 mrs) H1) as [E1 P1].
      destruct (IH _ P1) as [E2 P2]. split; [|exact P2].
      rewrite E2, E1, shr_1_m by exact H.
      rewrite !Z.div_div by lia. f_equal.
      change (Z.pos q~1) with (2 * Z.pos q + 1).
      rewrite Z.pow_add_r, Z.pow_twice_r by lia.
      change (2 ^ 1) with 2. ring.
    - destruct (IH mrs H) as [E1 P1]. destruct (IH _ P1) as [E2 P2].
      split; [|exact P2]. rewrite E2, E1, Z.div_div by lia. f_equal.
      change (Z.pos q~0) with (2 * Z.pos q). now rewrite Z.pow_twice_r.
    - split; [apply shr_1_m; exact H|].
      rewrite shr_1_m by exact H. apply Z.div_pos; lia. }
  intros mrs H. apply Hpos. exact H.
Qed.

Lemma shr_fexp_positive (m : positive) (e : Z) (l : location) :
  emin64 <= e ->
  0 < shr_m (fst (shr_fexp prec emax (Z.pos m) e l))
  /\ emin64 <= snd (shr_fexp prec emax (Z.pos m) e l).
Proof.
  intros He. unfold shr_fexp, shr. cbn [Zdigits2].
  assert (Hm : shr_m (shr_record_of_loc (Z.pos m) l) = Z.pos m)
    by (destruct l as [|[]]; reflexivity).
  destruct (fexp prec emax (Z.pos (digits2_pos m) + e) - e) as [|p|p] eqn:E;
    cbn [fst snd]; rewrite ?Hm; try lia.
  rewrite iter_shr_1_m by (rewrite Hm; lia). rewrite Hm. split; [|lia].
  assert (Hp : Z.pos p <= Z.pos (digits2_pos m) - 1).
  { unfold fexp, prec, emax, SpecFloat.emin in *. lia. }
  pose proof (digits2_bounds m) as B.
  assert (2 ^ Z.pos p <= 2 ^ (Z.pos (digits2_pos m) - 1))
    by (apply Z.pow_le_mono_r; lia).
  apply Z.div_str_pos. lia.
Qed.

Lemma binary_round_aux_sign (s : bool) (m : positive) (e : Z) (l : location) :
  emin64 <= e ->
  (exists m' e', binary_round_aux prec emax s (Z.pos m) e l = S754_finite s m' e')
  \/ binary_round_aux prec emax s (Z.pos m) e l = S754_infinity s.
Proof.
  intros He. unfold binary_round_aux.
  destruct (shr_fexp_positive m e l He) as [P1 E1].
  destruct (shr_fexp prec emax (Z.pos m) e l) as [mrs' e']. cbn [fst snd] in *.
  assert (P2 : 0 < round_nearest_even (shr_m mrs') (loc_of_shr_record mrs')).
  { unfold round_nearest_even.
    destruct (loc_of_shr_record mrs') as [|[]]; try lia.
    destruct (Z.even (shr_m mrs')); lia. }
  destruct (round_nearest_even (shr_m mrs') (loc_of_shr_record mrs')) as [|m2|m2];
    try lia.
  destruct (shr_fexp_positive m2 e' loc_Exact E1) as [P3 _].
  destruct (shr_fexp prec emax (Z.pos m2) e' loc_Exact) as [mrs'' e''].
  cbn [fst snd] in *.
  destruct (shr_m mrs'') as [|m3|m3]; try lia.
  destruct (e'' <=? emax - prec); [left; eauto | now right].
Qed.

Lemma binary_round_sign (s : bool) (m : positive) (e : Z) :
  emin64 <= e ->
  (exists m' e', binary_round prec emax s m e = S754_finite s m' e')
  \/ binary_round prec emax s m e = S754_infinity s.
Proof.
  intros He. unfold binary_round.
  destruct (shl_align m e (fexp prec emax (Z.pos (digits2_pos m) + e))) as [mz ez] eqn:E.
  apply binary_round_aux_sign.
  unfold shl_align in E.
  destruct (fexp prec emax (Z.pos (digits2_pos m) + e) - e) eqn:D;
    injection E as _ <-; try lia.
  unfold fexp. lia.
Qed.

Lemma canonical_value_order (mx my : positive) (ex ey : Z) :
  canonical_mantissa prec emax mx ex = true ->
  canonical_mantissa prec emax my ey = true ->
  (ex < ey \/ (ex = ey /\ Z.pos mx < Z.pos my))
  <-> Z.pos mx * 2 ^ (ex - Z.min ex ey) < Z.pos my * 2 ^ (ey - Z.min ex ey).
Proof.
  intros Hx Hy. destruct (Z.lt_total ex ey) as [H|[H|H]].
  - rewrite Z.min_l, Z.sub_diag by lia. cbn [Z.pow]. rewrite Z.mul_1_r.
    pose proof (canonical_lt mx my ex ey Hx Hy H). tauto.
  - subst ey. rewrite Z.min_id, Z.sub_diag. cbn [Z.pow]. lia.
  - rewrite Z.min_r, Z.sub_diag by lia. cbn [Z.pow]. rewrite Z.mul_1_r.
    pose proof (canonical_lt my mx ey ex Hy Hx H). lia.
Qed.

Lemma binary_normalize_sign (d e : Z) :
  emin64 <= e ->
  SFltb (S754_zero false) (binary_normalize prec emax d e false) = (0 <? d).
Proof.
  intros He. destruct d as [|p|p]; cbn [binary_normalize].
  - reflexivity.
  - destruct (binary_round_sign false p e He) as [(m' & e' & ->)| ->]; reflexivity.
  - destruct (binary_round_sign true p e He) as [(m' & e' & ->)| ->]; reflexivity.
Qed.

Lemma SFsub_positive (x y : spec_float) :
  valid_binary x = true -> valid_binary y = true ->
  is_nanSF x = false -> is_nanSF y = false ->
  SFltb (S754_zero false) (SF64sub y x) = SFltb x y.
Proof.
  intros Vx Vy Nx Ny.
  destruct x as [sx|sx| |sx mx ex], y as [sy|sy| |sy my ey]; try discriminate;
    try (destruct sx, sy; reflexivity); try (destruct sx; reflexivity);
    try (destruct sy; reflexivity).
  cbn [SpecFloat.valid_binary] in Vx, Vy. unfold bounded in Vx, Vy.
  apply andb_prop in Vx, Vy. destruct Vx as [Cx _], Vy as [Cy _].
  destruct (canonical_digits mx ex Cx) as (Hex & _).
  destruct (canonical_digits my ey Cy) as (Hey & _).
  unfold SF64sub. cbn [SFsub].
  rewrite binary_normalize_sign by lia.
  rewrite !shl_align_value by lia.
  pose proof (canonical_value_order mx my ex ey Cx Cy) as Hxy.
  pose proof (canonical_value_order my mx ey ex Cy Cx) as Hyx.
  rewrite (Z.min_comm ey ex) in *.
  assert (Px : 0 < Z.pos mx * 2 ^ (ex - Z.min ex ey))
    by (apply Z.mul_pos_pos; [lia | apply Z.pow_pos_nonneg; lia]).
  assert (Py : 0 < Z.pos my * 2 ^ (ey - Z.min ex ey))
    by (apply Z.mul_pos_pos; [lia | apply Z.pow_pos_nonneg; lia]).
  set (MX := Z.pos mx * 2 ^ (ex - Z.min ex ey)) in *.
  set (MY := Z.pos my * 2 ^ (ey - Z.min ex ey)) in *.
  apply eq_true_iff_eq.
  rewrite (SFltb_key (S754_finite sx mx ex) (S754_finite sy my ey)) by reflexivity.
  rewrite Z.ltb_lt.
  destruct sx, sy; cbn [cond_Zopp floatKey keyLt]; lia.
Qed.

(** The same on the primitive floats. *)
Lemma not_nan_spec (a : float) :
  PrimFloat.is_nan a = false -> is_nanSF (Prim2SF a) = false.
Proof.
  unfold PrimFloat.is_nan. rewrite eqb_spec. intros H.
  destruct (Prim2SF a); try reflexivity. discriminate.
Qed.

Lemma sub_positive (a b : float) :
  PrimFloat.is_nan a = false -> PrimFloat.is_nan b = false ->
  (0 <? b - a)%float = (a <? b)%float.
Proof.
  intros Ha Hb. rewrite !ltb_spec, sub_spec.
  change (Prim2SF 0) with (S754_zero false).
  apply SFsub_positive; auto using Prim2SF_valid, not_nan_spec.
Qed.

Section FloatOrder.
Variables a b c : float.
Hypothesis Ha : PrimFloat.is_nan a = false.
Hypothesis Hb : PrimFloat.is_nan b = false.
Hypothesis Hc : PrimFloat.is_nan c = false.

Lemma ltb_asym : (a <? b)%float = true -> (b <? a)%float = false.
Proof.
  rewrite !ltb_spec. intros H.
  apply SFltb_key in H; auto using not_nan_spec.
  apply not_true_is_false. intros H'.
  apply SFltb_key in H'; auto using not_nan_spec.
  exact (keyLt_irrefl _ (keyLt_trans _ _ _ H H')).
Qed.

Lemma ltb_negtrans :
  (a <? b)%float = false -> (b <? c)%float = false -> (a <? c)%float = false.
Proof.
  rewrite !ltb_spec. intros H1 H2. apply not_true_is_false. intros H3.
  apply SFltb_key in H3; auto using not_nan_spec.
  assert (N1 : ~ keyLt (floatKey (Prim2SF a)) (floatKey (Prim2SF b))).
  { intros K. apply SFltb_key in K; auto using not_nan_spec. congruence. }
  assert (N2 : ~ keyLt (floatKey (Prim2SF b)) (floatKey (Prim2SF c))).
  { intros K. apply SFltb_key in K; auto using not_nan_spec. congruence. }
  destruct (keyLt_cases (floatKey (Prim2SF a)) (floatKey (Prim2SF b))) as [K|[K|K]];
    [contradiction| |].
  - rewrite K in H3. contradiction.
  - destruct (keyLt_cases (floatKey (Prim2SF b)) (floatKey (Prim2SF c))) as [L|[L|L]];
      [contradiction| |].
    + rewrite <- L in H3. exact (keyLt_irrefl _ (keyLt_trans _ _ _ H3 K)).
    + exact (keyLt_irrefl _ (keyLt_trans _ _ _ H3 (keyLt_trans _ _ _ L K))).
Qed.

Lemma not_ltb_leb : (a <? b)%float = false -> (b <=? a)%float = true.
Proof.
  rewrite ltb_spec, leb_spec. intros H.
  apply SFleb_key; auto using not_nan_spec.
  intros K. apply SFltb_key in K; auto using not_nan_spec. congruence.
Qed.

Lemma tie_eqb :
  negb (a <? b)%float && negb (b <? a)%float = (a =? b)%float.
Proof.
  rewrite !ltb_spec, eqb_spec. apply eq_true_iff_eq.
  rewrite andb_true_iff, !negb_true_iff.
  rewrite SFeqb_key by auto using not_nan_spec.
  split.
  - intros [H1 H2].
    destruct (keyLt_cases (floatKey (Prim2SF a)) (floatKey (Prim2SF b))) as [K|[K|K]];
      [|exact K|]; apply SFltb_key in K; auto using not_nan_spec; congruence.
  - intros E. split; apply not_true_is_false; intros K;
      apply SFltb_key in K; auto using not_nan_spec;
      rewrite E in K; exact (keyLt_irrefl _ K).
Qed.

End FloatOrder.

(** ** The ranking *)

Lemma mapM_scoreChunk_run (q : list float) (l : list DocChunk) (n : nat) :
  Forall (fun c => has_embedding c = true) l ->
  mapM (scoreChunk (Some q)) l n = ([], n, Return (map (scoreOf q) l)).
Proof.
  induction 1 as [|c rest Hc _ IH]; cbn [mapM map]; [reflexivity|].
  unfold bind. unfold has_embedding in Hc. unfold scoreChunk at 1, scoreOf at 1.
  destruct (embedding c) as [values|]; [|discriminate].
  unfold ret at 1. rewrite IH. reflexivity.
Qed.

Lemma rank_run (q : list float) (l : list DocChunk) (n : nat) :
  Forall (fun c => has_embedding c = true) l ->
  rank (Some q) l n = ([], n, Return (topChunks (map (scoreOf q) l))).
Proof. intros H. unfold rank, bind. now rewrite mapM_scoreChunk_run. Qed.

(** C5, as stated, fails: a chunk whose embedding is the zero vector scores
    NaN, the comparator's difference with it is NaN, which [sort] reads as a
    tie, and the chunk stays ranked before a chunk of score 1. The scores
    of the result are not non-increasing. *)
Lemma C5_nan_score_breaks_order :
  exists top,
    rank (Some sampleQuery) nanChunks 0%nat = ([], 0%nat, Return top)
    /\ map (fun s => pageNumber (chunkOf s)) top = [1; 2]
    /\ map (fun s => PrimFloat.is_nan (score s)) top = [true; false]
    /\ nonincreasing (map score top) = false.
Proof.
  eexists. split; [vm_compute; reflexivity|].
  repeat split; vm_compute; reflexivity.
Qed.

Lemma byScoreDescending_ltb (x y : ScoredChunk) :
  PrimFloat.is_nan (score x) = false -> PrimFloat.is_nan (score y) = false ->
  byScoreDescending x y = (score x <? score y)%float.
Proof. intros Hx Hy. unfold byScoreDescending. now apply sub_positive. Qed.

Lemma scores_consistent (l : list ScoredChunk) :
  Forall (fun s => PrimFloat.is_nan (score s) = false) l ->
  consistent_on byScoreDescending l.
Proof.
  rewrite Forall_forall. intros Hl. split.
  - intros x y Hx Hy. rewrite !byScoreDescending_ltb by auto.
    apply ltb_asym; auto.
  - intros x y z Hx Hy Hz. rewrite !byScoreDescending_ltb by auto.
    apply ltb_negtrans; auto.
Qed.

Lemma sorted_nonincreasing (l : list ScoredChunk) :
  Forall (fun s => PrimFloat.is_nan (score s) = false) l ->
  StronglySorted (fun x y => byScoreDescending x y = false) l ->
  nonincreasing (map score l) = true.
Proof.
  intros Hl Hs. induction Hs as [|x rest Hs IH Hx]; [reflexivity|].
  inversion Hl as [|? ? Nx Nrest]; subst.
  destruct rest as [|y rest']; [reflexivity|].
  change (nonincreasing (map score (x :: y :: rest')))
    with ((score y <=? score x)%float && nonincreasing (map score (y :: rest'))).
  rewrite (IH Nrest), andb_true_r.
  inversion Hx as [|? ? Hxy _]; subst. inversion Nrest as [|? ? Ny _]; subst.
  rewrite byScoreDescending_ltb in Hxy by assumption.
  now apply not_ltb_leb.
Qed.

(** C5, amended: for every query vector and every sequence of [n] embedded
    chunks, ranking returns exactly [min 8 n] scored chunks, all of them
    scored input chunks. When no score is NaN, they are ordered
    non-increasing by score, and the chunks whose score equals that of a
    given chunk appear in their insertion order, the first ones first. *)
Theorem C5_ranking_top8 (q : list float) (l : list DocChunk) (n : nat)
    (Hemb : Forall (fun c => has_embedding c = true) l) :
  let scored := map (scoreOf q) l in
  rank (Some q) l n = ([], n, Return (topChunks scored))
  /\ List.length (topChunks scored) = Nat.min 8 (List.length l)
  /\ incl (topChunks scored) scored
  /\ (Forall (fun s => PrimFloat.is_nan (score s) = false) scored ->
      nonincreasing (map score (topChunks scored)) = true
      /\ forall x, In x scored ->
           prefix_of (filter (fun s => (score x =? score s)%float) (topChunks scored))
                     (filter (fun s => (score x =? score s)%float) scored)).
Proof.
  intros scored.
  assert (Hincl : incl (topChunks scored) scored).
  { intros s Hs. unfold topChunks in Hs.
    apply (Permutation_in _ (Array_sort_perm byScoreDescending scored)).
    rewrite <- (firstn_skipn TOP_K (Array_sort _ _)). apply in_or_app. now left. }
  split; [|split; [|split; [exact Hincl|]]].
  - now apply rank_run.
  - unfold topChunks, TOP_K. rewrite length_firstn, Array_sort_length.
    unfold scored. now rewrite length_map.
  - intros Hnan. pose proof (scores_consistent scored Hnan) as Hc.
    rewrite Forall_forall in Hnan. split.
    + apply sorted_nonincreasing.
      * apply Forall_forall. intros s Hs. apply Hnan, Hincl, Hs.
      * apply StronglySorted_firstn, (Array_sort_sorted byScoreDescending), Hc.
    + intros x Hx.
      assert (Htie : forall s, In s scored ->
                (score x =? score s)%float = ties byScoreDescending x s).
      { intros s Hs. unfold ties. rewrite !byScoreDescending_ltb by auto.
        symmetry. apply tie_eqb; auto. }
      rewrite (filter_ext_in _ _ (topChunks scored) (fun s Hs => Htie s (Hincl s Hs))).
      rewrite (filter_ext_in _ _ scored Htie).
      unfold topChunks.
      rewrite <- (Array_sort_stable byScoreDescending x scored).
      * apply filter_firstn_prefix.
      * destruct Hc as [Hasym Htrans]. split; intros.
        -- apply Hasym; cbn in *; intuition (subst; auto).
        -- apply Htrans with y; cbn in *; intuition (subst; auto).
Qed.

Lemma C5_ranking_top8_witness :
  rank (Some sampleQuery) sampleChunks 0%nat
  = ([], 0%nat, Return (topChunks (map (scoreOf sampleQuery) sampleChunks)))
  /\ nonincreasing (map score (topChunks (map (scoreOf sampleQuery) sampleChunks))) = true
  /\ map (fun s => pageNumber (chunkOf s))
         (topChunks (map (scoreOf sampleQuery) sampleChunks)) = [1; 4; 3; 2].
Proof.
  assert (Hemb : Forall (fun c => has_embedding c = true) sampleChunks)
    by repeat constructor.
  assert (Hnan : Forall (fun s => PrimFloat.is_nan (score s) = false)
                   (map (scoreOf sampleQuery) sampleChunks))
    by (repeat constructor).
  pose proof (C5_ranking_top8 sampleQuery sampleChunks 0%nat Hemb) as H.
  split; [exact (proj1 H)|]. split.
  - exact (proj1 (proj2 (proj2 (proj2 H)) Hnan)).
  - vm_compute. reflexivity.
Defined.

(** ** processPdf *)

Lemma parseProgress_run (pageItems : list (list string)) :
  forall i numPages k, exists evs,
    parseProgress i numPages pageItems k = (evs, k, Return tt).
Proof.
  induction pageItems as [|items rest IH]; intros i numPages k; cbn [parseProgress].
  - exists []. reflexivity.
  - destruct (IH (i + 1) numPages k) as [evs E].
    unfold bind, onProgress, emit. rewrite E. eexists. reflexivity.
Qed.

Lemma processPdf_run (ai : GoogleGenAI) (fuel : nat) (pageItems : list (list string)) (k : nat) :
  (chunkFuel (pagesOf pageItems) <= fuel)%nat ->
  exists evs,
    processPdf ai fuel (Pdf pageItems) k
    = (evs,
       (k + List.length (flat_map (pageChunks DEFAULT_CHUNK_SIZE DEFAULT_OVERLAP)
                           (pagesOf pageItems)))%nat,
       Return {| chunks := filter has_embedding
                             (embedded ai k
                                (flat_map (pageChunks DEFAULT_CHUNK_SIZE DEFAULT_OVERLAP)
                                   (pagesOf pageItems)));
                 fullText := join (nl ++ nl) (map Page.text (pagesOf pageItems)) |}).
Proof.
  intros Hfuel.
  set (pages := pagesOf pageItems) in *.
  set (chunks0 := flat_map (pageChunks DEFAULT_CHUNK_SIZE DEFAULT_OVERLAP) pages).
  assert (Hchunk : chunkText DEFAULT_CHUNK_SIZE DEFAULT_OVERLAP fuel pages = Some chunks0).
  { unfold chunkText. rewrite forEachPage_concat; [reflexivity | reflexivity | exact Hfuel]. }
  destruct (parseProgress_run pageItems 1 (Z.of_nat (List.length pageItems)) k) as [e1 E1].
  destruct (embedLoop_run ai (List.length chunks0) 0 [] chunks0 k) as [e2 E2];
    [cbn; lia | now right | unfold batchSize; lia | apply pageChunks_unembedded |].
  cbn [app] in E2.
  unfold processPdf, extractTextFromPdf, bind, onProgress, emit, ret.
  rewrite E1.
  change (parsePages 1 (Z.of_nat (List.length pageItems)) pageItems) with pages.
  rewrite Hchunk. rewrite E2.
  eexists. reflexivity.
Qed.

(** C4: a chunk whose embedding request fails keeps no embedding and stops
    nothing: every chunk's request is issued (the request counter advances by
    the number of chunks), each chunk gets the embedding its own request
    returned, [processPdf] returns without throwing, and the document holds
    exactly the chunks whose request succeeded. With 7 chunks of which 2
    fail, it holds 5. *)
Theorem C4_failed_embeddings_are_dropped
    (ai : GoogleGenAI) (fuel : nat) (pageItems : list (list string)) (k : nat)
    (Hfuel : (chunkFuel (pagesOf pageItems) <= fuel)%nat) :
  let chunks0 := flat_map (pageChunks DEFAULT_CHUNK_SIZE DEFAULT_OVERLAP)
                   (pagesOf pageItems) in
  exists evs doc,
    processPdf ai fuel (Pdf pageItems) k
    = (evs, (k + List.length chunks0)%nat, Return doc)
    /\ chunks doc = filter has_embedding (embedded ai k chunks0)
    /\ (List.length (chunks doc) + failures ai k chunks0 = List.length chunks0)%nat
    /\ (List.length chunks0 = 7%nat -> failures ai k chunks0 = 2%nat ->
        List.length (chunks doc) = 5%nat).
Proof.
  intros chunks0. destruct (processPdf_run ai fuel pageItems k Hfuel) as [evs E].
  fold chunks0 in E. eexists; eexists. split; [exact E|]. cbn [chunks].
  pose proof (filter_embedded_length ai chunks0
                (pageChunks_unembedded _ _ _) k) as Hcount.
  repeat split; [exact Hcount | lia].
Qed.

Lemma C4_failed_embeddings_are_dropped_witness :
  exists evs doc,
    processPdf (sampleAi [1; 4]%nat answerStream) 20 (Pdf sevenPages) 0%nat
    = (evs, 7%nat, Return doc)
    /\ map pageNumber (chunks doc) = [1; 3; 4; 6; 7].
Proof.
  destruct (C4_failed_embeddings_are_dropped (sampleAi [1; 4]%nat answerStream)
              20%nat sevenPages 0%nat ltac:(vm_compute; lia))
    as (evs & doc & Hrun & Hchunks & _).
  exists evs, doc. split; [exact Hrun|].
  rewrite Hchunks. vm_compute. reflexivity.
Defined.

(** ** Streams and generators *)

Section AnsweringFacts.
Variable ai : GoogleGenAI.

Lemma streamChunks_run (texts : list (option string)) (n : nat) :
  streamChunks texts n = (map Yield (fragmentsOf texts), n, Return tt).
Proof.
  induction texts as [|[[|c rest]|] more IH]; cbn [streamChunks fragmentsOf map];
    try assumption; [reflexivity|].
  unfold bind, emit. now rewrite IH.
Qed.

Lemma getCompletionStream_run (prompt : string) (n : nat) :
  getCompletionStream ai prompt n = (streamTrace ai prompt, n, Return tt).
Proof.
  unfold getCompletionStream, streamTrace, try_catch, bind, emit.
  destruct (generateContentStream ai prompt) as [|texts [|]].
  - reflexivity.
  - rewrite streamChunks_run. cbn. now rewrite app_nil_r.
  - rewrite streamChunks_run. cbn. now rewrite app_nil_r.
Qed.

Lemma replay_yield (t : list event) (n : nat) :
  replay t (fun chunk => yield chunk) n = (t, n, Return tt).
Proof.
  induction t as [|ev rest IH]; [reflexivity|].
  destruct ev; cbn [replay]; cbv [bind emit yield] in *; now rewrite IH.
Qed.

Lemma forward_stream (prompt : string) (n : nat) :
  for_await (getCompletionStream ai prompt) (fun chunk => yield chunk) n
  = (streamTrace ai prompt, n, Return tt).
Proof.
  unfold for_await. rewrite getCompletionStream_run, replay_yield. reflexivity.
Qed.

Lemma generateAnswer_summary (question : string) (docData : ProcessedDocument) (n : nat) :
  isSummaryRequest question = true ->
  generateAnswer ai question docData n
  = ((ConsoleLog "Using Full Context Summarization strategy"
      :: streamTrace ai (summaryPrompt (textToSend (fullText docData)) question)
      ++ [Yield SUMMARY_SOURCE])%list, n, Return tt).
Proof.
  intros H. unfold generateAnswer. rewrite H.
  unfold bind at 1. unfold emit at 1. unfold bind. rewrite forward_stream.
  reflexivity.
Qed.

Lemma embedThrows_result (txt : string) (k : nat) :
  embedThrows ai k txt = true -> embedResult ai k txt = None.
Proof.
  unfold embedThrows, embedResult.
  destruct (embedContent ai k (cleanText txt)) as [|[[|v more]|]];
    try discriminate; reflexivity.
Qed.

Lemma embedResult_returned (txt : string) (k : nat) (values : list float) :
  embedResult ai k txt = Some values -> embedThrows ai k txt = false.
Proof.
  intros H. destruct (embedThrows ai k txt) eqn:E; [|reflexivity].
  apply embedThrows_result in E. congruence.
Qed.

Lemma getEmbedding_returns (txt : string) (k : nat) :
  embedThrows ai k txt = false ->
  getEmbedding ai txt k
  = ([EmbedRequest (cleanText txt)], S k, Return (embedResult ai k txt)).
Proof.
  unfold embedThrows, embedResult, getEmbedding, try_catch, bind, requestEmbedding.
  destruct (embedContent ai k (cleanText txt)) as [|[[|[v|] more]|]];
    try discriminate; reflexivity.
Qed.

Lemma getEmbedding_ok (txt : string) (k : nat) (values : list float) :
  embedResult ai k txt = Some values ->
  getEmbedding ai txt k = ([EmbedRequest (cleanText txt)], S k, Return (Some values)).
Proof.
  intros H. rewrite (getEmbedding_returns txt k (embedResult_returned _ _ _ H)).
  now rewrite H.
Qed.

Lemma getEmbedding_fails (txt : string) (k : nat) :
  embedThrows ai k txt = true ->
  exists e, getEmbedding ai txt k
            = ([EmbedRequest (cleanText txt); ConsoleError "Embedding error:"],
               S k, Throw e).
Proof.
  unfold embedThrows, getEmbedding, try_catch, bind, requestEmbedding.
  destruct (embedContent ai k (cleanText txt)) as [|[[|v more]|]]; try discriminate;
    intros _; eexists; reflexivity.
Qed.

(** The retrieval path once [getEmbedding] has returned, with the vector or
    with [undefined]. *)
Lemma generateAnswer_scored (question : string) (docData : ProcessedDocument)
    (n : nat) (top : list ScoredChunk) :
  isSummaryRequest question = false ->
  embedThrows ai n question = false ->
  rank (embedResult ai n question) (chunks docData) (S n) = ([], S n, Return top) ->
  generateAnswer ai question docData n
  = ((ConsoleLog "Using RAG strategy" :: EmbedRequest (cleanText question)
      :: streamTrace ai (ragPrompt (contextOf top) question) ++ citationOf top)%list,
     S n, Return tt).
Proof.
  intros H He Hrank. unfold generateAnswer. rewrite H.
  unfold bind at 1. unfold emit at 1. unfold bind at 1.
  rewrite (getEmbedding_returns _ _ He).
  unfold bind at 1. rewrite Hrank.
  unfold bind. rewrite forward_stream. unfold citationOf, contextOf.
  destruct (0 <? List.length (uniquePages top))%nat; reflexivity.
Qed.

Lemma generateAnswer_unscored (question : string) (docData : ProcessedDocument)
    (n : nat) :
  isSummaryRequest question = false ->
  embedThrows ai n question = false ->
  rank (embedResult ai n question) (chunks docData) (S n) = ([], S n, Throw TypeError) ->
  generateAnswer ai question docData n
  = ([ConsoleLog "Using RAG strategy"; EmbedRequest (cleanText question)],
     S n, Throw TypeError).
Proof.
  intros H He Hrank. unfold generateAnswer. rewrite H.
  unfold bind at 1. unfold emit at 1. unfold bind at 1.
  rewrite (getEmbedding_returns _ _ He).
  unfold bind at 1. rewrite Hrank. reflexivity.
Qed.

Lemma generateAnswer_ranked (question : string) (docData : ProcessedDocument)
    (n : nat) (questionEmbedding : list float) (top : list ScoredChunk) :
  isSummaryRequest question = false ->
  embedResult ai n question = Some questionEmbedding ->
  rank (Some questionEmbedding) (chunks docData) (S n) = ([], S n, Return top) ->
  generateAnswer ai question docData n
  = ((ConsoleLog "Using RAG strategy" :: EmbedRequest (cleanText question)
      :: streamTrace ai (ragPrompt (contextOf top) question) ++ citationOf top)%list,
     S n, Return tt).
Proof.
  intros H He Hrank. apply generateAnswer_scored; auto.
  - now apply embedResult_returned with questionEmbedding.
  - now rewrite He.
Qed.

Lemma generateAnswer_unembedded_question (question : string)
    (docData : ProcessedDocument) (n : nat) :
  isSummaryRequest question = false ->
  embedThrows ai n question = true ->
  exists e,
    generateAnswer ai question docData n
    = ([ConsoleLog "Using RAG strategy"; EmbedRequest (cleanText question);
        ConsoleError "Embedding error:"], S n, Throw e).
Proof.
  intros H He. destruct (getEmbedding_fails _ _ He) as [e E]. exists e.
  unfold generateAnswer. rewrite H.
  unfold bind at 1. unfold emit at 1. unfold bind at 1. rewrite E. reflexivity.
Qed.

Lemma generateAnswer_retrieval (question : string) (docData : ProcessedDocument)
    (n : nat) (questionEmbedding : list float) :
  isSummaryRequest question = false ->
  embedResult ai n question = Some questionEmbedding ->
  Forall (fun c => has_embedding c = true) (chunks docData) ->
  let top := topChunks (map (scoreOf questionEmbedding) (chunks docData)) in
  generateAnswer ai question docData n
  = ((ConsoleLog "Using RAG strategy" :: EmbedRequest (cleanText question)
      :: streamTrace ai (ragPrompt (contextOf top) question) ++ citationOf top)%list,
     S n, Return tt).
Proof.
  intros H He Hemb top. apply generateAnswer_ranked with questionEmbedding; auto.
  now apply rank_run.
Qed.

End AnsweringFacts.

(** ** The summary test *)

Lemma all_ascii_complete (c : ascii) : In c all_ascii.
Proof.
  unfold all_ascii. rewrite <- (ascii_nat_embedding c).
  apply in_map, in_seq. pose proof (nat_ascii_bounded c). lia.
Qed.

Lemma canonical_eq_lower (c ch : ascii) :
  is_upper c = false ->
  Ascii.eqb (toUpper ch) (toUpper c) = Ascii.eqb (toLower ch) c.
Proof.
  assert (H : forallb (fun c => forallb (fun ch =>
                implb (negb (is_upper c))
                  (Bool.eqb (Ascii.eqb (toUpper ch) (toUpper c))
                            (Ascii.eqb (toLower ch) c))) all_ascii) all_ascii = true)
    by (vm_compute; reflexivity).
  rewrite forallb_forall in H. specialize (H c (all_ascii_complete c)).
  rewrite forallb_forall in H. specialize (H ch (all_ascii_complete ch)).
  intros Hc. rewrite Hc in H. cbn in H. now apply eqb_prop in H.
Qed.

Lemma matcher_literal (kw : string) :
  lowercase kw ->
  forall s k,
    matcher true (literal kw) s k = true
    <-> exists mid rest, s = mid ++ rest /\ toLowerCase mid = kw /\ k rest = true.
Proof.
  induction kw as [|c kw IH]; intros Hlow s k; cbn [literal matcher].
  - split.
    + intros H. exists "", s. auto.
    + intros (mid & rest & -> & Hm & Hk). destruct mid; [exact Hk | discriminate].
  - assert (Hc : is_upper c = false) by (apply Hlow; cbn; auto).
    assert (Hkw : lowercase kw) by (intros x Hx; apply Hlow; cbn; auto).
    destruct s as [|ch s'].
    + split; [discriminate|].
      intros (mid & rest & E & Hm & _). destruct mid; discriminate.
    + unfold Canonicalize. rewrite (canonical_eq_lower c ch Hc).
      destruct (Ascii.eqb (toLower ch) c) eqn:E.
      * apply Ascii.eqb_eq in E. rewrite (IH Hkw). split.
        -- intros (mid & rest & -> & Hm & Hk).
           exists (String ch mid), rest. cbn. now rewrite E, Hm.
        -- intros (mid & rest & Hs & Hm & Hk). destruct mid as [|ch' mid]; [discriminate|].
           cbn in Hs, Hm. injection Hs as -> ->. injection Hm as _ Hm.
           now exists mid, rest.
      * apply Ascii.eqb_neq in E. split; [discriminate|].
        intros (mid & rest & Hs & Hm & _). destruct mid as [|ch' mid]; [discriminate|].
        cbn in Hs, Hm. injection Hs as -> _. injection Hm as Hm _. contradiction.
Qed.

Lemma regexp_test_spec (ignoreCase : bool) (r : RegExp) (s : string) :
  regexp_test ignoreCase r s = true
  <-> exists before rest, s = before ++ rest
                          /\ matcher ignoreCase r rest (fun _ => true) = true.
Proof.
  induction s as [|ch s IH]; cbn [regexp_test].
  - rewrite orb_false_r. split.
    + intros H. now exists "", "".
    + intros (before & rest & E & H).
      destruct before; [|discriminate]. cbn in E. now subst rest.
  - rewrite orb_true_iff, IH. split.
    + intros [H|(before & rest & -> & H)].
      * now exists "", (String ch s).
      * now exists (String ch before), rest.
    + intros (before & rest & E & H). destruct before as [|ch' before].
      * cbn in E. subst rest. now left.
      * cbn in E. injection E as -> ->. right. now exists before, rest.
Qed.

Lemma toLowerCase_app (s1 s2 : string) :
  toLowerCase (s1 ++ s2) = toLowerCase s1 ++ toLowerCase s2.
Proof. induction s1 as [|c s1 IH]; cbn; [reflexivity | now rewrite IH]. Qed.

Lemma toLowerCase_split (x y : string) :
  forall s, toLowerCase s = x ++ y ->
            exists a b, s = a ++ b /\ toLowerCase a = x /\ toLowerCase b = y.
Proof.
  induction x as [|c x IH]; intros s H.
  - now exists "", s.
  - destruct s as [|ch s]; [discriminate|]. cbn in H. injection H as Hc Hs.
    destruct (IH s Hs) as (a & b & -> & Ha & Hb).
    exists (String ch a), b. cbn. now rewrite Hc, Ha.
Qed.

Lemma test_literal (kw : string) (s : string) :
  lowercase kw ->
  regexp_test true (literal kw) s = true <-> contains (toLowerCase s) kw.
Proof.
  intros Hlow. rewrite regexp_test_spec. unfold contains. split.
  - intros (before & rest & -> & H). apply (matcher_literal kw Hlow) in H.
    destruct H as (mid & after & -> & Hm & _).
    exists (toLowerCase before), (toLowerCase after).
    now rewrite !toLowerCase_app, Hm.
  - intros (before & after & H).
    destruct (toLowerCase_split _ _ _ H) as (a & b & -> & Ha & Hb).
    destruct (toLowerCase_split _ _ _ Hb) as (m & c & -> & Hm & Hc).
    exists a, (m ++ c). split; [reflexivity|].
    apply (matcher_literal kw Hlow). now exists m, c.
Qed.

Lemma test_alternative (r1 r2 : RegExp) (s : string) :
  regexp_test true (RAlt r1 r2) s = true
  <-> regexp_test true r1 s = true \/ regexp_test true r2 s = true.
Proof.
  rewrite !regexp_test_spec. cbn [matcher]. split.
  - intros (b & r & E & H). apply orb_true_iff in H. destruct H; [left|right]; eauto.
  - intros [(b & r & E & H)|(b & r & E & H)]; exists b, r; rewrite H;
      auto using orb_true_r.
Qed.

Lemma keywords_lowercase (kw : string) : In kw keywords -> lowercase kw.
Proof.
  intros H c Hc. unfold keywords in H. cbn [In] in H.
  assert (forallb (fun kw => forallb (fun c => negb (is_upper c))
                               (list_ascii_of_string kw)) keywords = true) as A
    by (vm_compute; reflexivity).
  rewrite forallb_forall in A.
  assert (Hin : In kw keywords) by (unfold keywords; cbn [In]; exact H).
  specialize (A kw Hin). rewrite forallb_forall in A.
  specialize (A c Hc). now apply negb_true_iff in A.
Qed.

Lemma isSummaryRequest_spec (question : string) :
  isSummaryRequest question = true <-> spec_isSummary question.
Proof.
  unfold isSummaryRequest, summaryPattern, spec_isSummary.
  rewrite !test_alternative.
  rewrite !test_literal by (apply keywords_lowercase; cbn; tauto).
  unfold keywords. cbn [In]. split.
  - intros [H|[H|[H|[H|H]]]]; eexists; (split; [|exact H]); tauto.
  - intros (kw & [<-|[<-|[<-|[<-|[<-|[]]]]]] & H); tauto.
Qed.

(** C6: the strategy is a total function of the question text alone; it is
    [Summary] exactly when the lower-cased question contains one of the five
    keywords as a substring, and [Retrieval] otherwise. *)
Theorem C6_strategy_selection (question : string) :
  (selectStrategy question = Summary <-> spec_isSummary question)
  /\ (selectStrategy question = Retrieval <-> ~ spec_isSummary question)
  /\ selectStrategy "Summarize this" = Summary
  /\ selectStrategy "SUMMARIZE THIS" = Summary.
Proof.
  pose proof (isSummaryRequest_spec question) as H.
  unfold selectStrategy at 1 2.
  destruct (isSummaryRequest question); (split; [|split; [|split]]);
    try (vm_compute; reflexivity).
  - split; [intros _; now apply H | reflexivity].
  - split; [discriminate | intros C; exfalso; apply C; now apply H].
  - split; [discriminate | intros C; apply H in C; discriminate].
  - split; [intros _ C; apply H in C; discriminate | reflexivity].
Qed.

(** ** More on strings and traces *)

Lemma append_assoc (s1 s2 s3 : string) : (s1 ++ s2) ++ s3 = s1 ++ (s2 ++ s3).
Proof. induction s1 as [|c s1 IH]; cbn; [reflexivity | now rewrite IH]. Qed.

Lemma append_empty_r (s : string) : s ++ "" = s.
Proof. induction s as [|c s IH]; cbn; [reflexivity | now rewrite IH]. Qed.

Lemma substring_prefix (n : nat) :
  forall s, (n <= String.length s)%nat ->
    exists rest, s = substring 0 n s ++ rest /\ String.length (substring 0 n s) = n.
Proof.
  induction n as [|n IH]; intros s Hn.
  - exists s. destruct s; cbn; auto.
  - destruct s as [|c s]; [cbn in Hn; lia|]. cbn in Hn.
    destruct (IH s ltac:(lia)) as (rest & E & L).
    exists rest. cbn. split; [now rewrite <- E | now rewrite L].
Qed.

Lemma slice_prefix (s : string) (m : Z) :
  0 <= m <= js_length s ->
  exists rest, s = slice s 0 m ++ rest /\ js_length (slice s 0 m) = m.
Proof.
  intros Hm. unfold slice. cbv zeta.
  change (0 <? 0) with false. cbv iota.
  destruct (m <? 0) eqn:E; [apply Z.ltb_lt in E; lia|].
  rewrite (Z.min_l 0), (Z.min_l m), Z.sub_0_r, (Z.max_l m) by lia.
  change (Z.to_nat 0) with O.
  destruct (substring_prefix (Z.to_nat m) s) as (rest & Hs & Hl).
  - unfold js_length in Hm. lia.
  - exists rest. split; [exact Hs|]. unfold js_length. rewrite Hl. lia.
Qed.

Lemma yields_app (t1 t2 : list event) : yields (t1 ++ t2) = (yields t1 ++ yields t2)%list.
Proof.
  induction t1 as [|ev t1 IH]; [reflexivity|].
  destruct ev; cbn [app yields]; now rewrite IH.
Qed.

Lemma yields_map_Yield (l : list string) : yields (map Yield l) = l.
Proof. induction l as [|x l IH]; cbn; [reflexivity | now rewrite IH]. Qed.

Lemma streamTrace_yields (ai : GoogleGenAI) (prompt : string) :
  yields (streamTrace ai prompt)
  = match generateContentStream ai prompt with
    | StreamRejected => [ERROR_FRAGMENT]
    | StreamOpened texts StreamDone => fragmentsOf texts
    | StreamOpened texts StreamFailed => (fragmentsOf texts ++ [ERROR_FRAGMENT])%list
    end.
Proof.
  unfold streamTrace. cbn [yields].
  destruct (generateContentStream ai prompt) as [|texts [|]].
  - reflexivity.
  - apply yields_map_Yield.
  - now rewrite yields_app, yields_map_Yield.
Qed.

Lemma streamTrace_no_embed_request (ai : GoogleGenAI) (prompt : string) :
  existsb is_embed_request (streamTrace ai prompt) = false.
Proof.
  unfold streamTrace. cbn [existsb is_embed_request orb].
  assert (H : forall l, existsb is_embed_request (map Yield l) = false)
    by (induction l; cbn; auto).
  destruct (generateContentStream ai prompt) as [|texts [|]];
    [reflexivity | apply H | rewrite existsb_app, H; reflexivity].
Qed.

(** ** Claims about the summary path *)

(** C7: on a question classified as a summary request, the one generation
    request carries the summary instructions, then [fullText] under the
    label 'Document Content:' and the question after 'User Request: '.
    [fullText] is sent whole when it has at most 3,000,000 characters, and
    otherwise cut to its first 3,000,000 characters followed by the marker
    '...[truncated]'. The fragments of the generation stream are yielded as
    they are and in order; one fragment follows them, the source marker
    '**Source:** Full Document Analysis'; no embedding request is issued,
    and the run does not depend on the document's chunks (nothing is
    ranked). *)
Theorem C7_summary_path
    (ai : GoogleGenAI) (question : string) (docData : ProcessedDocument) (n : nat)
    (Hsummary : isSummaryRequest question = true) :
  let prompt := summaryPrompt (textToSend (fullText docData)) question in
  generateAnswer ai question docData n
  = ((ConsoleLog "Using Full Context Summarization strategy"
      :: streamTrace ai prompt ++ [Yield SUMMARY_SOURCE])%list, n, Return tt)
  /\ prompt
     = "
      You are an expert document assistant.
      The user wants a summary or overview of the following document.
      Provide a comprehensive, detailed, and well-structured summary.
      Explain the key points in depth.
      
      Document Content:
      "
       ++ textToSend (fullText docData)
       ++ "
      
      User Request: "
       ++ question
       ++ "
    "
  /\ yields (trace_of (generateAnswer ai question docData n))
     = (yields (streamTrace ai prompt) ++ [SUMMARY_SOURCE])%list
  /\ (forall texts, generateContentStream ai prompt = StreamOpened texts StreamDone ->
        yields (trace_of (generateAnswer ai question docData n))
        = (fragmentsOf texts ++ [SUMMARY_SOURCE])%list)
  /\ (js_length (fullText docData) <= 3000000 ->
        textToSend (fullText docData) = fullText docData)
  /\ (3000000 < js_length (fullText docData) ->
        exists kept dropped,
          fullText docData = kept ++ dropped
          /\ js_length kept = 3000000
          /\ textToSend (fullText docData) = kept ++ "...[truncated]")
  /\ SUMMARY_SOURCE = nl ++ nl ++ "**Source:** Full Document Analysis"
  /\ existsb is_embed_request (trace_of (generateAnswer ai question docData n)) = false
  /\ (forall otherChunks,
        generateAnswer ai question
          {| chunks := otherChunks; fullText := fullText docData |} n
        = generateAnswer ai question docData n).
Proof.
  intros prompt.
  pose proof (generateAnswer_summary ai question docData n Hsummary) as Hrun.
  fold prompt in Hrun.
  assert (Hyields : yields (trace_of (generateAnswer ai question docData n))
                    = (yields (streamTrace ai prompt) ++ [SUMMARY_SOURCE])%list).
  { rewrite Hrun. unfold trace_of. cbn [fst yields]. now rewrite yields_app. }
  split; [exact Hrun|]. split; [reflexivity|]. split; [exact Hyields|].
  split; [|split; [|split; [|split; [|split]]]].
  - intros texts Hs. rewrite Hyields, streamTrace_yields, Hs. reflexivity.
  - intros Hle. unfold textToSend. change MAX_CHARS with 3000000.
    destruct (js_length (fullText docData) >? 3000000) eqn:E; [|reflexivity].
    rewrite Z.gtb_ltb in E. apply Z.ltb_lt in E. lia.
  - intros Hgt. unfold textToSend. change MAX_CHARS with 3000000.
    destruct (js_length (fullText docData) >? 3000000) eqn:E.
    + destruct (slice_prefix (fullText docData) 3000000) as (rest & Hs & Hl); [lia|].
      exists (slice (fullText docData) 0 3000000), rest. auto.
    + rewrite Z.gtb_ltb in E. apply Z.ltb_ge in E. lia.
  - reflexivity.
  - rewrite Hrun. unfold trace_of. cbn [fst existsb is_embed_request orb].
    rewrite existsb_app, streamTrace_no_embed_request. reflexivity.
  - intros otherChunks.
    rewrite Hrun. now rewrite (generateAnswer_summary ai question _ n Hsummary).
Qed.

Lemma C7_summary_path_witness :
  generateAnswer (sampleAi [] answerStream) tldrQuestion shortDocument 0%nat
  = ((ConsoleLog "Using Full Context Summarization strategy"
      :: streamTrace (sampleAi [] answerStream)
           (summaryPrompt (textToSend (fullText shortDocument)) tldrQuestion)
      ++ [Yield SUMMARY_SOURCE])%list, 0%nat, Return tt).
Proof.
  refine (proj1 (C7_summary_path (sampleAi [] answerStream) tldrQuestion
                   shortDocument 0%nat _)).
  vm_compute. reflexivity.
Defined.

(** ** The cited pages *)

Lemma Set_add_spec (s : list Z) (x : Z) :
  NoDup s ->
  NoDup (Set_add s x) /\ forall y, In y (Set_add s x) <-> In y s \/ y = x.
Proof.
  intros Hs. unfold Set_add. destruct (existsb (Z.eqb x) s) eqn:E.
  - split; [exact Hs|]. intros y. split; [auto|]. intros [H| ->]; [exact H|].
    apply existsb_exists in E. destruct E as (z & Hz & Ez).
    apply Z.eqb_eq in Ez. now subst z.
  - assert (Hx : ~ In x s).
    { intros Hx. assert (existsb (Z.eqb x) s = true); [|congruence].
      apply existsb_exists. exists x. split; [exact Hx | apply Z.eqb_refl]. }
    split.
    + apply NoDup_app; [exact Hs | repeat constructor; cbn; tauto |].
      intros y Hy [<-|[]]. contradiction.
    + intros y. rewrite in_app_iff. cbn. intuition.
Qed.

Lemma Set_from_spec (l : list Z) :
  NoDup (Set_from l) /\ forall y, In y (Set_from l) <-> In y l.
Proof.
  unfold Set_from.
  assert (G : forall s, NoDup s ->
                NoDup (fold_left Set_add l s)
                /\ forall y, In y (fold_left Set_add l s) <-> In y s \/ In y l).
  { induction l as [|x l IH]; intros s Hs; cbn [fold_left].
    - split; [exact Hs|]. intros y. cbn. tauto.
    - destruct (Set_add_spec s x Hs) as [Hn Hin].
      destruct (IH (Set_add s x) Hn) as [Hn' Hin'].
      split; [exact Hn'|]. intros y. rewrite Hin', Hin. cbn. intuition. }
  destruct (G [] (NoDup_nil Z)) as [Hn Hin].
  split; [exact Hn|]. intros y. rewrite Hin. cbn. tauto.
Qed.

Lemma ascending_consistent (l : list Z) : consistent_on ascending l.
Proof.
  split; unfold ascending; intros; rewrite ?Z.ltb_lt, ?Z.ltb_ge in *; lia.
Qed.

Lemma StronglySorted_le_NoDup_lt (l : list Z) :
  StronglySorted (fun a b => ascending a b = false) l -> NoDup l ->
  StronglySorted Z.lt l.
Proof.
  induction 1 as [|x l Hs IH Hx]; intros Hn; constructor.
  - apply IH. now inversion Hn.
  - rewrite Forall_forall in *. intros y Hy. specialize (Hx y Hy).
    unfold ascending in Hx. apply Z.ltb_ge in Hx.
    assert (x <> y) by (intros ->; inversion Hn; contradiction). lia.
Qed.

Lemma uniquePages_spec (top : list ScoredChunk) :
  StronglySorted Z.lt (uniquePages top)
  /\ forall p, In p (uniquePages top)
               <-> exists c, In c top /\ pageNumber (chunkOf c) = p.
Proof.
  unfold uniquePages.
  set (pages := map (fun c => pageNumber (chunkOf c)) top).
  destruct (Set_from_spec pages) as [Hn Hin].
  pose proof (Array_sort_perm ascending (Set_from pages)) as P.
  split.
  - apply StronglySorted_le_NoDup_lt.
    + apply (Array_sort_sorted ascending), ascending_consistent.
    + apply (Permutation_NoDup (Permutation_sym P) Hn).
  - intros p. split.
    + intros H. apply (Permutation_in _ P), Hin in H.
      unfold pages in H. apply in_map_iff in H. destruct H as (c & E & Hc). eauto.
    + intros (c & Hc & E). apply (Permutation_in _ (Permutation_sym P)), Hin.
      unfold pages. apply in_map_iff. eauto.
Qed.

Lemma uniquePages_nonempty (top : list ScoredChunk) :
  top <> [] -> (0 <? List.length (uniquePages top))%nat = true.
Proof.
  intros H. destruct top as [|c rest]; [contradiction|].
  destruct (uniquePages_spec (c :: rest)) as [_ Hin].
  assert (Hp : In (pageNumber (chunkOf c)) (uniquePages (c :: rest)))
    by (apply Hin; exists c; cbn; auto).
  apply Nat.ltb_lt. destruct (uniquePages (c :: rest)); [contradiction | cbn; lia].
Qed.

Lemma topChunks_nonempty (scored : list ScoredChunk) :
  scored <> [] -> topChunks scored <> [].
Proof.
  intros H E. apply (f_equal (@List.length _)) in E.
  unfold topChunks, TOP_K in E. rewrite length_firstn, Array_sort_length in E.
  destruct scored; [contradiction | cbn in E; lia].
Qed.

(** ** Claims about the retrieval path *)

(** C8, as stated, fails: on a document without chunks (every embedding
    failed, or the pages had no text) the retrieval path forwards the
    generation stream and emits no citation fragment after it. *)
Lemma C8_no_chunks_no_citation :
  isSummaryRequest clauseQuestion = false
  /\ yields (trace_of (generateAnswer (sampleAi [] answerStream) clauseQuestion
                         shortDocument 0%nat))
     = ["The clause "; "is on page 3."].
Proof. split; vm_compute; reflexivity. Qed.

(** C8, amended: on the retrieval path, when the question's embedding is
    obtained, every chunk carries an embedding and no similarity score is
    NaN, the answer is the fragments of the generation stream on the prompt
    built from the top chunks, followed, when the document has at least one
    chunk, by one final fragment; it cites the page numbers of the top
    chunks, each once, in increasing order, after 'Page' when one page is
    cited and 'Pages' when more are. When the document has no chunks, the
    fragments of the stream are the whole answer: no citation fragment is
    emitted. *)
Theorem C8_retrieval_citation
    (ai : GoogleGenAI) (question : string) (docData : ProcessedDocument) (n : nat)
    (questionEmbedding : list float)
    (Hretrieval : isSummaryRequest question = false)
    (Hquestion : embedResult ai n question = Some questionEmbedding)
    (Hembedded : Forall (fun c => has_embedding c = true) (chunks docData))
    (Hscores : Forall (fun s => PrimFloat.is_nan (score s) = false)
                 (map (scoreOf questionEmbedding) (chunks docData))) :
  let top := topChunks (map (scoreOf questionEmbedding) (chunks docData)) in
  let pages := uniquePages top in
  (chunks docData <> [] ->
     yields (trace_of (generateAnswer ai question docData n))
     = (yields (streamTrace ai (ragPrompt (contextOf top) question))
        ++ [sourcesFragment pages])%list)
  /\ (chunks docData = [] ->
      yields (trace_of (generateAnswer ai question docData n))
      = yields (streamTrace ai (ragPrompt "" question)))
  /\ StronglySorted Z.lt pages
  /\ (forall p, In p pages <-> exists c, In c top /\ pageNumber (chunkOf c) = p)
  /\ (forall p, pages = [p] ->
        sourcesFragment pages = nl ++ nl ++ "**Sources:** Page " ++ Z_to_string p)
  /\ ((1 < List.length pages)%nat ->
        sourcesFragment pages
        = nl ++ nl ++ "**Sources:** Pages " ++ join ", " (map Z_to_string pages))
  /\ sourcesFragment [1; 3; 4; 5; 6] = nl ++ nl ++ "**Sources:** Pages 1, 3, 4, 5, 6".
Proof.
  intros top pages.
  destruct (uniquePages_spec top) as [Hsorted Hin].
  pose proof (generateAnswer_retrieval ai question docData n questionEmbedding
                Hretrieval Hquestion Hembedded) as Hrun.
  cbv zeta in Hrun. fold top in Hrun.
  split; [|split; [|split; [exact Hsorted|split; [exact Hin|split; [|split]]]]].
  - intros Hne. rewrite Hrun.
    assert (Htop : top <> []).
    { apply topChunks_nonempty. destruct (chunks docData); [contradiction | discriminate]. }
    unfold citationOf. rewrite (uniquePages_nonempty top Htop).
    unfold trace_of. cbn [fst yields]. rewrite yields_app. reflexivity.
  - intros Hnil. rewrite Hrun. unfold top. rewrite Hnil.
    unfold trace_of. cbn [fst yields]. rewrite yields_app.
    change (citationOf (topChunks (map (scoreOf questionEmbedding) []))) with (@nil event).
    cbn [yields]. now rewrite app_nil_r.
  - intros p Hp. rewrite Hp. reflexivity.
  - intros Hlen. unfold sourcesFragment.
    apply Nat.ltb_lt in Hlen. rewrite Hlen. reflexivity.
  - vm_compute. reflexivity.
Qed.

Lemma C8_retrieval_citation_witness :
  yields (trace_of (generateAnswer (sampleAi [] answerStream) clauseQuestion
                      tenChunkDocument 0%nat))
  = ["The clause "; "is on page 3."; nl ++ nl ++ "**Sources:** Pages 1, 3, 4, 5, 6"].
Proof.
  assert (Hscores : Forall (fun s => PrimFloat.is_nan (score s) = false)
                      (map (scoreOf sampleQuery) (chunks tenChunkDocument)))
    by (repeat constructor).
  pose proof (C8_retrieval_citation (sampleAi [] answerStream) clauseQuestion
                tenChunkDocument 0%nat sampleQuery
                ltac:(vm_compute; reflexivity) ltac:(vm_compute; reflexivity)
                ltac:(repeat constructor) Hscores) as H.
  cbv zeta in H. destruct H as [H _].
  rewrite H by discriminate.
  vm_compute. reflexivity.
Defined.

(** ** The chat turn *)

Lemma concat_all_app (l1 l2 : list string) :
  concat_all (l1 ++ l2) = concat_all l1 ++ concat_all l2.
Proof.
  induction l1 as [|x l1 IH]; cbn; [reflexivity|].
  fold (concat_all (l1 ++ l2)). fold (concat_all l1). now rewrite IH, append_assoc.
Qed.

Lemma showResponse_last (base : list App.Message) (old new : string) :
  App.showResponse new (base ++ [App.mkMessage App.assistant old])
  = Some (base ++ [App.mkMessage App.assistant new])%list.
Proof.
  unfold App.showResponse. rewrite rev_unit. cbn [App.role].
  now rewrite rev_involutive.
Qed.

Lemma fold_left_append (l : list string) :
  forall acc, fold_left append l acc = acc ++ concat_all l.
Proof.
  induction l as [|x l IH]; intros acc; cbn [fold_left concat_all fold_right].
  - now rewrite append_empty_r.
  - rewrite IH. fold (concat_all l). now rewrite append_assoc.
Qed.

(** Whatever the other handlers do, the loop accumulates every fragment. *)
Lemma consume_response (others : App.Others) (t : list event) :
  forall k acc st,
    fst (App.consume others k t acc st) = acc ++ concat_all (yields t).
Proof.
  induction t as [|ev t IH]; intros k acc st.
  - cbn. now rewrite append_empty_r.
  - destruct ev; cbn [App.consume yields]; try apply IH.
    destruct (App.showResponse (acc ++ fragment) (App.messages (others k st))).
    + rewrite IH. cbn [concat_all fold_right]. fold (concat_all (yields t)).
      now rewrite append_assoc.
    + cbn [fst concat_all fold_right]. fold (concat_all (yields t)).
      now rewrite fold_left_append, append_assoc.
Qed.

(** When no other handler runs, the loop ends with the placeholder replaced
    by the whole response, and nothing else changed. *)
Lemma consume_quiet (others : App.Others) (t : list event) :
  (forall k s, others k s = s) ->
  forall k acc st base,
    App.messages st = (base ++ [App.mkMessage App.assistant acc])%list ->
    App.consume others k t acc st
    = (acc ++ concat_all (yields t),
       App.Mounted
         (App.mkState (App.processedDoc st)
            (base ++ [App.mkMessage App.assistant (acc ++ concat_all (yields t))])%list
            (App.isGenerating st) (App.chats st) (App.activeChatId st))).
Proof.
  intros Hq. induction t as [|ev t IH]; intros k acc st base Hm.
  - cbn. rewrite append_empty_r, Hq, <- Hm. now destruct st.
  - destruct ev; cbn [App.consume yields]; rewrite Hq; try (apply IH; exact Hm).
    rewrite Hm, showResponse_last.
    rewrite (IH (S k) (acc ++ fragment) _ base) by reflexivity.
    cbn [concat_all fold_right]. fold (concat_all (yields t)).
    rewrite <- append_assoc. reflexivity.
Qed.

Lemma storeMessages_twice (cid : string) (m1 m2 : list App.Message)
    (l : list App.ChatSession) :
  map (storeMessages cid m2) (map (storeMessages cid m1) l)
  = map (storeMessages cid m2) l.
Proof.
  rewrite map_map. apply map_ext. intros chat. unfold storeMessages.
  destruct (String.eqb (App.id chat) cid) eqn:E; cbn [App.id]; now rewrite E.
Qed.

(** The state an undisturbed turn leaves, by the outcome of
    [generateAnswer]. *)
Lemma handleSendMessage_state
    (ai : GoogleGenAI) (others : App.Others) (message : string) (st : App.State)
    (doc : ProcessedDocument) (n n' : nat) (evs : list event) (c : completion unit)
    (reply : string) :
  (forall k s, others k s = s) ->
  App.processedDoc st = Some doc ->
  App.is_blank message = false ->
  App.isGenerating st = false ->
  generateAnswer ai message doc n = (evs, n', c) ->
  match c with
  | Return _ => reply = concat_all (yields evs)
  | Throw _ => reply = App.CONNECT_ERROR
  | OutOfFuel => False
  end ->
  exists log,
    App.handleSendMessage ai others message st n
    = (log, n',
       Return
         (App.Mounted
            (App.mkState (Some doc)
               (App.messages st ++ [App.mkMessage App.user message;
                                    App.mkMessage App.assistant reply])%list
               false
               match App.activeChatId st with
               | None => App.chats st
               | Some cid =>
                   map (storeMessages cid
                          (App.messages st ++ [App.mkMessage App.user message;
                                               App.mkMessage App.assistant reply])%list)
                     (App.chats st)
               end
               (App.activeChatId st)))).
Proof.
  intros Hq Hdoc Hblank Hgen Hrun Hreply. unfold App.handleSendMessage.
  rewrite Hdoc, Hblank, Hgen. cbn [orb]. rewrite Hrun.
  destruct st as [d m g ch a].
  cbn [App.processedDoc App.messages App.isGenerating App.chats App.activeChatId] in *.
  subst d g.
  match goal with |- context [App.consume others 0 evs "" ?s] => set (st1 := s) end.
  rewrite (consume_quiet others evs Hq 0 "" st1
             (m ++ [App.mkMessage App.user message])%list)
    by (unfold st1; destruct a; reflexivity).
  cbn [append].
  destruct c as [[]|e|]; [| |contradiction]; subst reply; eexists;
    (f_equal; f_equal; f_equal); unfold st1;
    destruct a as [cid|];
    unfold App.update, App.updateCurrentChatMessages, App.setMessages, App.setChats,
      App.setIsGenerating;
    cbn [App.processedDoc App.messages App.isGenerating App.chats App.activeChatId];
    rewrite <- ?app_assoc; cbn [app]; try reflexivity.
  - do 2 f_equal. apply (storeMessages_twice cid).
  - do 2 f_equal. apply (storeMessages_twice cid).
Qed.

(** Whatever the other handlers do during a turn, the handler completes;
    and if the component is still mounted, nothing is being generated any
    more and every chat with the turn's active id stores the transcript of
    the turn. *)
Lemma handleSendMessage_disturbed
    (ai : GoogleGenAI) (others : App.Others) (message : string) (st : App.State)
    (doc : ProcessedDocument) (n n' : nat) (evs : list event) (c : completion unit)
    (reply : string) :
  App.processedDoc st = Some doc ->
  App.is_blank message = false ->
  App.isGenerating st = false ->
  generateAnswer ai message doc n = (evs, n', c) ->
  match c with
  | Return _ => reply = concat_all (yields evs)
  | Throw _ => reply = App.CONNECT_ERROR
  | OutOfFuel => False
  end ->
  exists more screen,
    App.handleSendMessage ai others message st n
    = ((filter App.not_yield evs ++ more)%list, n', Return screen)
    /\ forall st',
         screen = App.Mounted st' ->
         App.isGenerating st' = false
         /\ forall chat,
              In chat (App.chats st') ->
              App.activeChatId st = Some (App.id chat) ->
              App.sessionMessages chat
              = (App.messages st ++ [App.mkMessage App.user message;
                                     App.mkMessage App.assistant reply])%list.
Proof.
  intros Hdoc Hblank Hgen Hrun Hreply. unfold App.handleSendMessage.
  rewrite Hdoc, Hblank, Hgen. cbn [orb]. rewrite Hrun.
  match goal with |- context [App.consume others 0 evs "" ?s] => set (st1 := s) end.
  pose proof (consume_response others evs 0 "" st1) as Hfull.
  destruct (App.consume others 0 evs "" st1) as [fullResponse screen].
  cbn [fst append] in Hfull. subst fullResponse.
  assert (Hstored : forall cid final l chat,
             In chat (map (fun chat0 =>
                             if String.eqb (App.id chat0) cid
                             then App.mkChatSession (App.id chat0) (App.name chat0)
                                    (App.sessionDoc chat0) final
                             else chat0) l) ->
             cid = App.id chat -> App.sessionMessages chat = final).
  { intros cid final l chat Hin ->. apply in_map_iff in Hin.
    destruct Hin as (chat0 & E & _).
    destruct (String.eqb (App.id chat0) (App.id chat)) eqn:Eid.
    - now subst chat.
    - subst chat0. now rewrite String.eqb_refl in Eid. }
  destruct c as [[]|e|]; [| |contradiction]; subst reply.
  - exists [], (App.update (App.setIsGenerating false)
                  (App.update (App.updateCurrentChatMessages (App.activeChatId st)
                       (App.messages st ++ [App.mkMessage App.user message]
                        ++ [App.mkMessage App.assistant (concat_all (yields evs))])%list)
                     screen)).
    split; [now rewrite app_nil_r, <- app_assoc|].
    intros st' Hm. destruct screen as [st2|]; [|discriminate].
    cbn [App.update] in Hm. injection Hm as <-. split; [reflexivity|].
    intros chat Hin Ha. rewrite Ha in Hin.
    cbn [App.updateCurrentChatMessages App.setChats App.setIsGenerating App.chats] in Hin.
    now apply Hstored in Hin.
  - exists [ConsoleError "error"],
      (App.update (App.setIsGenerating false)
         (App.update (App.updateCurrentChatMessages (App.activeChatId st)
              (App.messages st ++ [App.mkMessage App.user message]
               ++ [App.mkMessage App.assistant App.CONNECT_ERROR])%list)
            (App.update (App.setMessages (fun _ =>
               (App.messages st ++ [App.mkMessage App.user message]
                ++ [App.mkMessage App.assistant App.CONNECT_ERROR])%list)) screen))).
    split; [now rewrite <- !app_assoc|].
    intros st' Hm. destruct screen as [st2|]; [|discriminate].
    cbn [App.update] in Hm. injection Hm as <-. split; [reflexivity|].
    intros chat Hin Ha. rewrite Ha in Hin.
    cbn [App.updateCurrentChatMessages App.setChats App.setIsGenerating App.setMessages
         App.chats] in Hin.
    now apply Hstored in Hin.
Qed.

Lemma scoreChunk_cases (q : option (list float)) (c : DocChunk) (n : nat) :
  (exists s, scoreChunk q c n = ([], n, Return s))
  \/ scoreChunk q c n = ([], n, Throw TypeError).
Proof.
  unfold scoreChunk. destruct q as [[|x q']|], (embedding c) as [values|];
    try (left; eexists; reflexivity); right; reflexivity.
Qed.

Lemma mapM_scoreChunk_cases (q : option (list float)) (l : list DocChunk) (n : nat) :
  (exists scored, mapM (scoreChunk q) l n = ([], n, Return scored))
  \/ mapM (scoreChunk q) l n = ([], n, Throw TypeError).
Proof.
  induction l as [|c rest IH]; cbn [mapM]; [left; now exists []|].
  unfold bind.
  destruct (scoreChunk_cases q c n) as [[s E]|E]; rewrite E; [|right; reflexivity].
  destruct IH as [[scored E']|E']; rewrite E'; [left; eexists | right]; reflexivity.
Qed.

Lemma rank_cases (q : option (list float)) (l : list DocChunk) (n : nat) :
  (exists top, rank q l n = ([], n, Return top))
  \/ rank q l n = ([], n, Throw TypeError).
Proof.
  unfold rank, bind.
  destruct (mapM_scoreChunk_cases q l n) as [[scored E]|E]; rewrite E;
    [left; eexists | right]; reflexivity.
Qed.

(** The four ways a run of [generateAnswer] can go. *)
Lemma generateAnswer_paths (ai : GoogleGenAI) (question : string)
    (docData : ProcessedDocument) (n : nat) :
  (isSummaryRequest question = true
   /\ generateAnswer ai question docData n
      = ((ConsoleLog "Using Full Context Summarization strategy"
          :: streamTrace ai (summaryPrompt (textToSend (fullText docData)) question)
          ++ [Yield SUMMARY_SOURCE])%list, n, Return tt))
  \/ (isSummaryRequest question = false
      /\ embedThrows ai n question = false
      /\ exists top,
           rank (embedResult ai n question) (chunks docData) (S n)
           = ([], S n, Return top)
           /\ generateAnswer ai question docData n
              = ((ConsoleLog "Using RAG strategy" :: EmbedRequest (cleanText question)
                  :: streamTrace ai (ragPrompt (contextOf top) question)
                  ++ citationOf top)%list, S n, Return tt))
  \/ (isSummaryRequest question = false
      /\ generateAnswer ai question docData n
         = ([ConsoleLog "Using RAG strategy"; EmbedRequest (cleanText question)],
            S n, Throw TypeError))
  \/ (isSummaryRequest question = false
      /\ embedResult ai n question = None
      /\ exists e,
           generateAnswer ai question docData n
           = ([ConsoleLog "Using RAG strategy"; EmbedRequest (cleanText question);
               ConsoleError "Embedding error:"], S n, Throw e)).
Proof.
  destruct (isSummaryRequest question) eqn:Hs.
  - left. split; [reflexivity|]. now apply generateAnswer_summary.
  - right. destruct (embedThrows ai n question) eqn:Ht.
    + right. right. split; [reflexivity|].
      split; [now apply embedThrows_result|].
      now apply generateAnswer_unembedded_question.
    + destruct (rank_cases (embedResult ai n question) (chunks docData) (S n))
        as [[top Hr]|Hr].
      * left. split; [reflexivity|]. split; [reflexivity|]. exists top.
        split; [exact Hr|]. now apply generateAnswer_scored.
      * right. left. split; [reflexivity|]. now apply generateAnswer_unscored.
Qed.

Lemma streamTrace_request (ai : GoogleGenAI) (prompt issued : string) :
  In (GenerateRequest issued) (streamTrace ai prompt) -> issued = prompt.
Proof.
  unfold streamTrace. intros [[= ->]|H]; [reflexivity|]. exfalso.
  assert (Hy : forall l, ~ In (GenerateRequest issued) (map Yield l)).
  { intros l Hin. apply in_map_iff in Hin. destruct Hin as (x & Hx & _). discriminate. }
  assert (Hf : ~ In (GenerateRequest issued) streamFailure).
  { intros [Hin|[Hin|[]]]; discriminate. }
  destruct (generateContentStream ai prompt) as [|texts [|]].
  - now apply Hf.
  - now apply (Hy (fragmentsOf texts)).
  - apply in_app_or in H. destruct H; [now apply (Hy (fragmentsOf texts)) | now apply Hf].
Qed.

Lemma generateAnswer_stream_failure
    (ai : GoogleGenAI) (question : string) (doc : ProcessedDocument) (n : nat)
    (prompt : string) (texts : list (option string)) :
  In (GenerateRequest prompt) (trace_of (generateAnswer ai question doc n)) ->
  generateContentStream ai prompt = StreamOpened texts StreamFailed ->
  exists footer evs n',
    generateAnswer ai question doc n = (evs, n', Return tt)
    /\ yields evs = (fragmentsOf texts ++ ERROR_FRAGMENT :: footer)%list.
Proof.
  intros Hreq Hfail.
  destruct (generateAnswer_paths ai question doc n)
    as [(Hs & Hrun)|[(Hs & Ht & top & Hr & Hrun)|[(Hs & Hrun)|(Hs & He & e & Hrun)]]].
  - rewrite Hrun in Hreq. unfold trace_of in Hreq. cbn [fst] in Hreq.
    destruct Hreq as [Hreq|Hreq]; [discriminate|].
    apply in_app_or in Hreq. destruct Hreq as [Hreq|[Hreq|[]]]; [|discriminate].
    apply streamTrace_request in Hreq. subst prompt.
    exists [SUMMARY_SOURCE]. eexists; eexists. split; [exact Hrun|].
    cbn [yields]. rewrite yields_app, streamTrace_yields, Hfail.
    now rewrite <- app_assoc.
  - rewrite Hrun in Hreq. unfold trace_of in Hreq. cbn [fst] in Hreq.
    destruct Hreq as [Hreq|[Hreq|Hreq]]; [discriminate | discriminate |].
    apply in_app_or in Hreq. destruct Hreq as [Hreq|Hreq].
    + apply streamTrace_request in Hreq. subst prompt.
      eexists; eexists; eexists. split; [exact Hrun|].
      cbn [yields]. rewrite yields_app, streamTrace_yields, Hfail.
      rewrite <- app_assoc. reflexivity.
    + exfalso. unfold citationOf in Hreq.
      destruct (0 <? List.length (uniquePages top))%nat;
        [destruct Hreq as [Hreq|[]]; discriminate | destruct Hreq].
  - exfalso. rewrite Hrun in Hreq.
    destruct Hreq as [Hreq|[Hreq|[]]]; discriminate.
  - exfalso. rewrite Hrun in Hreq.
    destruct Hreq as [Hreq|[Hreq|[Hreq|[]]]]; discriminate.
Qed.

(** C9: when the generation stream that answers the turn's request fails
    after some fragments, [getCompletionStream] does not throw: it yields
    the fragments it got and then the fragment 'Error generating response.
    Check browser console for details.'. The answer stream of
    [generateAnswer] returns normally with the partial answer, that error
    fragment and its footer. Whatever the other handlers of the page do
    meanwhile, [handleSendMessage] completes, and if the component is still
    mounted every chat with the turn's active id stores the transcript
    extended by the user's message and an assistant message made of the
    partial answer, unchanged, the error fragment and the footer. When no
    other handler runs during the turn, that is also the transcript on
    display. *)
Theorem C9_stream_failure_is_visible
    (ai : GoogleGenAI) (others : App.Others) (message : string) (st : App.State)
    (doc : ProcessedDocument) (n : nat) (prompt : string) (texts : list (option string))
    (Hdoc : App.processedDoc st = Some doc)
    (Hblank : App.is_blank message = false)
    (Hidle : App.isGenerating st = false)
    (Hrequest : In (GenerateRequest prompt)
                   (trace_of (generateAnswer ai message doc n)))
    (Hfail : generateContentStream ai prompt = StreamOpened texts StreamFailed) :
  (forall m,
     getCompletionStream ai prompt m = (streamTrace ai prompt, m, Return tt)
     /\ yields (streamTrace ai prompt)
        = (fragmentsOf texts
           ++ ["Error generating response. Check browser console for details."])%list)
  /\ exists footer,
       completion_of (generateAnswer ai message doc n) = Return tt
       /\ yields (trace_of (generateAnswer ai message doc n))
          = (fragmentsOf texts
             ++ "Error generating response. Check browser console for details."
             :: footer)%list
       /\ (exists evs n' screen,
             App.handleSendMessage ai others message st n = (evs, n', Return screen)
             /\ forall st',
                  screen = App.Mounted st' ->
                  App.isGenerating st' = false
                  /\ forall chat,
                       In chat (App.chats st') ->
                       App.activeChatId st = Some (App.id chat) ->
                       App.sessionMessages chat
                       = (App.messages st
                          ++ [App.mkMessage App.user message;
                              App.mkMessage App.assistant
                                (concat_all (fragmentsOf texts)
                                 ++ "Error generating response. Check browser console for details."
                                 ++ concat_all footer)])%list)
       /\ ((forall k s, others k s = s) ->
           exists evs n' st',
             App.handleSendMessage ai others message st n
             = (evs, n', Return (App.Mounted st'))
             /\ App.messages st'
                = (App.messages st
                   ++ [App.mkMessage App.user message;
                       App.mkMessage App.assistant
                         (concat_all (fragmentsOf texts)
                          ++ "Error generating response. Check browser console for details."
                          ++ concat_all footer)])%list
             /\ App.isGenerating st' = false).
Proof.
  split.
  - intros m. split; [apply getCompletionStream_run|].
    now rewrite streamTrace_yields, Hfail.
  - destruct (generateAnswer_stream_failure ai message doc n prompt texts Hrequest Hfail)
      as (footer & evs & n' & Hrun & Hy).
    exists footer. rewrite Hrun. unfold completion_of, trace_of. cbn [fst snd].
    split; [reflexivity|]. split; [exact Hy|].
    assert (Hreply : concat_all (yields evs)
                     = concat_all (fragmentsOf texts)
                       ++ "Error generating response. Check browser console for details."
                       ++ concat_all footer).
    { rewrite Hy, concat_all_app. reflexivity. }
    split.
    + destruct (handleSendMessage_disturbed ai others message st doc n n' evs (Return tt)
                  (concat_all (yields evs)) Hdoc Hblank Hidle Hrun eq_refl)
        as (more & screen & Hh & Hs).
      exists (filter App.not_yield evs ++ more)%list, n', screen.
      split; [exact Hh|]. rewrite <- Hreply. exact Hs.
    + intros Hquiet.
      destruct (handleSendMessage_state ai others message st doc n n' evs (Return tt)
                  (concat_all (yields evs)) Hquiet Hdoc Hblank Hidle Hrun eq_refl)
        as (log & Hh).
      eexists log, n', _. split; [exact Hh|].
      cbn [App.messages App.isGenerating]. rewrite Hreply. split; reflexivity.
Qed.

Lemma C9_stream_failure_is_visible_witness :
  exists evs n' st',
    App.handleSendMessage (sampleAi [] failingStream) App.quiet clauseQuestion
      readyState 0%nat
    = (evs, n', Return (App.Mounted st'))
    /\ App.messages st'
       = (App.messages readyState
          ++ [App.mkMessage App.user clauseQuestion;
              App.mkMessage App.assistant
                ("Partial answer "
                 ++ "Error generating response. Check browser console for details."
                 ++ nl ++ nl ++ "**Sources:** Pages 1, 3, 4, 5, 6")])%list.
Proof.
  assert (Hreq : In (GenerateRequest
                       (ragPrompt
                          (contextOf (topChunks (map (scoreOf sampleQuery) tenChunks)))
                          clauseQuestion))
                    (trace_of (generateAnswer (sampleAi [] failingStream)
                                 clauseQuestion tenChunkDocument 0%nat))).
  { vm_compute. right. right. left. reflexivity. }
  destruct (C9_stream_failure_is_visible (sampleAi [] failingStream) App.quiet
              clauseQuestion readyState tenChunkDocument 0%nat _
              [Some "Partial answer "]
              eq_refl eq_refl eq_refl Hreq eq_refl)
    as (_ & footer & _ & Hy & _ & Hquiet).
  destruct (Hquiet (fun _ _ => eq_refl)) as (evs & n' & st' & Hh & Hm & _).
  exists evs, n', st'. split; [exact Hh|].
  rewrite Hm. repeat f_equal.
  assert (Hf : footer = [nl ++ nl ++ "**Sources:** Pages 1, 3, 4, 5, 6"]).
  { assert (E : yields (trace_of (generateAnswer (sampleAi [] failingStream)
                                    clauseQuestion tenChunkDocument 0%nat))
                = ["Partial answer "; ERROR_FRAGMENT;
                   nl ++ nl ++ "**Sources:** Pages 1, 3, 4, 5, 6"])
      by (vm_compute; reflexivity).
    rewrite E in Hy. cbn in Hy. now injection Hy as <-. }
  rewrite Hf. reflexivity.
Defined.

(** ** The document text *)

Lemma all_failed_none_kept (ai : GoogleGenAI) (l : list DocChunk) :
  (forall k txt, embedResult ai k txt = None) ->
  Forall (fun c => embedding c = None) l ->
  forall k, filter has_embedding (embedded ai k l) = [].
Proof.
  intros Hdead. induction 1 as [|c rest Hc _ IH]; intros k; cbn [embedded filter].
  - reflexivity.
  - rewrite Hdead. unfold has_embedding at 1. rewrite Hc. apply IH.
Qed.

(** C10: the embedding phase does not touch [fullText]: whatever the
    embedding requests answer, the document returned by [processPdf] has the
    page texts joined, in page order, by a blank line. When every request
    fails the document has no chunks, and a summary request is still
    answered from a prompt built from that text. *)
Theorem C10_fullText_survives_embedding_failures
    (ai : GoogleGenAI) (fuel : nat) (pageItems : list (list string)) (k : nat)
    (Hfuel : (chunkFuel (pagesOf pageItems) <= fuel)%nat) :
  exists evs k' doc,
    processPdf ai fuel (Pdf pageItems) k = (evs, k', Return doc)
    /\ fullText doc = join (nl ++ nl) (map Page.text (pagesOf pageItems))
    /\ ((forall j txt, embedResult ai j txt = None) -> chunks doc = [])
    /\ forall question m,
         isSummaryRequest question = true ->
         In (GenerateRequest
               (summaryPrompt
                  (textToSend (join (nl ++ nl) (map Page.text (pagesOf pageItems))))
                  question))
            (trace_of (generateAnswer ai question doc m))
         /\ (js_length (fullText doc) <= MAX_CHARS ->
             textToSend (fullText doc)
             = join (nl ++ nl) (map Page.text (pagesOf pageItems))).
Proof.
  destruct (processPdf_run ai fuel pageItems k Hfuel) as [evs E].
  eexists; eexists; eexists. split; [exact E|]. cbn [fullText chunks].
  split; [reflexivity|]. split.
  - intros Hdead. apply all_failed_none_kept; [exact Hdead|].
    apply pageChunks_unembedded.
  - intros question m Hs. split.
    + rewrite (generateAnswer_summary ai question _ m Hs).
      unfold trace_of. cbn [fst fullText streamTrace]. right.
      apply in_or_app. left. now left.
    + intros Hle. unfold textToSend.
      destruct (js_length _ >? MAX_CHARS) eqn:G; [|reflexivity].
      rewrite Z.gtb_ltb in G. apply Z.ltb_lt in G. lia.
Qed.

Lemma C10_fullText_survives_embedding_failures_witness :
  exists evs k' doc,
    processPdf deadEmbeddingAi 20 (Pdf sevenPages) 0%nat = (evs, k', Return doc)
    /\ fullText doc = join (nl ++ nl) (map Page.text (pagesOf sevenPages))
    /\ chunks doc = [].
Proof.
  destruct (C10_fullText_survives_embedding_failures deadEmbeddingAi 20%nat
              sevenPages 0%nat ltac:(vm_compute; lia))
    as (evs & k' & doc & Hrun & Htext & Hchunks & _).
  exists evs, k', doc. repeat split; auto.
Defined.

(* ================================================================== *)
(** * Further properties of the code *)

Lemma length_append (s1 s2 : string) :
  String.length (s1 ++ s2) = (String.length s1 + String.length s2)%nat.
Proof. induction s1 as [|c s1 IH]; cbn; [reflexivity | now rewrite IH]. Qed.

Lemma substring_length (s : string) :
  forall n m, (n + m <= String.length s)%nat -> String.length (substring n m s) = m.
Proof.
  induction s as [|c s IH]; intros n m H.
  - cbn in H. assert (n = O /\ m = O) as [-> ->] by lia. reflexivity.
  - destruct n as [|n].
    + destruct m as [|m]; [reflexivity|]. cbn. rewrite IH; [reflexivity | cbn in H; lia].
    + cbn. apply IH. cbn in H. lia.
Qed.

Lemma substring_empty (s : string) (n : nat) : substring n 0 s = "".
Proof.
  revert n. induction s as [|c s IH]; intros [|n]; cbn; auto.
Qed.

Lemma substring_append (s : string) :
  forall n m k, (n + m + k <= String.length s)%nat ->
    substring n m s ++ substring (n + m) k s = substring n (m + k) s.
Proof.
  induction s as [|c s IH]; intros n m k H.
  - cbn in H. assert (n = O /\ m = O /\ k = O) as (-> & -> & ->) by lia. reflexivity.
  - destruct n as [|n].
    + destruct m as [|m].
      * cbn [Nat.add substring append]. reflexivity.
      * cbn [Nat.add substring append]. f_equal.
        apply (IH O m k). cbn in H. lia.
    + cbn [Nat.add substring]. apply IH. cbn in H. lia.
Qed.

Lemma substring_substring (s : string) :
  forall n m i j, (n + m <= String.length s)%nat -> (i + j <= m)%nat ->
    substring i j (substring n m s) = substring (n + i) j s.
Proof.
  induction s as [|c s IH]; intros n m i j H1 H2.
  - cbn in H1. assert (n = O /\ m = O /\ i = O /\ j = O) as (-> & -> & -> & ->) by lia.
    reflexivity.
  - destruct n as [|n].
    + destruct m as [|m].
      * assert (i = O /\ j = O) as [-> ->] by lia. reflexivity.
      * cbn [substring Nat.add]. destruct i as [|i].
        -- destruct j as [|j]; [reflexivity|]. cbn [substring]. f_equal.
           apply (IH O m O j); cbn in H1; lia.
        -- cbn [substring]. rewrite (IH O m i j) by (cbn in H1; lia). reflexivity.
    + cbn [substring Nat.add]. apply IH; cbn in H1; lia.
Qed.

(** [slice] between two indices within the string. *)
Lemma slice_inside (s : string) (a b : Z) :
  0 <= a <= b -> b <= js_length s ->
  slice s a b = substring (Z.to_nat a) (Z.to_nat (b - a)) s.
Proof.
  intros Hab Hb. unfold slice. cbv zeta.
  destruct (a <? 0) eqn:Ea; [apply Z.ltb_lt in Ea; lia|].
  destruct (b <? 0) eqn:Eb; [apply Z.ltb_lt in Eb; lia|].
  rewrite (Z.min_l a), (Z.min_l b), Z.max_l by lia. reflexivity.
Qed.

Lemma slice_length (s : string) (a b : Z) :
  0 <= a <= b -> b <= js_length s -> js_length (slice s a b) = b - a.
Proof.
  intros Hab Hb. rewrite slice_inside by assumption.
  unfold js_length in *. rewrite substring_length; lia.
Qed.

Lemma slice_append (s : string) (a b c : Z) :
  0 <= a <= b -> b <= c -> c <= js_length s ->
  slice s a b ++ slice s b c = slice s a c.
Proof.
  intros Hab Hbc Hc. rewrite !slice_inside by lia.
  replace (Z.to_nat b) with (Z.to_nat a + Z.to_nat (b - a))%nat by lia.
  replace (Z.to_nat (c - a)) with (Z.to_nat (b - a) + Z.to_nat (c - b))%nat by lia.
  apply substring_append. unfold js_length in Hc. lia.
Qed.

Lemma slice_from_beyond (t : string) (i : Z) :
  js_length t <= i -> slice_from t i = "".
Proof.
  intros H. unfold slice_from, slice. cbv zeta.
  assert (0 <= js_length t) by (unfold js_length; lia).
  destruct (i <? 0) eqn:Ei; [apply Z.ltb_lt in Ei; lia|].
  destruct (js_length t <? 0) eqn:Eb; [apply Z.ltb_lt in Eb; lia|].
  rewrite (Z.min_r i), Z.min_id, Z.sub_diag by lia. cbn [Z.max Z.to_nat].
  apply substring_empty.
Qed.

Lemma slice_from_slice (s : string) (a b i : Z) :
  0 <= a <= b -> b <= js_length s -> 0 <= i ->
  slice_from (slice s a b) i = slice s (Z.min (a + i) b) b.
Proof.
  intros Hab Hb Hi.
  destruct (Z.le_gt_cases i (b - a)) as [H|H].
  - unfold slice_from. rewrite (slice_length s a b) by assumption.
    rewrite (slice_inside (slice s a b) i (b - a)) by (rewrite ?slice_length; lia).
    rewrite (slice_inside s a b), (slice_inside s (Z.min (a + i) b) b) by lia.
    rewrite Z.min_l by lia.
    rewrite substring_substring by (unfold js_length in Hb; lia).
    f_equal; lia.
  - rewrite slice_from_beyond by (rewrite slice_length; lia).
    rewrite Z.min_r by lia.
    rewrite (slice_inside s b b) by lia. rewrite Z.sub_diag. cbn [Z.to_nat].
    now rewrite substring_empty.
Qed.

Lemma slice_all (s : string) : slice s 0 (js_length s) = s.
Proof.
  pose proof (slice_whole s (js_length s) ltac:(lia)) as H.
  now rewrite Z.min_id in H.
Qed.

Section ChunkWindows.
Variables chunkSize overlap : Z.
Variable txt : string.
Variable page : Z.
Hypothesis Hsize : 0 < chunkSize.
Hypothesis Hstep : 0 < chunkSize - overlap.

Lemma window_text (start : Z) :
  0 <= start < js_length txt ->
  text (window chunkSize txt page start)
  = substring (Z.to_nat start)
      (Z.to_nat (Z.min chunkSize (js_length txt - start))) txt
  /\ 1 <= js_length (text (window chunkSize txt page start)) <= chunkSize.
Proof.
  intros Hs. cbn [window text]. split.
  - rewrite slice_inside by lia. f_equal. lia.
  - rewrite slice_length by lia. lia.
Qed.

Lemma tail_windows (m : nat) :
  forall start,
    0 <= overlap ->
    0 <= start ->
    start + Z.of_nat m * (chunkSize - overlap) < js_length txt ->
    concat_all (map (fun c => slice_from (text c) overlap)
                  (map (window chunkSize txt page)
                     (offsets chunkSize overlap (S m) start)))
    = slice txt (Z.min (start + overlap) (js_length txt))
        (Z.min (start + Z.of_nat m * (chunkSize - overlap) + chunkSize) (js_length txt)).
Proof.
  induction m as [|m IH]; intros start Ho Hs Hlt.
  - cbn [offsets map concat_all fold_right window text].
    change (Z.of_nat 0) with 0 in *. rewrite Z.mul_0_l, Z.add_0_r in *.
    assert (Hlen : 0 <= js_length txt) by (unfold js_length; lia).
    rewrite append_empty_r.
    rewrite slice_from_slice by lia.
    replace (Z.min (start + overlap) (Z.min (start + chunkSize) (js_length txt)))
      with (Z.min (start + overlap) (js_length txt)) by lia.
    reflexivity.
  - assert (Hnn : 0 <= Z.of_nat m * (chunkSize - overlap))
      by (apply Z.mul_nonneg_nonneg; lia).
    assert (Hm : start + chunkSize - overlap + Z.of_nat m * (chunkSize - overlap)
                 < js_length txt) by lia.
    change (offsets chunkSize overlap (S (S m)) start)
      with (start :: offsets chunkSize overlap (S m) (start + (chunkSize - overlap))).
    cbn [map concat_all fold_right].
    change (fold_right append "" ?l) with (concat_all l).
    rewrite IH by lia.
    cbn [window text]. rewrite slice_from_slice by lia.
    replace (Z.min (start + overlap) (Z.min (start + chunkSize) (js_length txt)))
      with (Z.min (start + overlap) (js_length txt)) by lia.
    replace (Z.min (start + (chunkSize - overlap) + overlap) (js_length txt))
      with (Z.min (start + chunkSize) (js_length txt)) by (f_equal; lia).
    rewrite slice_append by lia.
    replace (start + (chunkSize - overlap) + Z.of_nat m * (chunkSize - overlap) + chunkSize)
      with (start + Z.of_nat (S m) * (chunkSize - overlap) + chunkSize) by lia.
    reflexivity.
Qed.

End ChunkWindows.

Lemma offsets_in_page (chunkSize overlap : Z) (txt : string) (start : Z) :
  0 < chunkSize - overlap ->
  In start (offsets chunkSize overlap (windowCount chunkSize overlap (js_length txt)) 0) ->
  0 <= start < js_length txt.
Proof.
  intros Hstep Hin. rewrite offsets_closed_form in Hin.
  apply in_map_iff in Hin. destruct Hin as (k & <- & Hk). apply in_seq in Hk.
  assert (Hlen : 0 <= js_length txt) by (unfold js_length; lia).
  destruct (windowCount_stop chunkSize overlap (js_length txt) Hstep Hlen) as [_ Hlow].
  specialize (Hlow k ltac:(lia)).
  assert (0 <= Z.of_nat k * (chunkSize - overlap)) by (apply Z.mul_nonneg_nonneg; lia).
  lia.
Qed.

(** X1: with a positive chunk size and a positive step, every chunk the
    chunker returns is a non-empty piece of one page's text of at most
    [chunkSize] characters, starting inside the text; it carries that page's
    number and no embedding yet. *)
Theorem chunks_are_bounded_pieces
    (chunkSize overlap : Z) (pages : list Page.t) (fuel : nat)
    (Hsize : 0 < chunkSize) (Hstep : 0 < chunkSize - overlap)
    (Hfuel : (chunkFuel pages <= fuel)%nat) :
  exists l,
    chunkText chunkSize overlap fuel pages = Some l
    /\ Forall (fun c =>
         embedding c = None
         /\ 1 <= js_length (text c) <= chunkSize
         /\ exists p start,
              In p pages /\ pageNumber c = Page.page p
              /\ 0 <= start < js_length (Page.text p)
              /\ text c = substring (Z.to_nat start)
                            (Z.to_nat (Z.min chunkSize (js_length (Page.text p) - start)))
                            (Page.text p)) l.
Proof.
  exists (flat_map (pageChunks chunkSize overlap) pages). split.
  - unfold chunkText. now rewrite forEachPage_concat.
  - apply Forall_forall. intros c Hc. apply in_flat_map in Hc.
    destruct Hc as (p & Hp & Hc). unfold pageChunks in Hc.
    apply in_map_iff in Hc. destruct Hc as (start & <- & Hs).
    apply offsets_in_page in Hs; [|exact Hstep].
    destruct (window_text chunkSize (Page.text p) (Page.page p) Hsize start Hs)
      as [Ht Hl].
    split; [reflexivity|]. split; [exact Hl|]. exists p, start. auto.
Qed.

Lemma chunks_are_bounded_pieces_witness :
  exists l,
    chunkText 4000 500 4501 [page_of_length 4500 1; page_of_length 100 2] = Some l
    /\ Forall (fun c => 1 <= js_length (text c) <= 4000) l.
Proof.
  destruct (chunks_are_bounded_pieces 4000 500
              [page_of_length 4500 1; page_of_length 100 2] 4501
              ltac:(lia) ltac:(lia) ltac:(vm_compute; lia)) as (l & Hl & Hb).
  exists l. split; [exact Hl|].
  eapply Forall_impl; [|exact Hb]. cbv beta. tauto.
Defined.

(** X2: with [0 <= overlap < chunkSize] no character of a page is lost: the
    page's text is its first chunk followed by every later chunk without its
    first [overlap] characters. *)
Theorem page_text_from_chunks
    (chunkSize overlap : Z) (p : Page.t) (fuel : nat)
    (Hoverlap : 0 <= overlap < chunkSize)
    (Hfuel : (chunkFuel [p] <= fuel)%nat) :
  exists l,
    chunkText chunkSize overlap fuel [p] = Some l
    /\ reassemble overlap l = Page.text p.
Proof.
  assert (Hstep : 0 < chunkSize - overlap) by lia.
  assert (Hsize : 0 < chunkSize) by lia.
  exists (pageChunks chunkSize overlap p). split.
  - unfold chunkText. rewrite forEachPage_concat by assumption.
    cbn [flat_map app]. now rewrite app_nil_r.
  - unfold pageChunks.
    set (txt := Page.text p). set (len := js_length txt).
    assert (Hlen : 0 <= len) by (unfold len, js_length; lia).
    destruct (windowCount_stop chunkSize overlap len Hstep Hlen) as [Hup Hlow].
    destruct (windowCount chunkSize overlap len) as [|n] eqn:En.
    + cbn. assert (E : len = 0) by lia. unfold len, js_length in E.
      destruct txt; [reflexivity | cbn in E; lia].
    + pose proof (Hlow n ltac:(lia)) as Hn.
      assert (Hnn : 0 <= Z.of_nat n * (chunkSize - overlap))
        by (apply Z.mul_nonneg_nonneg; lia).
      cbn [offsets map reassemble]. cbn [window text]. rewrite Z.add_0_l.
      destruct n as [|m].
      * cbn [offsets map concat_all fold_right]. rewrite append_empty_r.
        rewrite Z.min_r by (fold len; lia). apply slice_all.
      * rewrite (tail_windows chunkSize overlap txt (Page.page p) Hsize Hstep m)
          by (fold len; lia).
        fold len.
        replace (Z.min (0 + (chunkSize - overlap) + overlap) len)
          with (Z.min chunkSize len) by (f_equal; lia).
        rewrite slice_append by lia.
        rewrite Z.min_r by lia. apply slice_all.
Qed.

Lemma page_text_from_chunks_witness :
  exists l,
    chunkText 4000 500 4501 [page_of_length 4500 1] = Some l
    /\ reassemble 500 l = Page.text (page_of_length 4500 1).
Proof.
  apply (page_text_from_chunks 4000 500 (page_of_length 4500 1) 4501).
  - lia.
  - vm_compute. lia.
Defined.

(** ** Chunk ids *)

Lemma Z_to_string_inj (a b : Z) : Z_to_string a = Z_to_string b -> a = b.
Proof.
  unfold Z_to_string. intros H.
  assert (Hn : forall z, Z.to_int z <> Decimal.Pos Decimal.Nil
                         /\ Z.to_int z <> Decimal.Neg Decimal.Nil).
  { intros z. pose proof (DecimalZ.to_of (Z.to_int z)) as E.
    rewrite DecimalZ.of_to in E. split; intros C; rewrite C in E; discriminate. }
  apply DecimalZ.to_int_inj.
  assert (Ea := NilZero.isi (Z.to_int a) (proj1 (Hn a)) (proj2 (Hn a))).
  assert (Eb := NilZero.isi (Z.to_int b) (proj1 (Hn b)) (proj2 (Hn b))).
  rewrite H in Ea. congruence.
Qed.

Lemma digits_have_no_dash (d : Decimal.uint) :
  ~ In dash (list_ascii_of_string (NilEmpty.string_of_uint d)).
Proof.
  unfold dash. induction d as [|d IH|d IH|d IH|d IH|d IH|d IH|d IH|d IH|d IH|d IH];
    cbn; [tauto|..]; intros [C|C]; solve [discriminate C | exact (IH C)].
Qed.

Lemma number_has_no_dash (d : Decimal.uint) :
  ~ In dash (list_ascii_of_string (NilZero.string_of_uint d)).
Proof.
  destruct d; try apply digits_have_no_dash.
  unfold dash. cbn. intros [C|[]]. discriminate C.
Qed.

Lemma Z_to_string_no_dash (z : Z) :
  0 <= z -> ~ In dash (list_ascii_of_string (Z_to_string z)).
Proof.
  intros Hz. unfold Z_to_string. destruct z as [|p|p]; [| |lia];
    apply number_has_no_dash.
Qed.

Lemma split_at_dash (s1 : string) :
  forall t1 s2 t2,
    ~ In dash (list_ascii_of_string s1) ->
    ~ In dash (list_ascii_of_string t1) ->
    s1 ++ "-" ++ s2 = t1 ++ "-" ++ t2 -> s1 = t1 /\ s2 = t2.
Proof.
  induction s1 as [|c s1 IH]; intros [|d t1] s2 t2 Hs Ht E; cbn in E.
  - injection E as ->. auto.
  - injection E as <- _. exfalso. apply Ht. cbn. now left.
  - injection E as -> _. exfalso. apply Hs. cbn. now left.
  - injection E as -> E. destruct (IH t1 s2 t2) as [-> ->]; auto.
    + intros C. apply Hs. cbn. now right.
    + intros C. apply Ht. cbn. now right.
Qed.

Lemma idOf_inj (k1 k2 : Z * Z) :
  0 <= fst k1 -> 0 <= fst k2 -> idOf k1 = idOf k2 -> k1 = k2.
Proof.
  destruct k1 as [p1 s1], k2 as [p2 s2]. unfold idOf. cbn [fst snd].
  intros H1 H2 E.
  apply split_at_dash in E; auto using Z_to_string_no_dash.
  destruct E as [Ep Es]. apply Z_to_string_inj in Ep, Es. congruence.
Qed.

Lemma offsets_NoDup (chunkSize overlap : Z) (n : nat) :
  0 < chunkSize - overlap -> NoDup (offsets chunkSize overlap n 0).
Proof.
  intros Hstep. rewrite offsets_closed_form.
  apply NoDup_map_NoDup_ForallPairs; [|apply seq_NoDup].
  intros j k _ _ E. nia.
Qed.

Lemma windowKeys_NoDup (chunkSize overlap : Z) (pages : list Page.t) :
  0 < chunkSize - overlap ->
  NoDup (map Page.page pages) -> NoDup (windowKeys chunkSize overlap pages).
Proof.
  intros Hstep. induction pages as [|p rest IH]; intros Hp; cbn [windowKeys flat_map].
  - constructor.
  - cbn [map] in Hp. inversion Hp as [|? ? Hnot Hrest]; subst.
    apply NoDup_app.
    + apply NoDup_map_NoDup_ForallPairs; [|now apply offsets_NoDup].
      intros a b _ _ E. congruence.
    + apply IH, Hrest.
    + intros [pg s] H1 H2. apply in_map_iff in H1. destruct H1 as (s' & [= <- <-] & _).
      apply in_flat_map in H2. destruct H2 as (q & Hq & H2).
      apply in_map_iff in H2. destruct H2 as (s'' & [= E _] & _).
      apply Hnot. rewrite <- E. now apply in_map.
Qed.

Lemma chunk_ids_of_keys (chunkSize overlap : Z) (pages : list Page.t) :
  map id (flat_map (pageChunks chunkSize overlap) pages)
  = map idOf (windowKeys chunkSize overlap pages).
Proof.
  unfold windowKeys. induction pages as [|p rest IH]; [reflexivity|].
  cbn [flat_map]. rewrite !map_app, IH. f_equal.
  unfold pageChunks. rewrite !map_map. reflexivity.
Qed.

Lemma pageChunks_ids_NoDup (chunkSize overlap : Z) (pages : list Page.t) :
  0 < chunkSize - overlap ->
  NoDup (map Page.page pages) ->
  Forall (fun p => 0 <= Page.page p) pages ->
  NoDup (map id (flat_map (pageChunks chunkSize overlap) pages)).
Proof.
  intros Hstep Hpages Hnonneg.
  rewrite chunk_ids_of_keys.
  apply NoDup_map_NoDup_ForallPairs; [|now apply windowKeys_NoDup].
  intros k1 k2 H1 H2 E.
  assert (Hk : forall k, In k (windowKeys chunkSize overlap pages) -> 0 <= fst k).
  { intros [pg s] Hin. unfold windowKeys in Hin. apply in_flat_map in Hin.
    destruct Hin as (q & Hq & Hin). apply in_map_iff in Hin.
    destruct Hin as (s' & [= <- _] & _). rewrite Forall_forall in Hnonneg.
    now apply Hnonneg. }
  apply idOf_inj; auto.
Qed.

(** X3: when the pages carry distinct, non-negative page numbers (as those
    of the extractor do), the ids [page-start] of the chunks of a document
    are pairwise distinct. *)
Theorem chunk_ids_are_distinct
    (chunkSize overlap : Z) (pages : list Page.t) (fuel : nat)
    (Hstep : 0 < chunkSize - overlap)
    (Hpages : NoDup (map Page.page pages))
    (Hnonneg : Forall (fun p => 0 <= Page.page p) pages)
    (Hfuel : (chunkFuel pages <= fuel)%nat) :
  exists l,
    chunkText chunkSize overlap fuel pages = Some l /\ NoDup (map id l).
Proof.
  exists (flat_map (pageChunks chunkSize overlap) pages). split.
  - unfold chunkText. now rewrite forEachPage_concat.
  - now apply pageChunks_ids_NoDup.
Qed.

Lemma chunk_ids_are_distinct_witness :
  exists l,
    chunkText 4000 500 4501 [page_of_length 4500 1; page_of_length 100 2] = Some l
    /\ NoDup (map id l).
Proof.
  apply (chunk_ids_are_distinct 4000 500
           [page_of_length 4500 1; page_of_length 100 2] 4501).
  - lia.
  - repeat constructor; cbn; intuition discriminate.
  - repeat constructor; cbn; lia.
  - vm_compute. lia.
Defined.

(** ** The extractor *)

Lemma parsePages_numbers (pageItems : list (list string)) :
  forall (s : nat) (numPages : Z),
    map Page.page (parsePages (Z.of_nat s) numPages pageItems)
    = map Z.of_nat (seq s (List.length pageItems)).
Proof.
  induction pageItems as [|items rest IH]; intros s numPages; [reflexivity|].
  cbn [parsePages map List.length seq Page.page]. f_equal.
  replace (Z.of_nat s + 1) with (Z.of_nat (S s)) by lia. apply IH.
Qed.

Lemma parsePages_texts (pageItems : list (list string)) :
  forall (i numPages : Z),
    map Page.text (parsePages i numPages pageItems) = map (join " ") pageItems.
Proof.
  induction pageItems as [|items rest IH]; intros i numPages; [reflexivity|].
  cbn [parsePages map Page.text]. f_equal. apply IH.
Qed.

Lemma parseProgress_trace (pageItems : list (list string)) :
  forall (s : nat) (numPages : Z) (k : nat),
    parseProgress (Z.of_nat s) numPages pageItems k
    = (map (fun i => Progress (parseStatus numPages i))
         (map Z.of_nat (seq s (List.length pageItems))), k, Return tt).
Proof.
  induction pageItems as [|items rest IH]; intros s numPages k; [reflexivity|].
  cbn [parseProgress]. unfold bind, onProgress, emit.
  replace (Z.of_nat s + 1) with (Z.of_nat (S s)) by lia. rewrite IH.
  reflexivity.
Qed.

(** X4: on a readable file the extractor returns one page per page of the
    PDF, numbered 1, 2, ... in order, whose text is the page's items joined
    by single spaces; it reports 'Loading PDF...' and then one status per
    page, and issues no request. *)
Theorem extractor_numbers_pages (pageItems : list (list string)) (k : nat) :
  extractTextFromPdf (Pdf pageItems) k
  = (Progress "Loading PDF..."
       :: map (fun i => Progress (parseStatus (Z.of_nat (List.length pageItems)) i))
            (pageNumbers (List.length pageItems)),
     k, Return (pagesOf pageItems))
  /\ map Page.page (pagesOf pageItems) = pageNumbers (List.length pageItems)
  /\ map Page.text (pagesOf pageItems) = map (join " ") pageItems.
Proof.
  split; [|split].
  - unfold extractTextFromPdf, bind, onProgress, emit.
    change 1 with (Z.of_nat 1). rewrite parseProgress_trace. cbn.
    rewrite app_nil_r. reflexivity.
  - unfold pagesOf. change 1 with (Z.of_nat 1). apply parsePages_numbers.
  - apply parsePages_texts.
Qed.

(** ** The events of the embedding phase *)

Section EmbeddingEvents.
Variable ai : GoogleGenAI.

Lemma embedChunk_events (c : DocChunk) (k : nat) :
  embedding c = None ->
  embedChunk ai c k
  = (chunkEvents ai k c, S k,
     Return match embedResult ai k (text c) with
            | Some values => with_embedding c values
            | None => c
            end).
Proof.
  intros Hc.
  unfold embedChunk, getEmbedding, chunkEvents, embedResult, embedThrows, try_catch,
    bind, requestEmbedding.
  destruct (embedContent ai k (cleanText (text c))) as [|[[|[values|] more]|]];
    cbn; rewrite ?(assign_undefined c Hc); reflexivity.
Qed.

Lemma mapM_embedChunk_events (l : list DocChunk) :
  Forall (fun c => embedding c = None) l ->
  forall k,
    mapM (embedChunk ai) l k
    = (batchEvents ai k l, (k + List.length l)%nat, Return (embedded ai k l)).
Proof.
  induction 1 as [|c rest Hc _ IH]; intros k;
    cbn [mapM embedded List.length batchEvents].
  - unfold ret. now rewrite Nat.add_0_r.
  - unfold bind. rewrite (embedChunk_events c k Hc), IH. cbn. rewrite app_nil_r.
    repeat f_equal. lia.
Qed.

Lemma batchEvents_app (l1 l2 : list DocChunk) :
  forall k, batchEvents ai k (l1 ++ l2)
            = (batchEvents ai k l1 ++ batchEvents ai (k + List.length l1) l2)%list.
Proof.
  induction l1 as [|c rest IH]; intros k; cbn [batchEvents app List.length].
  - now rewrite Nat.add_0_r.
  - rewrite IH, <- app_assoc. now rewrite Nat.add_succ_r.
Qed.

Lemma batchEvents_no_progress (l : list DocChunk) :
  forall k, filter (fun ev => negb (is_progress ev)) (batchEvents ai k l)
            = batchEvents ai k l.
Proof.
  induction l as [|c rest IH]; intros k; [reflexivity|].
  cbn [batchEvents]. rewrite filter_app, IH. f_equal.
  unfold chunkEvents. destruct (embedThrows ai k (text c)); reflexivity.
Qed.

Lemma embedLoop_events (trips : nat) :
  forall i done todo k,
    (List.length done <= i)%nat ->
    todo = [] \/ List.length done = i ->
    (List.length todo <= batchSize * trips)%nat ->
    Forall (fun c => embedding c = None) todo ->
    exists evs,
      embedLoop ai trips i (done ++ todo) k
      = (evs, (k + List.length todo)%nat, Return (done ++ embedded ai k todo)%list)
      /\ filter (fun ev => negb (is_progress ev)) evs = batchEvents ai k todo.
Proof.
  induction trips as [|trips IH]; intros i done todo k Hle Hinv Hlen Hun.
  - assert (todo = []) by (destruct todo; [reflexivity | cbn in Hlen; lia]).
    subst todo. cbn [embedLoop]. rewrite app_nil_r.
    assert (E : (i <? List.length done)%nat = false) by (apply Nat.ltb_ge; lia).
    rewrite E. exists []. unfold ret. cbn. now rewrite Nat.add_0_r, app_nil_r.
  - destruct todo as [|c todo'].
    + cbn [embedLoop]. rewrite app_nil_r.
      assert (E : (i <? List.length done)%nat = false) by (apply Nat.ltb_ge; lia).
      rewrite E. exists []. unfold ret. cbn. now rewrite Nat.add_0_r, app_nil_r.
    + destruct Hinv as [Hinv|Hinv]; [discriminate|]. subst i.
      set (todo := c :: todo') in *.
      cbn [embedLoop].
      assert (E : (List.length done <? List.length (done ++ todo))%nat = true).
      { apply Nat.ltb_lt. rewrite length_app. unfold todo. cbn. lia. }
      rewrite E.
      assert (Hbatch : list_slice (done ++ todo) (List.length done)
                         (List.length done + batchSize) = firstn batchSize todo).
      { unfold list_slice. rewrite skipn_app, skipn_all, Nat.sub_diag. cbn [skipn app].
        f_equal. lia. }
      rewrite Hbatch.
      assert (Hfst : firstn (List.length done) (done ++ todo) = done).
      { rewrite firstn_app, firstn_all, Nat.sub_diag. cbn. apply app_nil_r. }
      assert (Hskp : skipn (List.length done + batchSize) (done ++ todo)
                     = skipn batchSize todo).
      { rewrite skipn_app, skipn_all2 by lia. cbn [app]. f_equal. lia. }
      rewrite Hfst, Hskp.
      destruct (Forall_firstn_skipn _ batchSize todo Hun) as [Hun1 Hun2].
      pose proof (mapM_embedChunk_events (firstn batchSize todo) Hun1 k) as E1.
      set (batch' := embedded ai k (firstn batchSize todo)) in *.
      destruct (IH (List.length done + batchSize)%nat (done ++ batch')%list
                  (skipn batchSize todo) (k + List.length (firstn batchSize todo))%nat)
        as (e2 & E2 & F2).
      * rewrite length_app. unfold batch'. rewrite embedded_length, length_firstn. lia.
      * destruct (Nat.le_gt_cases batchSize (List.length todo)) as [Hge|Hlt].
        -- right. rewrite length_app. unfold batch'.
           rewrite embedded_length, length_firstn. lia.
        -- left. apply skipn_all2. lia.
      * rewrite length_skipn. lia.
      * exact Hun2.
      * unfold bind, onProgress, emit. rewrite E1.
        rewrite app_assoc. rewrite E2. eexists. split.
        -- f_equal; [f_equal|].
           ++ rewrite length_skipn, length_firstn. lia.
           ++ f_equal. rewrite <- app_assoc. f_equal.
              rewrite <- (firstn_skipn batchSize todo) at 3.
              rewrite embedded_app. reflexivity.
        -- cbn [app filter is_progress negb]. rewrite filter_app, F2.
           rewrite batchEvents_no_progress.
           rewrite <- batchEvents_app, firstn_skipn. reflexivity.
Qed.

Lemma processPdf_events (fuel : nat) (pageItems : list (list string)) (k : nat) :
  (chunkFuel (pagesOf pageItems) <= fuel)%nat ->
  exists evs,
    processPdf ai fuel (Pdf pageItems) k
    = (evs, (k + List.length (documentChunks pageItems))%nat,
       Return {| chunks := filter has_embedding (embedded ai k (documentChunks pageItems));
                 fullText := join (nl ++ nl) (map Page.text (pagesOf pageItems)) |})
    /\ filter (fun ev => negb (is_progress ev)) evs
       = batchEvents ai k (documentChunks pageItems).
Proof.
  intros Hfuel. unfold documentChunks.
  set (pages := pagesOf pageItems) in *.
  set (chunks0 := flat_map (pageChunks DEFAULT_CHUNK_SIZE DEFAULT_OVERLAP) pages).
  assert (Hchunk : chunkText DEFAULT_CHUNK_SIZE DEFAULT_OVERLAP fuel pages = Some chunks0).
  { unfold chunkText. rewrite forEachPage_concat; [reflexivity | reflexivity | exact Hfuel]. }
  destruct (embedLoop_events (List.length chunks0) 0 [] chunks0 k) as (e2 & E2 & F2);
    [cbn; lia | now right | unfold batchSize; lia | apply pageChunks_unembedded |].
  cbn [app] in E2.
  unfold processPdf, extractTextFromPdf, bind, onProgress, emit, ret.
  change 1 with (Z.of_nat 1). rewrite parseProgress_trace.
  change (parsePages (Z.of_nat 1) (Z.of_nat (List.length pageItems)) pageItems) with pages.
  rewrite Hchunk. rewrite E2.
  eexists. split; [reflexivity|].
  cbn [app filter is_progress negb]. rewrite !filter_app. cbn [filter is_progress negb].
  rewrite !app_nil_r, F2.
  match goal with |- (?a ++ _)%list = _ => assert (Ha : a = []) end.
  { induction (map Z.of_nat (seq 1 (List.length pageItems))); [reflexivity|].
    cbn. exact IHl. }
  rewrite Ha. reflexivity.
Qed.

End EmbeddingEvents.

(** ** The document [processPdf] returns *)

Lemma pagesOf_numbers (pageItems : list (list string)) :
  map Page.page (pagesOf pageItems) = pageNumbers (List.length pageItems).
Proof.
  unfold pagesOf. change 1 with (Z.of_nat 1). apply parsePages_numbers.
Qed.

Lemma pageNumbers_range (n : nat) (i : Z) :
  In i (pageNumbers n) <-> 1 <= i <= Z.of_nat n.
Proof.
  unfold pageNumbers. rewrite in_map_iff. split.
  - intros (j & <- & Hj). apply in_seq in Hj. lia.
  - intros Hi. exists (Z.to_nat i). split; [lia|]. apply in_seq. lia.
Qed.

Lemma pageNumbers_NoDup (n : nat) : NoDup (pageNumbers n).
Proof.
  unfold pageNumbers. apply NoDup_map_NoDup_ForallPairs; [|apply seq_NoDup].
  intros a b _ _ E. lia.
Qed.

Lemma documentChunks_ids_NoDup (pageItems : list (list string)) :
  NoDup (map id (documentChunks pageItems)).
Proof.
  unfold documentChunks. apply pageChunks_ids_NoDup.
  - reflexivity.
  - rewrite pagesOf_numbers. apply pageNumbers_NoDup.
  - apply Forall_forall. intros p Hp.
    assert (H : In (Page.page p) (pageNumbers (List.length pageItems))).
    { rewrite <- pagesOf_numbers. now apply in_map. }
    apply pageNumbers_range in H. lia.
Qed.

Lemma documentChunks_shape (pageItems : list (list string)) (c : DocChunk) :
  In c (documentChunks pageItems) ->
  embedding c = None
  /\ 1 <= js_length (text c) <= DEFAULT_CHUNK_SIZE
  /\ 1 <= pageNumber c <= Z.of_nat (List.length pageItems).
Proof.
  unfold documentChunks. intros Hc. apply in_flat_map in Hc.
  destruct Hc as (p & Hp & Hc). unfold pageChunks in Hc.
  apply in_map_iff in Hc. destruct Hc as (start & <- & Hs).
  apply offsets_in_page in Hs; [|reflexivity].
  destruct (window_text DEFAULT_CHUNK_SIZE (Page.text p) (Page.page p)
              ltac:(reflexivity) start Hs) as [Ht Hl].
  split; [reflexivity|]. split; [exact Hl|].
  cbn [window pageNumber]. apply pageNumbers_range.
  rewrite <- pagesOf_numbers. now apply in_map.
Qed.

Lemma embedded_ids (ai : GoogleGenAI) (l : list DocChunk) :
  forall k, map id (embedded ai k l) = map id l.
Proof.
  induction l as [|c rest IH]; intros k; [reflexivity|].
  cbn [embedded map]. rewrite IH. f_equal.
  destruct (embedResult ai k (text c)); reflexivity.
Qed.

Lemma embedded_origin (ai : GoogleGenAI) (l : list DocChunk) :
  forall k c, In c (embedded ai k l) ->
    exists c0, In c0 l /\ id c = id c0 /\ text c = text c0
               /\ pageNumber c = pageNumber c0.
Proof.
  induction l as [|c0 rest IH]; intros k c Hc; [contradiction|].
  cbn [embedded] in Hc. destruct Hc as [<-|Hc].
  - exists c0. split; [now left|].
    destruct (embedResult ai k (text c0)); auto.
  - destruct (IH _ _ Hc) as (c1 & H1 & H2). exists c1. split; [now right | exact H2].
Qed.

Lemma NoDup_map_filter {A B} (g : A -> B) (f : A -> bool) (l : list A) :
  NoDup (map g l) -> NoDup (map g (filter f l)).
Proof.
  induction l as [|x rest IH]; intros H; [constructor|].
  cbn [map] in H. inversion H as [|? ? Hnot Hrest]; subst.
  cbn [filter]. destruct (f x); [|now apply IH].
  cbn [map]. constructor; [|now apply IH].
  intros Hin. apply Hnot. apply in_map_iff in Hin.
  destruct Hin as (y & <- & Hy). apply filter_In in Hy. apply in_map, Hy.
Qed.

(** X5: the document [processPdf] returns for a readable file holds only
    chunks that carry an embedding; each is one of the chunker's chunks
    (same id, text and page), of 1 to 4000 characters, on a page of the
    file; and no two chunks of the document share an id. *)
Theorem processed_chunks_embedded_and_distinct
    (ai : GoogleGenAI) (fuel : nat) (pageItems : list (list string)) (k : nat)
    (Hfuel : (chunkFuel (pagesOf pageItems) <= fuel)%nat) :
  exists evs k' doc l0,
    processPdf ai fuel (Pdf pageItems) k = (evs, k', Return doc)
    /\ chunkText DEFAULT_CHUNK_SIZE DEFAULT_OVERLAP fuel (pagesOf pageItems) = Some l0
    /\ Forall (fun c =>
         has_embedding c = true
         /\ 1 <= js_length (text c) <= DEFAULT_CHUNK_SIZE
         /\ 1 <= pageNumber c <= Z.of_nat (List.length pageItems)
         /\ exists c0, In c0 l0 /\ id c = id c0 /\ text c = text c0
                       /\ pageNumber c = pageNumber c0) (chunks doc)
    /\ NoDup (map id (chunks doc)).
Proof.
  destruct (processPdf_events ai fuel pageItems k Hfuel) as (evs & E & _).
  eexists evs, _, _, (documentChunks pageItems).
  split; [exact E|]. split.
  { unfold chunkText, documentChunks.
    rewrite forEachPage_concat; [reflexivity | reflexivity | exact Hfuel]. }
  cbn [chunks]. split.
  - apply Forall_forall. intros c Hc. apply filter_In in Hc. destruct Hc as [Hc He].
    split; [exact He|].
    destruct (embedded_origin ai _ _ _ Hc) as (c0 & H0 & Hid & Htxt & Hpg).
    destruct (documentChunks_shape pageItems c0 H0) as (_ & Hlen & Hpage).
    rewrite Htxt, Hpg. split; [exact Hlen|]. split; [exact Hpage|].
    exists c0. rewrite <- Htxt, <- Hpg. auto.
  - apply NoDup_map_filter. rewrite embedded_ids. apply documentChunks_ids_NoDup.
Qed.

Lemma processed_chunks_embedded_and_distinct_witness :
  exists evs k' doc l0,
    processPdf (sampleAi [1; 4]%nat answerStream) 20 (Pdf sevenPages) 0%nat
    = (evs, k', Return doc)
    /\ chunkText DEFAULT_CHUNK_SIZE DEFAULT_OVERLAP 20 (pagesOf sevenPages) = Some l0
    /\ Forall (fun c =>
         has_embedding c = true
         /\ 1 <= js_length (text c) <= DEFAULT_CHUNK_SIZE
         /\ 1 <= pageNumber c <= Z.of_nat (List.length sevenPages)
         /\ exists c0, In c0 l0 /\ id c = id c0 /\ text c = text c0
                       /\ pageNumber c = pageNumber c0) (chunks doc)
    /\ NoDup (map id (chunks doc)).
Proof.
  apply (processed_chunks_embedded_and_distinct (sampleAi [1; 4]%nat answerStream)
           20 sevenPages 0).
  vm_compute. lia.
Defined.

Lemma filter_filter_imp {A} (p q : A -> bool) (l : list A) :
  (forall x, p x = true -> q x = true) ->
  filter p (filter q l) = filter p l.
Proof.
  intros Himp. induction l as [|x rest IH]; [reflexivity|].
  cbn [filter]. destruct (q x) eqn:Eq.
  - cbn [filter]. now rewrite IH.
  - destruct (p x) eqn:Ep; [|exact IH].
    apply Himp in Ep. congruence.
Qed.

Lemma batchEvents_requests (ai : GoogleGenAI) (l : list DocChunk) :
  forall k, filter is_embed_request (batchEvents ai k l) = embedRequests l.
Proof.
  induction l as [|c rest IH]; intros k; [reflexivity|].
  cbn [batchEvents embedRequests map]. rewrite filter_app, IH.
  unfold chunkEvents. destruct (embedThrows ai k (text c)); reflexivity.
Qed.

(** X6: [processPdf] issues exactly one embedding request per chunk of the
    chunker, in the order of the chunks, each with the chunk's text in which
    every line feed is replaced by a space; a failed request is not tried
    again. *)
Theorem one_embedding_request_per_chunk
    (ai : GoogleGenAI) (fuel : nat) (pageItems : list (list string)) (k : nat)
    (Hfuel : (chunkFuel (pagesOf pageItems) <= fuel)%nat) :
  exists evs k' doc l0,
    processPdf ai fuel (Pdf pageItems) k = (evs, k', Return doc)
    /\ chunkText DEFAULT_CHUNK_SIZE DEFAULT_OVERLAP fuel (pagesOf pageItems) = Some l0
    /\ filter is_embed_request evs = embedRequests l0
    /\ k' = (k + List.length l0)%nat.
Proof.
  destruct (processPdf_events ai fuel pageItems k Hfuel) as (evs & E & F).
  eexists evs, _, _, (documentChunks pageItems).
  split; [exact E|]. split.
  { unfold chunkText, documentChunks.
    rewrite forEachPage_concat; [reflexivity | reflexivity | exact Hfuel]. }
  split; [|reflexivity].
  rewrite <- (batchEvents_requests ai _ k), <- F.
  symmetry. apply filter_filter_imp. now intros [].
Qed.

Lemma one_embedding_request_per_chunk_witness :
  exists evs k' doc l0,
    processPdf (sampleAi [1; 4]%nat answerStream) 20 (Pdf sevenPages) 0%nat
    = (evs, k', Return doc)
    /\ chunkText DEFAULT_CHUNK_SIZE DEFAULT_OVERLAP 20 (pagesOf sevenPages) = Some l0
    /\ filter is_embed_request evs = embedRequests l0
    /\ k' = (0 + List.length l0)%nat.
Proof.
  apply (one_embedding_request_per_chunk (sampleAi [1; 4]%nat answerStream)
           20 sevenPages 0).
  vm_compute. lia.
Defined.

Lemma append_inj_l (p a b : string) : p ++ a = p ++ b -> a = b.
Proof.
  induction p as [|ch p IH]; cbn; intros H; [exact H|].
  injection H as H. now apply IH.
Qed.

Lemma batchEvents_warning (ai : GoogleGenAI) (l : list DocChunk) :
  forall k msg, In (ConsoleWarn msg) (batchEvents ai k l) ->
    exists c, In c l /\ msg = "Failed to embed chunk " ++ id c.
Proof.
  induction l as [|c rest IH]; intros k msg H; [contradiction|].
  cbn [batchEvents] in H. apply in_app_or in H. destruct H as [H|H].
  - unfold chunkEvents in H. exists c. split; [now left|].
    destruct (embedThrows ai k (text c)); cbn in H.
    + destruct H as [H|[H|[H|[]]]]; try discriminate. now injection H.
    + destruct H as [H|[]]; discriminate.
  - destruct (IH _ _ H) as (c' & Hc' & E). exists c'. split; [now right | exact E].
Qed.

Lemma embed_outcomes (ai : GoogleGenAI) (k : nat) (txt : string) :
  (exists values, embedResult ai k txt = Some values
                  /\ embedThrows ai k txt = false /\ embedUndefined ai k txt = false)
  \/ (embedResult ai k txt = None
      /\ embedThrows ai k txt = true /\ embedUndefined ai k txt = false)
  \/ (embedResult ai k txt = None
      /\ embedThrows ai k txt = false /\ embedUndefined ai k txt = true).
Proof.
  unfold embedResult, embedThrows, embedUndefined.
  destruct (embedContent ai k (cleanText txt)) as [|[[|[v|] more]|]]; eauto 6.
Qed.

(** The warning naming the chunk at index [i] is logged exactly when its
    request, the [(k + i)]-th, makes [getEmbedding] throw. *)
Lemma warned_iff_thrown (ai : GoogleGenAI) (l : list DocChunk) :
  forall k i c0,
    NoDup (map id l) ->
    nth_error l i = Some c0 ->
    In (ConsoleWarn ("Failed to embed chunk " ++ id c0)) (batchEvents ai k l)
    <-> embedThrows ai (k + i) (text c0) = true.
Proof.
  induction l as [|c rest IH]; intros k i c0 Hnd Hnth; [now destruct i|].
  cbn [map] in Hnd. inversion Hnd as [|? ? Hnot Hrest]; subst.
  assert (Hwarn : forall c1, In (ConsoleWarn ("Failed to embed chunk " ++ id c1))
                               (batchEvents ai (S k) rest) -> In (id c1) (map id rest)).
  { intros c1 H. apply batchEvents_warning in H. destruct H as (c2 & H2 & E).
    apply append_inj_l in E. rewrite E. now apply in_map. }
  cbn [batchEvents]. rewrite in_app_iff. destruct i as [|i].
  - cbn in Hnth. injection Hnth as <-. rewrite Nat.add_0_r.
    unfold chunkEvents. destruct (embedThrows ai k (text c)); split.
    + reflexivity.
    + intros _. left. right. right. now left.
    + intros [[H|[]]|H]; [discriminate|]. exfalso. auto.
    + discriminate.
  - cbn in Hnth.
    assert (Hne : id c <> id c0).
    { intros E. apply Hnot. rewrite E. apply in_map. eapply nth_error_In, Hnth. }
    rewrite <- Nat.add_succ_comm. rewrite <- (IH (S k) i c0 Hrest Hnth).
    split; [|now right].
    intros [H|H]; [|exact H]. exfalso. unfold chunkEvents in H.
    destruct (embedThrows ai k (text c)); cbn in H.
    + destruct H as [H|[H|[H|[]]]]; try discriminate.
      apply Hne. apply (append_inj_l "Failed to embed chunk "). now injection H.
    + destruct H as [H|[]]; discriminate.
Qed.

(** The chunk at index [i] is kept exactly when its request returned a
    vector. *)
Lemma kept_iff_embedded (ai : GoogleGenAI) (l : list DocChunk) :
  forall k i c0,
    NoDup (map id l) ->
    Forall (fun c => embedding c = None) l ->
    nth_error l i = Some c0 ->
    In (id c0) (map id (filter has_embedding (embedded ai k l)))
    <-> exists values, embedResult ai (k + i) (text c0) = Some values.
Proof.
  induction l as [|c rest IH]; intros k i c0 Hnd Hun Hnth; [now destruct i|].
  cbn [map] in Hnd. inversion Hnd as [|? ? Hnot Hrest]; subst.
  inversion Hun as [|? ? Hc Hun']; subst.
  assert (Hsub : forall x, In x (map id (filter has_embedding (embedded ai (S k) rest)))
                           -> In x (map id rest)).
  { intros x Hx. apply in_map_iff in Hx. destruct Hx as (y & <- & Hy).
    apply filter_In in Hy. rewrite <- (embedded_ids ai rest (S k)).
    apply in_map, Hy. }
  cbn [embedded filter]. destruct i as [|i].
  - cbn in Hnth. injection Hnth as <-. rewrite Nat.add_0_r.
    destruct (embedResult ai k (text c)) as [values|] eqn:Er.
    + cbn [has_embedding with_embedding embedding map]. split; [eauto|].
      intros _. now left.
    + replace (has_embedding c) with false by (unfold has_embedding; now rewrite Hc).
      split; [|intros [v Hv]; discriminate].
      intros H. exfalso. auto.
  - cbn in Hnth.
    assert (Hne : id c <> id c0).
    { intros E. apply Hnot. rewrite E. apply in_map. eapply nth_error_In, Hnth. }
    rewrite <- Nat.add_succ_comm. rewrite <- (IH (S k) i c0 Hrest Hun' Hnth).
    destruct (embedResult ai k (text c)) as [values|] eqn:Er.
    + cbn [has_embedding with_embedding embedding map In]. split; [|now right].
      intros [E|H]; [now elim Hne | exact H].
    + replace (has_embedding c) with false by (unfold has_embedding; now rewrite Hc).
      reflexivity.
Qed.

(** X7: the warning 'Failed to embed chunk <id>' naming a chunk of the
    chunker is logged exactly when [getEmbedding] threw on its request (the
    request was rejected, or the response held no embedding), and such a
    chunk is never kept. A chunk is missing from the document [processPdf]
    returns exactly when that warning was logged or the first embedding of
    its response carried no values: in the latter case it is dropped
    without any warning. *)
Theorem dropped_chunks_are_reported
    (ai : GoogleGenAI) (fuel : nat) (pageItems : list (list string)) (k : nat)
    (Hfuel : (chunkFuel (pagesOf pageItems) <= fuel)%nat) :
  exists evs k' doc l0,
    processPdf ai fuel (Pdf pageItems) k = (evs, k', Return doc)
    /\ chunkText DEFAULT_CHUNK_SIZE DEFAULT_OVERLAP fuel (pagesOf pageItems) = Some l0
    /\ forall i c0, nth_error l0 i = Some c0 ->
         (In (ConsoleWarn ("Failed to embed chunk " ++ id c0)) evs
          <-> embedThrows ai (k + i) (text c0) = true)
         /\ (In (ConsoleWarn ("Failed to embed chunk " ++ id c0)) evs ->
             In (id c0) (map id (chunks doc)) -> False)
         /\ ((In (id c0) (map id (chunks doc)) -> False)
             <-> In (ConsoleWarn ("Failed to embed chunk " ++ id c0)) evs
                 \/ embedUndefined ai (k + i) (text c0) = true).
Proof.
  destruct (processPdf_events ai fuel pageItems k Hfuel) as (evs & E & F).
  eexists evs, _, _, (documentChunks pageItems).
  split; [exact E|]. split.
  { unfold chunkText, documentChunks.
    rewrite forEachPage_concat; [reflexivity | reflexivity | exact Hfuel]. }
  intros i c0 Hnth. cbn [chunks].
  assert (Hnd : NoDup (map id (documentChunks pageItems)))
    by apply documentChunks_ids_NoDup.
  assert (Hun : Forall (fun c => embedding c = None) (documentChunks pageItems)).
  { apply Forall_forall. intros c Hc. now apply documentChunks_shape in Hc. }
  assert (Hw : In (ConsoleWarn ("Failed to embed chunk " ++ id c0)) evs
               <-> embedThrows ai (k + i) (text c0) = true).
  { rewrite <- (warned_iff_thrown ai (documentChunks pageItems) k i c0 Hnd Hnth).
    rewrite <- F. rewrite filter_In. cbn. tauto. }
  pose proof (kept_iff_embedded ai (documentChunks pageItems) k i c0 Hnd Hun Hnth) as Hk.
  split; [exact Hw|].
  destruct (embed_outcomes ai (k + i) (text c0))
    as [(v & Hr & Ht & Hu)|[(Hr & Ht & Hu)|(Hr & Ht & Hu)]];
    rewrite Hw, Hk, Hr, Ht, Hu.
  - split; [discriminate|]. split.
    + intros H. exfalso. apply H. now exists v.
    + intros [H|H]; discriminate.
  - split; [intros _ [v Hv]; discriminate|]. split; [now left|].
    intros _ [v Hv]. discriminate.
  - split; [discriminate|]. split; [now right|].
    intros _ [v Hv]. discriminate.
Qed.

Lemma dropped_chunks_are_reported_witness :
  exists evs doc,
    processPdf patchyAi 20 (Pdf sevenPages) 0%nat = (evs, 7%nat, Return doc)
    /\ map id (chunks doc) = ["1-0"; "3-0"; "4-0"; "6-0"; "7-0"]
    /\ filter is_warning evs = [ConsoleWarn "Failed to embed chunk 2-0"].
Proof.
  assert (Hfuel : (chunkFuel (pagesOf sevenPages) <= 20)%nat) by (vm_compute; lia).
  destruct (dropped_chunks_are_reported patchyAi 20 sevenPages 0%nat Hfuel)
    as (evs & k' & doc & l0 & Hrun & _).
  exists evs, doc.
  assert (E : processPdf patchyAi 20 (Pdf sevenPages) 0%nat
              = (evs, 7%nat, Return doc)
              /\ map id (chunks doc) = ["1-0"; "3-0"; "4-0"; "6-0"; "7-0"]
              /\ filter is_warning evs = [ConsoleWarn "Failed to embed chunk 2-0"]).
  { revert Hrun. vm_compute. intros [= <- <- <-]. repeat split. }
  exact E.
Defined.

Lemma streamTrace_one_request (ai : GoogleGenAI) (prompt : string) :
  filter is_generate_request (streamTrace ai prompt) = [GenerateRequest prompt].
Proof.
  unfold streamTrace. cbn [filter is_generate_request]. f_equal.
  assert (H : forall l, filter is_generate_request (map Yield l) = [])
    by (induction l; cbn; auto).
  destruct (generateContentStream ai prompt) as [|texts [|]];
    [reflexivity | apply H | rewrite filter_app, H; reflexivity].
Qed.

Lemma citationOf_no_request (top : list ScoredChunk) :
  filter is_generate_request (citationOf top) = [].
Proof.
  unfold citationOf. now destruct (0 <? List.length (uniquePages top))%nat.
Qed.

(** X8: [generateAnswer] either completes, having issued exactly one
    generation request, or throws on the retrieval path before anything is
    requested from the generation model or yielded: a thrown error never
    comes with a partial answer. *)
Theorem generateAnswer_throws_before_answering
    (ai : GoogleGenAI) (question : string) (docData : ProcessedDocument) (n : nat) :
  (completion_of (generateAnswer ai question docData n) = Return tt
   /\ List.length (filter is_generate_request
                     (trace_of (generateAnswer ai question docData n))) = 1%nat)
  \/ (exists e,
        completion_of (generateAnswer ai question docData n) = Throw e
        /\ isSummaryRequest question = false
        /\ yields (trace_of (generateAnswer ai question docData n)) = []
        /\ filter is_generate_request
             (trace_of (generateAnswer ai question docData n)) = []).
Proof.
  destruct (generateAnswer_paths ai question docData n)
    as [(Hs & Hrun)|[(Hs & Ht & top & Hr & Hrun)|[(Hs & Hrun)|(Hs & He & e & Hrun)]]];
    rewrite Hrun.
  - left. split; [reflexivity|]. unfold trace_of. cbn [fst filter is_generate_request].
    rewrite filter_app, streamTrace_one_request. reflexivity.
  - left. split; [reflexivity|]. unfold trace_of. cbn [fst filter is_generate_request].
    rewrite filter_app, streamTrace_one_request, citationOf_no_request. reflexivity.
  - right. exists TypeError. repeat split; assumption || reflexivity.
  - right. exists e. repeat split; assumption || reflexivity.
Qed.



(** ** cosineSimilarity *)

Lemma mul_comm (a b : float) : (a * b = b * a)%float.
Proof.
  apply Prim2SF_inj. rewrite !mul_spec. unfold SF64mul, SFmul.
  destruct (Prim2SF a) as [sa|sa| |sa ma ea], (Prim2SF b) as [sb|sb| |sb mb eb];
    try reflexivity; try (now rewrite xorb_comm).
  now rewrite xorb_comm, Pos.mul_comm, Z.add_comm.
Qed.

Lemma nan_spec : Prim2SF nan = S754_nan.
Proof. reflexivity. Qed.

Lemma mul_nan_r (a : float) : (a * nan = nan)%float.
Proof.
  apply Prim2SF_inj. rewrite mul_spec, nan_spec. unfold SF64mul, SFmul.
  now destruct (Prim2SF a).
Qed.

Lemma add_nan_r (a : float) : (a + nan = nan)%float.
Proof.
  apply Prim2SF_inj. rewrite add_spec, nan_spec. unfold SF64add, SFadd.
  now destruct (Prim2SF a).
Qed.

Lemma add_nan_l (a : float) : (nan + a = nan)%float.
Proof.
  apply Prim2SF_inj. rewrite add_spec, nan_spec. reflexivity.
Qed.

Lemma div_nan_l (a : float) : (nan / a = nan)%float.
Proof.
  apply Prim2SF_inj. rewrite div_spec, nan_spec. reflexivity.
Qed.

Lemma cosineLoop_swap (vecA : list float) :
  forall vecB dotProduct normA normB,
    List.length vecA = List.length vecB ->
    cosineLoop vecB vecA dotProduct normB normA
    = (let '(d, na, nb) := cosineLoop vecA vecB dotProduct normA normB in (d, nb, na)).
Proof.
  induction vecA as [|a restA IH]; intros [|b restB] d na nb Hlen;
    try discriminate; [reflexivity|].
  cbn [cosineLoop tl]. rewrite (mul_comm b a). apply IH. now injection Hlen.
Qed.

(** X10: on vectors of the same length the similarity is symmetric, bit for
    bit: [cosineSimilarity(a, b)] and [cosineSimilarity(b, a)] are the same
    number. *)
Theorem cosineSimilarity_symmetric (vecA vecB : list float)
    (Hlen : List.length vecA = List.length vecB) :
  cosineSimilarity vecA vecB = cosineSimilarity vecB vecA.
Proof.
  unfold cosineSimilarity. rewrite (cosineLoop_swap vecA vecB _ _ _ Hlen).
  destruct (cosineLoop vecA vecB 0 0 0) as [[d na] nb].
  now rewrite mul_comm.
Qed.

Lemma cosineSimilarity_symmetric_witness :
  cosineSimilarity [1%float; 2%float] [3%float; 4%float]
  = cosineSimilarity [3%float; 4%float] [1%float; 2%float].
Proof.
  apply (cosineSimilarity_symmetric [1%float; 2%float] [3%float; 4%float]).
  reflexivity.
Defined.

Lemma cosineLoop_nan (vecA : list float) :
  forall vecB normA normB,
    fst (fst (cosineLoop vecA vecB nan normA normB)) = nan.
Proof.
  induction vecA as [|a restA IH]; intros vecB na nb; [reflexivity|].
  cbn [cosineLoop]. rewrite add_nan_l. apply IH.
Qed.

Lemma cosineLoop_short (vecA : list float) :
  forall vecB dotProduct normA normB,
    (List.length vecB < List.length vecA)%nat ->
    fst (fst (cosineLoop vecA vecB dotProduct normA normB)) = nan.
Proof.
  induction vecA as [|a restA IH]; intros vecB d na nb Hlen; [cbn in Hlen; lia|].
  cbn [cosineLoop]. destruct vecB as [|b restB].
  - rewrite mul_nan_r, add_nan_r. apply cosineLoop_nan.
  - cbn [tl]. apply IH. cbn in Hlen. lia.
Qed.

(** X11: when the first vector has more components than the second, or has
    none, the similarity is NaN (the missing components read as
    [undefined]; an empty loop divides zero by zero). *)
Theorem cosineSimilarity_mismatch_is_nan (vecA vecB : list float)
    (Hlen : (List.length vecB < List.length vecA)%nat \/ vecA = []) :
  cosineSimilarity vecA vecB = nan.
Proof.
  destruct Hlen as [Hlen| ->]; [|reflexivity].
  unfold cosineSimilarity.
  pose proof (cosineLoop_short vecA vecB 0 0 0 Hlen) as H.
  destruct (cosineLoop vecA vecB 0 0 0) as [[d na] nb]. cbn in H. subst d.
  apply div_nan_l.
Qed.

Lemma cosineSimilarity_mismatch_is_nan_witness :
  cosineSimilarity [1%float; 2%float; 3%float] [1%float; 2%float] = nan.
Proof.
  apply (cosineSimilarity_mismatch_is_nan [1%float; 2%float; 3%float] [1%float; 2%float]).
  left. cbn. lia.
Defined.

Lemma cosineLoop_firstn (vecA : list float) :
  forall vecB dotProduct normA normB,
    cosineLoop vecA (firstn (List.length vecA) vecB) dotProduct normA normB
    = cosineLoop vecA vecB dotProduct normA normB.
Proof.
  induction vecA as [|a restA IH]; intros vecB d na nb; [reflexivity|].
  cbn [cosineLoop List.length]. destruct vecB as [|b restB].
  - cbn [firstn tl]. rewrite <- (IH []). now destruct (List.length restA).
  - cbn [firstn tl]. apply IH.
Qed.

(** X12: only the first [vecA.length] components of the second vector are
    read: components of [vecB] beyond the length of [vecA] do not change the
    similarity. *)
Theorem cosineSimilarity_ignores_extra_components (vecA vecB : list float) :
  cosineSimilarity vecA (firstn (List.length vecA) vecB) = cosineSimilarity vecA vecB.
Proof.
  unfold cosineSimilarity. now rewrite cosineLoop_firstn.
Qed.

(** ** The services *)

Lemma cleanText_length (s : string) : js_length (cleanText s) = js_length s.
Proof.
  unfold js_length. f_equal. induction s as [|c rest IH]; [reflexivity|].
  cbn [cleanText String.length]. now rewrite IH.
Qed.

Lemma cleanText_no_line_feed (s : string) :
  In line_feed (list_ascii_of_string (cleanText s)) -> False.
Proof.
  induction s as [|c rest IH]; [intros []|].
  cbn [cleanText list_ascii_of_string]. intros [H|H]; [|now apply IH].
  destruct (Ascii.eqb c "010") eqn:E; [discriminate|].
  apply Ascii.eqb_neq in E. apply E. exact H.
Qed.

Lemma cleanText_fixpoint (s : string) :
  cleanText s = s <-> (In line_feed (list_ascii_of_string s) -> False).
Proof.
  split.
  - intros E. rewrite <- E. apply cleanText_no_line_feed.
  - induction s as [|c rest IH]; [reflexivity|].
    cbn [cleanText list_ascii_of_string]. intros H.
    destruct (Ascii.eqb c "010") eqn:E.
    + apply Ascii.eqb_eq in E. exfalso. apply H. left. exact E.
    + f_equal. apply IH. intros Hin. apply H. now right.
Qed.

(** X13: [getEmbedding] issues exactly one request, for the text in which
    every line feed is replaced by a space (same length, no line feed left,
    unchanged when there was none); it returns the values of the first
    embedding of the response ([undefined] when that embedding carries
    none), and otherwise logs 'Embedding error:' and throws: the rejection
    itself, or 'No embedding returned' when the response has no embedding. *)
Theorem getEmbedding_outcome (ai : GoogleGenAI) (txt : string) (k : nat) :
  js_length (cleanText txt) = js_length txt
  /\ (In line_feed (list_ascii_of_string (cleanText txt)) -> False)
  /\ (cleanText txt = txt <-> (In line_feed (list_ascii_of_string txt) -> False))
  /\ getEmbedding ai txt k
     = match embedContent ai k (cleanText txt) with
       | EmbedResponse (Some (values :: _)) =>
           ([EmbedRequest (cleanText txt)], S k, Return values)
       | EmbedResponse _ =>
           ([EmbedRequest (cleanText txt); ConsoleError "Embedding error:"], S k,
            Throw (Error "No embedding returned"))
       | EmbedRejected =>
           ([EmbedRequest (cleanText txt); ConsoleError "Embedding error:"], S k,
            Throw Rejection)
       end.
Proof.
  split; [apply cleanText_length|]. split; [apply cleanText_no_line_feed|].
  split; [apply cleanText_fixpoint|].
  unfold getEmbedding, try_catch, bind, requestEmbedding.
  destruct (embedContent ai k (cleanText txt)) as [|[[|values more]|]]; reflexivity.
Qed.

Lemma fragmentsOf_nonempty (texts : list (option string)) :
  Forall (fun v => v <> "") (fragmentsOf texts).
Proof.
  induction texts as [|[[|c rest]|] more IH]; cbn [fragmentsOf]; auto.
  constructor; [discriminate | exact IH].
Qed.

(** X14: [getCompletionStream] never throws: it issues one generation
    request for the prompt and completes, whatever the client does; and
    every fragment it yields is a non-empty string (chunks without text are
    skipped). *)
Theorem getCompletionStream_never_throws (ai : GoogleGenAI) (prompt : string) (n : nat) :
  exists evs,
    getCompletionStream ai prompt n = (GenerateRequest prompt :: evs, n, Return tt)
    /\ filter is_generate_request evs = []
    /\ Forall (fun v => v <> "") (yields (GenerateRequest prompt :: evs)).
Proof.
  rewrite getCompletionStream_run.
  pose proof (streamTrace_one_request ai prompt) as H1.
  pose proof (streamTrace_yields ai prompt) as H2.
  unfold streamTrace in *. eexists. split; [reflexivity|].
  cbn [filter is_generate_request] in H1. injection H1 as H1.
  split; [exact H1|]. rewrite H2.
  assert (Herr : ERROR_FRAGMENT <> "") by discriminate.
  destruct (generateContentStream ai prompt) as [|texts [|]].
  - now constructor.
  - apply fragmentsOf_nonempty.
  - apply Forall_app. split; [apply fragmentsOf_nonempty | now constructor].
Qed.

(** X15: [getCompletion] never throws and never returns the empty string:
    after its one generation request it returns the response's text when
    that is non-empty, the apology when the text is absent or empty, and the
    error sentence (after logging) when the request is rejected. *)
Theorem getCompletion_never_empty
    (generateContent : string -> generate_outcome) (prompt : string) (n : nat) :
  exists evs answer,
    getCompletion generateContent prompt n
    = (GenerateRequest prompt :: evs, n, Return answer)
    /\ answer <> ""
    /\ match generateContent prompt with
       | GenerateRejected =>
           evs = [ConsoleError "Generation error:"] /\ answer = GENERATION_ERROR
       | GenerateResponse (Some txt) =>
           evs = [] /\ answer = (if String.eqb txt "" then FALLBACK_ANSWER else txt)
       | GenerateResponse None => evs = [] /\ answer = FALLBACK_ANSWER
       end.
Proof.
  unfold getCompletion, try_catch, bind, emit, throw, ret.
  destruct (generateContent prompt) as [|[[|c rest]|]]; cbn;
    eexists _, _; (split; [reflexivity|]); split; try discriminate; auto.
Qed.

(** ** Chat turns in general *)

Lemma generateAnswer_cases (ai : GoogleGenAI) (question : string)
    (docData : ProcessedDocument) (n : nat) :
  (exists evs n',
      generateAnswer ai question docData n = (evs, n', Return tt)
      /\ (n' <= S n)%nat
      /\ List.length (filter is_generate_request evs) = 1%nat)
  \/ (exists evs e,
        generateAnswer ai question docData n = (evs, S n, Throw e)
        /\ isSummaryRequest question = false
        /\ yields evs = []
        /\ filter is_generate_request evs = []).
Proof.
  destruct (generateAnswer_paths ai question docData n)
    as [(Hs & Hrun)|[(Hs & Ht & top & Hr & Hrun)|[(Hs & Hrun)|(Hs & He & e & Hrun)]]];
    rewrite Hrun.
  - left. eexists _, _. split; [reflexivity|]. split; [lia|].
    cbn [filter is_generate_request].
    rewrite filter_app, streamTrace_one_request. reflexivity.
  - left. eexists _, _. split; [reflexivity|]. split; [lia|].
    cbn [filter is_generate_request].
    rewrite filter_app, streamTrace_one_request, citationOf_no_request. reflexivity.
  - right. eexists _, _. repeat split; assumption || reflexivity.
  - right. eexists _, _. repeat split; assumption || reflexivity.
Qed.

Lemma generateAnswer_logs_first (ai : GoogleGenAI) (question : string)
    (docData : ProcessedDocument) (n : nat) :
  exists msg rest,
    trace_of (generateAnswer ai question docData n) = ConsoleLog msg :: rest.
Proof.
  destruct (generateAnswer_paths ai question docData n)
    as [(Hs & Hrun)|[(Hs & Ht & top & Hr & Hrun)|[(Hs & Hrun)|(Hs & He & e & Hrun)]]];
    rewrite Hrun; eexists _, _; reflexivity.
Qed.

(** X16: a turn that starts always ends. For a non-blank message on a
    loaded document while nothing is generating, [handleSendMessage]
    completes whatever the other handlers of the page do meanwhile, after
    at most one embedding request, and if the component is still mounted
    [isGenerating] is false again. When no other handler runs during the
    turn, the component stays mounted, the document and the active chat are
    unchanged, and the transcript is extended by exactly the user's message
    and one assistant message: the fragments of [generateAnswer] put
    together when it completed, and the connection error when it threw, in
    which case no fragment had been shown. *)
Theorem chat_turn_always_ends
    (ai : GoogleGenAI) (others : App.Others) (message : string) (st : App.State)
    (doc : ProcessedDocument) (n : nat)
    (Hdoc : App.processedDoc st = Some doc)
    (Hmsg : App.is_blank message = false)
    (Hgen : App.isGenerating st = false) :
  (exists evs n' screen,
     App.handleSendMessage ai others message st n = (evs, n', Return screen)
     /\ (n' <= S n)%nat
     /\ forall st', screen = App.Mounted st' -> App.isGenerating st' = false)
  /\ ((forall k s, others k s = s) ->
      exists evs n' st' reply,
        App.handleSendMessage ai others message st n
        = (evs, n', Return (App.Mounted st'))
        /\ App.messages st'
           = (App.messages st ++ [App.mkMessage App.user message;
                                  App.mkMessage App.assistant reply])%list
        /\ App.isGenerating st' = false
        /\ App.processedDoc st' = Some doc
        /\ App.activeChatId st' = App.activeChatId st
        /\ (n' <= S n)%nat
        /\ match completion_of (generateAnswer ai message doc n) with
           | Return _ =>
               reply = concat_all (yields (trace_of (generateAnswer ai message doc n)))
           | _ =>
               reply = "Error connecting to Gemini. Please check your network or API key."
               /\ yields (trace_of (generateAnswer ai message doc n)) = []
           end).
Proof.
  destruct (generateAnswer_cases ai message doc n)
    as [(evs & n' & Hrun & Hn & _)|(evs & e & Hrun & _ & Hy & _)].
  - split.
    + destruct (handleSendMessage_disturbed ai others message st doc n n' evs (Return tt)
                  (concat_all (yields evs)) Hdoc Hmsg Hgen Hrun eq_refl)
        as (more & screen & Hh & Hs).
      eexists _, n', screen. split; [exact Hh|]. split; [exact Hn|].
      intros st' Hm. now apply Hs.
    + intros Hquiet.
      destruct (handleSendMessage_state ai others message st doc n n' evs (Return tt)
                  (concat_all (yields evs)) Hquiet Hdoc Hmsg Hgen Hrun eq_refl)
        as [log H].
      rewrite Hrun. eexists _, _, _, _. split; [exact H|].
      cbn. repeat split; auto.
  - split.
    + destruct (handleSendMessage_disturbed ai others message st doc n (S n) evs (Throw e)
                  App.CONNECT_ERROR Hdoc Hmsg Hgen Hrun eq_refl)
        as (more & screen & Hh & Hs).
      eexists _, (S n), screen. split; [exact Hh|]. split; [lia|].
      intros st' Hm. now apply Hs.
    + intros Hquiet.
      destruct (handleSendMessage_state ai others message st doc n (S n) evs (Throw e)
                  App.CONNECT_ERROR Hquiet Hdoc Hmsg Hgen Hrun eq_refl) as [log H].
      rewrite Hrun. eexists _, _, _, _. split; [exact H|].
      cbn. repeat split; auto.
Qed.

Lemma chat_turn_always_ends_witness :
  exists evs n' st' reply,
    App.handleSendMessage deadEmbeddingAi App.quiet clauseQuestion readyState 0%nat
    = (evs, n', Return (App.Mounted st'))
    /\ App.messages st'
       = (App.messages readyState ++ [App.mkMessage App.user clauseQuestion;
                                      App.mkMessage App.assistant reply])%list
    /\ App.isGenerating st' = false
    /\ reply = App.CONNECT_ERROR.
Proof.
  destruct (chat_turn_always_ends deadEmbeddingAi App.quiet clauseQuestion readyState
              tenChunkDocument 0%nat eq_refl eq_refl eq_refl) as [_ Hquiet].
  destruct (Hquiet (fun _ _ => eq_refl))
    as (evs & n' & st' & reply & H1 & H2 & H3 & _ & _ & _ & H7).
  exists evs, n', st', reply. repeat split; try assumption.
  change (completion_of (generateAnswer deadEmbeddingAi clauseQuestion tenChunkDocument 0%nat))
    with (@Throw unit Rejection) in H7.
  apply H7.
Defined.

(** X17: when no other handler runs during the turn, after it every chat of
    the history whose id is the active one stores exactly the transcript on
    display, and every other chat is unchanged, in the same order; with no
    active chat the history is untouched. *)
Theorem chat_history_matches_transcript
    (ai : GoogleGenAI) (others : App.Others) (message : string) (st : App.State)
    (doc : ProcessedDocument) (n : nat)
    (Hquiet : forall k s, others k s = s)
    (Hdoc : App.processedDoc st = Some doc)
    (Hmsg : App.is_blank message = false)
    (Hgen : App.isGenerating st = false) :
  exists evs n' st',
    App.handleSendMessage ai others message st n = (evs, n', Return (App.Mounted st'))
    /\ App.chats st'
       = match App.activeChatId st with
         | None => App.chats st
         | Some cid => map (storeMessages cid (App.messages st')) (App.chats st)
         end.
Proof.
  destruct (generateAnswer_cases ai message doc n)
    as [(evs & n' & Hrun & _)|(evs & e & Hrun & _)].
  - destruct (handleSendMessage_state ai others message st doc n n' evs (Return tt)
                (concat_all (yields evs)) Hquiet Hdoc Hmsg Hgen Hrun eq_refl) as [log H].
    eexists _, _, _. split; [exact H|]. reflexivity.
  - destruct (handleSendMessage_state ai others message st doc n (S n) evs (Throw e)
                App.CONNECT_ERROR Hquiet Hdoc Hmsg Hgen Hrun eq_refl) as [log H].
    eexists _, _, _. split; [exact H|]. reflexivity.
Qed.

Lemma chat_history_matches_transcript_witness :
  exists evs n' st',
    App.handleSendMessage (sampleAi [] answerStream) App.quiet clauseQuestion
      activeState 0%nat = (evs, n', Return (App.Mounted st'))
    /\ App.chats st'
       = map (storeMessages "1700000000000" (App.messages st')) (App.chats activeState).
Proof.
  apply (chat_history_matches_transcript (sampleAi [] answerStream) App.quiet
           clauseQuestion activeState tenChunkDocument 0%nat
           (fun _ _ => eq_refl) eq_refl eq_refl eq_refl).
Defined.

(** X18: whatever the other handlers of the page do, [handleSendMessage]
    does nothing (same state, no event, no request) exactly when no document
    is loaded, the message is blank, or an answer is being generated. *)
Theorem chat_turn_guard
    (ai : GoogleGenAI) (others : App.Others) (message : string) (st : App.State)
    (n : nat) :
  App.handleSendMessage ai others message st n = ([], n, Return (App.Mounted st))
  <-> (App.processedDoc st = None \/ App.is_blank message = true
       \/ App.isGenerating st = true).
Proof.
  split.
  - intros H.
    destruct (App.processedDoc st) as [doc|] eqn:Hdoc; [|now left].
    destruct (App.is_blank message) eqn:Hmsg; [now right; left|].
    destruct (App.isGenerating st) eqn:Hgen; [now right; right|].
    exfalso.
    destruct (generateAnswer_logs_first ai message doc n) as (msg & rest & Hlog).
    destruct (generateAnswer_cases ai message doc n)
      as [(evs & n' & Hrun & _)|(evs & e & Hrun & _)];
      rewrite Hrun in Hlog; unfold trace_of in Hlog; cbn [fst] in Hlog; subst evs.
    + destruct (handleSendMessage_disturbed ai others message st doc n n'
                  (ConsoleLog msg :: rest) (Return tt)
                  (concat_all (yields (ConsoleLog msg :: rest)))
                  Hdoc Hmsg Hgen Hrun eq_refl) as (more & screen & E & _).
      rewrite E in H. discriminate.
    + destruct (handleSendMessage_disturbed ai others message st doc n (S n)
                  (ConsoleLog msg :: rest) (Throw e) App.CONNECT_ERROR
                  Hdoc Hmsg Hgen Hrun eq_refl) as (more & screen & E & _).
      rewrite E in H. discriminate.
  - unfold App.handleSendMessage. intros [H|[H|H]].
    + now rewrite H.
    + destruct (App.processedDoc st); [|reflexivity]. now rewrite H.
    + destruct (App.processedDoc st); [|reflexivity]. rewrite H.
      now rewrite orb_true_r.
Qed.

Lemma consume_unmounts (others : App.Others) (before : list event) :
  forall k acc st fragment after,
    (forall s, App.messages (others (k + List.length before)%nat s) = []) ->
    snd (App.consume others k (before ++ Yield fragment :: after) acc st)
    = App.Unmounted.
Proof.
  induction before as [|ev before IH]; intros k acc st fragment after Hclear.
  - cbn [app App.consume List.length] in *. rewrite Nat.add_0_r in Hclear.
    unfold App.showResponse. rewrite Hclear. reflexivity.
  - cbn [app List.length] in *. rewrite <- Nat.add_succ_comm in Hclear.
    destruct ev; cbn [App.consume]; try (apply IH; exact Hclear).
    destruct (App.showResponse (acc ++ fragment0) (App.messages (others k st)));
      [apply IH; exact Hclear | reflexivity].
Qed.

(** X26: a New Chat click while an answer is streaming takes the page
    down. If, during a turn, the transcript has been cleared (as
    [createNewChat] does) when a fragment of the answer arrives, the updater
    of the streaming loop reads the role of a last message that does not
    exist and throws: [handleSendMessage] still completes, with every
    request and log line of [generateAnswer], but the component is
    unmounted. *)
Theorem new_chat_during_answer_unmounts
    (ai : GoogleGenAI) (others : App.Others) (message : string) (st : App.State)
    (doc : ProcessedDocument) (n : nat)
    (before after : list event) (fragment : string)
    (Hdoc : App.processedDoc st = Some doc)
    (Hmsg : App.is_blank message = false)
    (Hgen : App.isGenerating st = false)
    (Hfragment : trace_of (generateAnswer ai message doc n)
                 = (before ++ Yield fragment :: after)%list)
    (Hcleared : forall s, others (List.length before) s = App.createNewChat s) :
  exists n',
    App.handleSendMessage ai others message st n
    = (filter App.not_yield (trace_of (generateAnswer ai message doc n)), n',
       Return App.Unmounted).
Proof.
  destruct (generateAnswer_cases ai message doc n)
    as [(evs & n' & Hrun & _)|(evs & e & Hrun & _ & Hy & _)].
  - rewrite Hrun in Hfragment |- *. unfold trace_of in *. cbn [fst] in *. subst evs.
    exists n'. unfold App.handleSendMessage.
    rewrite Hdoc, Hmsg, Hgen. cbn [orb]. rewrite Hrun.
    match goal with |- context [App.consume others 0 _ "" ?s] => set (st1 := s) end.
    pose proof (consume_unmounts others before 0 "" st1 fragment after) as Hu.
    cbn [Nat.add] in Hu. specialize (Hu ltac:(intros s; now rewrite Hcleared)).
    destruct (App.consume others 0 (before ++ Yield fragment :: after) "" st1)
      as [full screen].
    cbn [snd] in Hu. subst screen. reflexivity.
  - exfalso. rewrite Hrun in Hfragment. unfold trace_of in Hfragment.
    cbn [fst] in Hfragment. subst evs.
    rewrite yields_app in Hy. cbn [yields] in Hy.
    destruct (yields before); discriminate.
Qed.

Lemma new_chat_during_answer_unmounts_witness :
  exists n',
    App.handleSendMessage (sampleAi [] answerStream)
      (fun k s => if Nat.eqb k 3 then App.createNewChat s else s)
      tldrQuestion readyState 0%nat
    = (filter App.not_yield
         (trace_of (generateAnswer (sampleAi [] answerStream) tldrQuestion
                      tenChunkDocument 0%nat)), n', Return App.Unmounted).
Proof.
  apply (new_chat_during_answer_unmounts (sampleAi [] answerStream)
           (fun k s => if Nat.eqb k 3 then App.createNewChat s else s)
           tldrQuestion readyState tenChunkDocument 0%nat
           (firstn 3 (trace_of (generateAnswer (sampleAi [] answerStream) tldrQuestion
                                  tenChunkDocument 0%nat)))
           (skipn 4 (trace_of (generateAnswer (sampleAi [] answerStream) tldrQuestion
                                 tenChunkDocument 0%nat)))
           "is on page 3." eq_refl eq_refl eq_refl eq_refl (fun _ => eq_refl)).
Defined.

(** ** Uploads and the chat history *)





Lemma substring_prefix_length (s : string) :
  forall m, String.length (substring 0 m s) = Nat.min m (String.length s).
Proof.
  induction s as [|c s IH]; intros [|m]; cbn; try reflexivity.
  now rewrite IH.
Qed.

(** X21: the name of a chat is the file name when that has at most 20
    characters, and otherwise its first 20 characters followed by three
    dots; it never has more than 23 characters. *)
Theorem chat_name_is_bounded (fileName : string) :
  js_length (Workspace.chatName fileName) <= 23
  /\ (js_length fileName <= 20 -> Workspace.chatName fileName = fileName)
  /\ (20 < js_length fileName ->
      Workspace.chatName fileName = substring 0 20 fileName ++ "..."
      /\ js_length (Workspace.chatName fileName) = 23).
Proof.
  unfold Workspace.chatName.
  assert (Hlen : js_length (substring 0 20 fileName) = Z.min 20 (js_length fileName)).
  { unfold js_length. rewrite substring_prefix_length. lia. }
  assert (Happ : forall a b, js_length (a ++ b) = js_length a + js_length b).
  { intros a b. unfold js_length. rewrite length_append. lia. }
  destruct (js_length fileName >? 20) eqn:E.
  - apply Z.gtb_lt in E. rewrite Happ, Hlen.
    change (js_length "...") with 3.
    split; [lia|]. split; [lia|]. intros _. split; [reflexivity | lia].
  - assert (E' : js_length fileName <= 20)
      by (destruct (Z.gtb_spec (js_length fileName) 20); [discriminate | lia]).
    rewrite append_empty_r, Hlen.
    split; [lia|]. split; [|lia].
    intros _. unfold js_length in E'.
    assert (Hsub : forall s m, (String.length s <= m)%nat -> substring 0 m s = s).
    { induction s as [|c s IH]; intros [|m] H; cbn in *; try reflexivity; try lia.
      f_equal. apply IH. lia. }
    apply Hsub. lia.
Qed.







(** X23: [handleDeleteChat] removes from the history exactly the chats with
    the given id and keeps the others in their order; when that id is the
    active one the page is cleared (no file, no document, no message, no
    active chat), and otherwise what is on display stays. *)
Theorem delete_removes_the_chat (chatId : string) (st : Workspace.State) :
  Workspace.chats (Workspace.handleDeleteChat chatId st)
  = filter (fun c => negb (String.eqb (Workspace.ChatSession.id c) chatId))
      (Workspace.chats st)
  /\ (forall chat,
        In chat (Workspace.chats (Workspace.handleDeleteChat chatId st))
        <-> In chat (Workspace.chats st) /\ Workspace.ChatSession.id chat <> chatId)
  /\ (Workspace.activeChatId st = Some chatId ->
      Workspace.file (Workspace.handleDeleteChat chatId st) = None
      /\ Workspace.processedDoc (Workspace.handleDeleteChat chatId st) = None
      /\ Workspace.messages (Workspace.handleDeleteChat chatId st) = []
      /\ Workspace.activeChatId (Workspace.handleDeleteChat chatId st) = None)
  /\ (Workspace.activeChatId st <> Some chatId ->
      Workspace.file (Workspace.handleDeleteChat chatId st) = Workspace.file st
      /\ Workspace.processedDoc (Workspace.handleDeleteChat chatId st)
         = Workspace.processedDoc st
      /\ Workspace.messages (Workspace.handleDeleteChat chatId st) = Workspace.messages st
      /\ Workspace.activeChatId (Workspace.handleDeleteChat chatId st)
         = Workspace.activeChatId st).
Proof.
  assert (Hchats : Workspace.chats (Workspace.handleDeleteChat chatId st)
                   = filter (fun c => negb (String.eqb (Workspace.ChatSession.id c) chatId))
                       (Workspace.chats st)).
  { unfold Workspace.handleDeleteChat.
    destruct (Workspace.activeChatId st) as [active|]; [|reflexivity].
    destruct (String.eqb active chatId); reflexivity. }
  split; [exact Hchats|]. split; [|split].
  - intros chat. rewrite Hchats, filter_In, negb_true_iff, String.eqb_neq. tauto.
  - intros Ea. unfold Workspace.handleDeleteChat. rewrite Ea, String.eqb_refl.
    cbn. repeat split.
  - intros Ea. unfold Workspace.handleDeleteChat.
    destruct (Workspace.activeChatId st) as [active|] eqn:Eact.
    + destruct (String.eqb active chatId) eqn:E.
      * apply String.eqb_eq in E. subst. now elim Ea.
      * cbn. repeat split. exact Eact.
    + cbn. repeat split. exact Eact.
Qed.

(** ** The chat form and the loading dots *)

Lemma sourcesFragment_nonempty (pages : list Z) : sourcesFragment pages <> "".
Proof. unfold sourcesFragment, nl. cbn. discriminate. Qed.

Lemma streamTrace_fragments_nonempty (ai : GoogleGenAI) (prompt : string) :
  Forall (fun v => v <> "") (yields (streamTrace ai prompt)).
Proof.
  rewrite streamTrace_yields.
  assert (Herr : ERROR_FRAGMENT <> "") by discriminate.
  destruct (generateContentStream ai prompt) as [|texts [|]].
  - now constructor.
  - apply fragmentsOf_nonempty.
  - apply Forall_app. split; [apply fragmentsOf_nonempty | now constructor].
Qed.

Lemma generateAnswer_fragments_nonempty (ai : GoogleGenAI) (question : string)
    (docData : ProcessedDocument) (n : nat) :
  Forall (fun v => v <> "") (yields (trace_of (generateAnswer ai question docData n))).
Proof.
  destruct (generateAnswer_paths ai question docData n)
    as [(Hs & Hrun)|[(Hs & Ht & top & Hr & Hrun)|[(Hs & Hrun)|(Hs & He & e & Hrun)]]];
    rewrite Hrun; unfold trace_of; cbn [fst yields]; try constructor.
  - rewrite yields_app. apply Forall_app.
    split; [apply streamTrace_fragments_nonempty|]. cbn.
    constructor; [discriminate|constructor].
  - rewrite yields_app. apply Forall_app.
    split; [apply streamTrace_fragments_nonempty|].
    unfold citationOf. destruct (0 <? List.length (uniquePages top))%nat; cbn;
      [constructor; [apply sourcesFragment_nonempty | constructor] | constructor].
Qed.

Lemma concat_all_empty (l : list string) :
  Forall (fun v => v <> "") l -> (concat_all l = "" <-> l = []).
Proof.
  intros H. split; [|now intros ->].
  destruct H as [|v l Hv _]; [reflexivity|].
  cbn. destruct v; [contradiction | discriminate].
Qed.

Lemma showLoadingDots_last (base : list App.Message) (s : string) :
  ChatInterface.showLoadingDots (base ++ [App.mkMessage App.assistant s]) true = true
  <-> s = "".
Proof.
  unfold ChatInterface.showLoadingDots, ChatInterface.isStreamingResponse.
  rewrite rev_unit. cbn. destruct s; cbn; split; intros H; congruence.
Qed.

(** X24: when no other handler runs during the turn, the loading dots are
    shown exactly until the first fragment of the answer arrives. Whatever
    part of the events of [generateAnswer] the streaming loop has consumed,
    starting from a transcript that ends with the empty placeholder, the
    component is mounted, the last message, the assistant's, holds the text
    received so far, and the dots are shown if and only if no fragment was
    among the events; so the dots and a rendered answer are never on display
    together. *)
Theorem loading_dots_until_first_fragment
    (ai : GoogleGenAI) (question : string) (docData : ProcessedDocument) (n : nat)
    (others : App.Others) (st : App.State) (base : list App.Message)
    (seen rest : list event)
    (Hquiet : forall k s, others k s = s)
    (Hplaceholder : App.messages st = (base ++ [App.mkMessage App.assistant ""])%list)
    (Hseen : trace_of (generateAnswer ai question docData n) = (seen ++ rest)%list) :
  exists st',
    snd (App.consume others 0 seen "" st) = App.Mounted st'
    /\ App.messages st'
       = (base ++ [App.mkMessage App.assistant (concat_all (yields seen))])%list
    /\ (ChatInterface.showLoadingDots (App.messages st') true = true
        <-> yields seen = [])
    /\ (ChatInterface.showLoadingDots (App.messages st') true = true ->
        ChatInterface.rendered (App.mkMessage App.assistant (concat_all (yields seen)))
        = false).
Proof.
  rewrite (consume_quiet others seen Hquiet 0 "" st base Hplaceholder).
  cbn [snd append]. eexists. split; [reflexivity|]. cbn [App.messages].
  split; [reflexivity|].
  assert (Hne : Forall (fun v => v <> "") (yields seen)).
  { pose proof (generateAnswer_fragments_nonempty ai question docData n) as H.
    rewrite Hseen, yields_app in H. apply Forall_app in H. apply H. }
  rewrite showLoadingDots_last. split; [now apply concat_all_empty|].
  intros ->. reflexivity.
Qed.

Lemma loading_dots_until_first_fragment_witness :
  exists st',
    snd (App.consume App.quiet 0
           [ConsoleLog "Using Full Context Summarization strategy"] "" waitingState)
    = App.Mounted st'
    /\ App.messages st'
       = (App.messages readyState ++ [App.mkMessage App.assistant ""])%list
    /\ (ChatInterface.showLoadingDots (App.messages st') true = true
        <-> yields [ConsoleLog "Using Full Context Summarization strategy"] = []).
Proof.
  destruct (loading_dots_until_first_fragment (sampleAi [] answerStream) tldrQuestion
              tenChunkDocument 0%nat App.quiet waitingState (App.messages readyState)
              [ConsoleLog "Using Full Context Summarization strategy"]
              (tl (trace_of (generateAnswer (sampleAi [] answerStream) tldrQuestion
                               tenChunkDocument 0%nat)))
              (fun _ _ => eq_refl) eq_refl eq_refl) as (st' & H0 & H1 & H2 & _).
  exists st'. split; [exact H0|]. split; [exact H1 | exact H2].
Defined.

(** X25: a message that the chat form submits is the input as typed, and
    the input field is cleared; [handleSendMessage] then starts a turn with
    it when a document is loaded (it completes with at least one event
    whatever the other handlers do, and with the transcript extended by the
    message and a reply when none of them runs), and does nothing at all
    when no document is loaded: the message is dropped although the field
    was cleared. The form submits nothing, and keeps the input, when the
    input is blank or an answer is being generated. *)
Theorem submitted_message_starts_a_turn
    (ai : GoogleGenAI) (others : App.Others) (input : string) (st : App.State)
    (n : nat) :
  match ChatInterface.handleSubmit input (App.isGenerating st) with
  | (Some message, input') =>
      message = input /\ input' = ""
      /\ match App.processedDoc st with
         | Some doc =>
             (exists evs n' screen,
                App.handleSendMessage ai others message st n = (evs, n', Return screen)
                /\ evs <> [])
             /\ exists evs n' st' reply,
                  App.handleSendMessage ai App.quiet message st n
                  = (evs, n', Return (App.Mounted st'))
                  /\ App.messages st'
                     = (App.messages st ++ [App.mkMessage App.user input;
                                            App.mkMessage App.assistant reply])%list
         | None =>
             App.handleSendMessage ai others message st n
             = ([], n, Return (App.Mounted st))
         end
  | (None, input') =>
      input' = input /\ (App.is_blank input = true \/ App.isGenerating st = true)
      /\ App.handleSendMessage ai others input st n = ([], n, Return (App.Mounted st))
  end.
Proof.
  unfold ChatInterface.handleSubmit.
  destruct (App.is_blank input) eqn:Hb; cbn [orb].
  - split; [reflexivity|]. split; [now left|].
    unfold App.handleSendMessage. rewrite Hb. now destruct (App.processedDoc st).
  - destruct (App.isGenerating st) eqn:Hg.
    + split; [reflexivity|]. split; [now right|].
      unfold App.handleSendMessage. rewrite Hb, Hg. now destruct (App.processedDoc st).
    + split; [reflexivity|]. split; [reflexivity|].
      destruct (App.processedDoc st) as [doc|] eqn:Hd.
      * destruct (generateAnswer_logs_first ai input doc n) as (msg & rest & Hlog).
        destruct (generateAnswer_cases ai input doc n)
          as [(evs & n' & Hrun & _)|(evs & e & Hrun & _)];
          rewrite Hrun in Hlog; unfold trace_of in Hlog; cbn [fst] in Hlog; subst evs.
        -- split.
           ++ destruct (handleSendMessage_disturbed ai others input st doc n n'
                          (ConsoleLog msg :: rest) (Return tt)
                          (concat_all (yields (ConsoleLog msg :: rest)))
                          Hd Hb Hg Hrun eq_refl) as (more & screen & E & _).
              eexists _, _, _. split; [exact E|]. discriminate.
           ++ destruct (handleSendMessage_state ai App.quiet input st doc n n'
                          (ConsoleLog msg :: rest) (Return tt)
                          (concat_all (yields (ConsoleLog msg :: rest)))
                          (fun _ _ => eq_refl) Hd Hb Hg Hrun eq_refl) as [log H].
              eexists _, _, _, _. split; [exact H|]. reflexivity.
        -- split.
           ++ destruct (handleSendMessage_disturbed ai others input st doc n (S n)
                          (ConsoleLog msg :: rest) (Throw e) App.CONNECT_ERROR
                          Hd Hb Hg Hrun eq_refl) as (more & screen & E & _).
              eexists _, _, _. split; [exact E|]. discriminate.
           ++ destruct (handleSendMessage_state ai App.quiet input st doc n (S n)
                          (ConsoleLog msg :: rest) (Throw e) App.CONNECT_ERROR
                          (fun _ _ => eq_refl) Hd Hb Hg Hrun eq_refl) as [log H].
              eexists _, _, _, _. split; [exact H|]. reflexivity.
      * unfold App.handleSendMessage. now rewrite Hd.
Qed.
